(** * SuperFS: the directory engine ([libs/dir.js]) and the recursive
    [mkdir] helper, embedded over a finite-map file system.

    Paths are JavaScript strings and the file system is a finite map from
    path strings to file-system objects, so that every definition reads
    as the source does: [Path.join this_path file], then a [stat] of the
    joined path, and so on.  A promise settles as [Resolved v] or
    [Rejected e]; what an operation has already changed in the file
    system stays changed when it rejects.  Operations that only inspect
    the file system are functions of the map; operations that change it
    thread a world made of the map and a log of the changes. *)

From Stdlib Require Import Ascii String ZArith Lia Sorted Permutation.
From stdpp Require Import gmap strings list fin_maps.

Local Open Scope stdpp_scope.

(* ===================================================================== *)
(** ** Node's [path] module, POSIX flavour *)
(* ===================================================================== *)

Module Path.

Definition is_sep (c : ascii) : bool := Ascii.eqb c "/"%char.

(** [s.split('/')]: always at least one segment. *)
Fixpoint split (s : string) : list string :=
  match s with
  | EmptyString => [EmptyString]
  | String c s' =>
      if is_sep c then EmptyString :: split s'
      else match split s' with
           | seg :: rest => String c seg :: rest
           | [] => [String c EmptyString]
           end
  end.

Definition isAbsolute (p : string) : bool :=
  match p with
  | String c _ => is_sep c
  | EmptyString => false
  end.

Fixpoint endsWithSep (p : string) : bool :=
  match p with
  | EmptyString => false
  | String c EmptyString => is_sep c
  | String _ p' => endsWithSep p'
  end.

(** [normalizeString]: [acc] holds the segments kept so far, last one
    first.  Empty and ["."] segments vanish, [".."] removes the segment
    before it, or stays when there is none to remove and the path is
    relative. *)
Fixpoint normalizeSegments (allowAboveRoot : bool) (segs acc : list string)
  : list string :=
  match segs with
  | [] => rev acc
  | seg :: segs' =>
      if String.eqb seg "" || String.eqb seg "." then
        normalizeSegments allowAboveRoot segs' acc
      else if String.eqb seg ".." then
        match acc with
        | top :: acc' =>
            if String.eqb top ".." then
              normalizeSegments allowAboveRoot segs' (seg :: acc)
            else normalizeSegments allowAboveRoot segs' acc'
        | [] =>
            if allowAboveRoot
            then normalizeSegments allowAboveRoot segs' [seg]
            else normalizeSegments allowAboveRoot segs' []
        end
      else normalizeSegments allowAboveRoot segs' (seg :: acc)
  end.

Definition normalize (p : string) : string :=
  if String.eqb p "" then "."
  else
    let isAbs := isAbsolute p in
    let trailingSeparator := endsWithSep p in
    let body :=
      String.concat "/" (normalizeSegments (negb isAbs) (split p) []) in
    if String.eqb body "" then
      if isAbs then "/" else if trailingSeparator then "./" else "."
    else
      (if isAbs then "/" else "") +:+ body
        +:+ (if trailingSeparator then "/" else "").

(** [path.join(a, b)]: the non-empty arguments joined by ["/"], then
    normalized. *)
Definition join (a b : string) : string :=
  if String.eqb a "" then
    if String.eqb b "" then "." else normalize b
  else if String.eqb b "" then normalize a
  else normalize (a +:+ "/" +:+ b).

(** [path.basename(p)]: the last non-empty segment. *)
Definition basename (p : string) : string :=
  List.last (List.filter (fun seg => negb (String.eqb seg "")) (split p)) "".

Definition chars (s : string) : list ascii := list_ascii_of_string s.

Fixpoint dropWhile (f : ascii -> bool) (l : list ascii) : list ascii :=
  match l with
  | [] => []
  | c :: l' => if f c then dropWhile f l' else l
  end.

(** [path.dirname(p)], scanning from the end as Node does: the trailing
    separators, then the last segment, then the separator before it. *)
Definition dirname (p : string) : string :=
  match p with
  | EmptyString => "."
  | String c0 tl =>
      let hasRoot := is_sep c0 in
      let r1 := dropWhile is_sep (rev (chars tl)) in
      let r2 := dropWhile (fun c => negb (is_sep c)) r1 in
      match r2 with
      | [] => if hasRoot then "/" else "."
      | _ :: r3 =>
          match r3 with
          | [] => if hasRoot then "//" else String c0 EmptyString
          | _ => String c0 (string_of_list_ascii (rev r3))
          end
      end
  end.

(** The segments of [p] after normalization, without a trailing
    separator: the form under which the file system knows [p]. *)
Definition resolve (p : string) : string :=
  let isAbs := isAbsolute p in
  let body :=
    String.concat "/" (normalizeSegments (negb isAbs) (split p) []) in
  if isAbs then "/" +:+ body
  else if String.eqb body "" then "." else body.

(** [path.resolve(base, p)] for an absolute [base]. *)
Definition resolveFrom (base p : string) : string :=
  if isAbsolute p then resolve p else resolve (base +:+ "/" +:+ p).

End Path.

(* ===================================================================== *)
(** ** The file system and its asynchronous primitives *)
(* ===================================================================== *)

(** OS-level failures, and the [TypeError] of the JavaScript runtime. *)
Inductive errno : Type :=
  | ENOENT | ENOTDIR | EISDIR | EEXIST | ENOTEMPTY | EACCES | TypeError.

(** How a promise settles.  [Pending] is a promise that has not settled
    within the recursion budget given to the model. *)
Inductive Promise (A : Type) : Type :=
  | Resolved (a : A)
  | Rejected (e : errno)
  | Pending.
Arguments Resolved {A} a.
Arguments Rejected {A} e.
Arguments Pending {A}.

Definition bindP {A B} (m : Promise A) (k : A -> Promise B) : Promise B :=
  match m with
  | Resolved a => k a
  | Rejected e => Rejected e
  | Pending => Pending
  end.

Notation "x <- m ;; k" := (bindP m (fun x => k))
  (at level 100, m at next level, right associativity).

(** [for (const x of l) { s = body(x, s) }] with an abrupt exit when a
    yielded promise rejects. *)
Fixpoint forOf {A S} (l : list A) (s : S) (body : A -> S -> Promise S)
  : Promise S :=
  match l with
  | [] => Resolved s
  | x :: l' => s' <- body x s ;; forOf l' s' body
  end.

(** A file-system object.  A directory carries its listing, in the order
    [readdir] reports it. *)
Inductive fsobj : Type :=
  | File (data : string) (mode : Z)
  | Dir (listing : list string) (mode : Z).

(** The calls that changed the file system or attached a listener, as
    they succeeded, oldest first. *)
Inductive Event : Type :=
  | EvMkdir (p : string) (mode : Z)
  | EvWriteFile (p : string) (data : string) (mode : Z)
  | EvUnlink (p : string)
  | EvRmdir (p : string)
  | EvWatch (p : string).

Record World : Type := mkWorld {
  files : gmap string fsobj;
  events : list Event
}.

(** Computations that change the world.  The world reached when a promise
    rejects is kept: nothing is rolled back. *)
Definition M (A : Type) : Type := World -> Promise A * World.

Definition ret {A} (a : A) : M A := fun w => (Resolved a, w).

Definition bindM {A B} (m : M A) (k : A -> M B) : M B :=
  fun w =>
    match m w with
    | (Resolved a, w') => k a w'
    | (Rejected e, w') => (Rejected e, w')
    | (Pending, w') => (Pending, w')
    end.

Notation "x <~ m ;; k" := (bindM m (fun x => k))
  (at level 100, m at next level, right associativity).

(** A computation that only inspects the file system. *)
Definition inspect {A} (f : gmap string fsobj -> Promise A) : M A :=
  fun w => (f (files w), w).

Definition throw {A} (e : errno) : M A := fun w => (Rejected e, w).

Fixpoint forOfM {A S} (l : list A) (s : S) (body : A -> S -> M S) : M S :=
  match l with
  | [] => ret s
  | x :: l' => s' <~ body x s ;; forOfM l' s' body
  end.

(** Node's [fs] module over the map.  A path names the object stored
    under its resolved form, so ["/a/b/"] and ["/a/./b"] name the object
    at ["/a/b"]. *)
Module Fs.

Record Stats : Type := mkStats {
  st_isFile : bool;
  st_isDirectory : bool;
  st_mode : Z
}.

Definition stats_of (o : fsobj) : Stats :=
  match o with
  | File _ m => mkStats true false m
  | Dir _ m => mkStats false true m
  end.

Definition lookup (fs : gmap string fsobj) (p : string) : option fsobj :=
  fs !! Path.resolve p.

Definition stat (fs : gmap string fsobj) (p : string) : Promise Stats :=
  match lookup fs p with
  | Some o => Resolved (stats_of o)
  | None => Rejected ENOENT
  end.

(** There are no symbolic links in the model. *)
Definition lstat := stat.

(** [fs.access(p, cb)]: the error handed to the callback, if any. *)
Definition access (fs : gmap string fsobj) (p : string) : option errno :=
  match lookup fs p with
  | Some _ => None
  | None => Some ENOENT
  end.

Definition readdir (fs : gmap string fsobj) (p : string)
  : Promise (list string) :=
  match lookup fs p with
  | Some (Dir names _) => Resolved names
  | Some (File _ _) => Rejected ENOTDIR
  | None => Rejected ENOENT
  end.

Definition readFile (fs : gmap string fsobj) (p : string) : Promise string :=
  match lookup fs p with
  | Some (File data _) => Resolved data
  | Some (Dir _ _) => Rejected EISDIR
  | None => Rejected ENOENT
  end.

Definition parentOf (k : string) : string := Path.resolve (Path.dirname k).

(** Enter [k] in the listing of its parent directory. *)
Definition link (k : string) (o : fsobj) (fs : gmap string fsobj)
  : Promise (gmap string fsobj) :=
  match fs !! parentOf k with
  | Some (Dir names m) =>
      Resolved (<[k := o]> (<[parentOf k := Dir (names ++ [Path.basename k]) m]> fs))
  | Some (File _ _) => Rejected ENOTDIR
  | None => Rejected ENOENT
  end.

(** Take [k] out of the listing of its parent directory. *)
Definition unlinkKey (k : string) (fs : gmap string fsobj)
  : gmap string fsobj :=
  let fs' := base.delete k fs in
  match fs' !! parentOf k with
  | Some (Dir names m) =>
      <[parentOf k :=
          Dir (List.filter (fun n => negb (String.eqb n (Path.basename k))) names) m]> fs'
  | _ => fs'
  end.

Definition change (f : gmap string fsobj -> Promise (gmap string fsobj))
    (e : Event) : M unit :=
  fun w =>
    match f (files w) with
    | Resolved fs' => (Resolved tt, mkWorld fs' (events w ++ [e]))
    | Rejected err => (Rejected err, w)
    | Pending => (Pending, w)
    end.

Definition mkdir (p : string) (mode : Z) : M unit :=
  change (fun fs =>
            match lookup fs p with
            | Some _ => Rejected EEXIST
            | None => link (Path.resolve p) (Dir [] mode) fs
            end)
         (EvMkdir p mode).

(** The mode is applied only when the file is created. *)
Definition writeFile (p : string) (data : string) (mode : Z) : M unit :=
  change (fun fs =>
            match lookup fs p with
            | Some (Dir _ _) => Rejected EISDIR
            | Some (File _ m0) => Resolved (<[Path.resolve p := File data m0]> fs)
            | None => link (Path.resolve p) (File data mode) fs
            end)
         (EvWriteFile p data mode).

Definition unlink (p : string) : M unit :=
  change (fun fs =>
            match lookup fs p with
            | Some (File _ _) => Resolved (unlinkKey (Path.resolve p) fs)
            | Some (Dir _ _) => Rejected EISDIR
            | None => Rejected ENOENT
            end)
         (EvUnlink p).

Definition rmdir (p : string) : M unit :=
  change (fun fs =>
            match lookup fs p with
            | Some (Dir [] _) => Resolved (unlinkKey (Path.resolve p) fs)
            | Some (Dir (_ :: _) _) => Rejected ENOTEMPTY
            | Some (File _ _) => Rejected ENOTDIR
            | None => Rejected ENOENT
            end)
         (EvRmdir p).

(** [fs.watch(p, listener)] throws when [p] does not exist. *)
Definition watch (p : string) : M unit :=
  change (fun fs =>
            match lookup fs p with
            | Some _ => Resolved fs
            | None => Rejected ENOENT
            end)
         (EvWatch p).

End Fs.

(* ===================================================================== *)
(** ** The collaborators of the directory engine ([FSTools], [file]) *)
(* ===================================================================== *)

(** A compiled matcher: what its [test] method answers on a string. *)
Definition Matcher : Type := string -> bool.

Definition test (m : Matcher) (s : string) : bool := m s.

Module FSTools.

(** Modelled from the spec: [FSTools.createFileMatch] is not among the
    sources.  It compiles a filter or ignore specification into a single
    predicate over a path string; a specification is represented by the
    predicate it compiles to, and an absent one gives [null], which
    [read] tests with [!fileFilter]. *)
Definition createFileMatch (pattern : option Matcher) : option Matcher :=
  pattern.

(** Modelled from the spec: [FSTools.readDir], [stat], [readFile] and
    [exists] are not among the sources.  Each is the asynchronous
    primitive of the same name, resolving with its result or failing
    with the OS-level error; [exists] answers whether the path is
    accessible. *)
Definition readDir := Fs.readdir.
Definition stat := Fs.stat.
Definition readFile := Fs.readFile.

Definition exists_ (p : string) : M bool :=
  inspect (fun fs =>
             match Fs.access fs p with
             | None => Resolved true
             | Some _ => Resolved false
             end).

(** Modelled from the spec: [FSTools.createPathArray] is not among the
    sources.  It gives the ordered list of ancestor directories needed
    for the target path, root to leaf, the target last. *)
Definition createPathArray (d : string) : list string :=
  let isAbs := Path.isAbsolute d in
  let segs := Path.normalizeSegments (negb isAbs) (Path.split d) [] in
  List.map (fun n => (if isAbs then "/" else "") +:+ String.concat "/" (take n segs))
           (seq 1 (length segs)).

(** Modelled from the spec: [FSTools.createDir], [writeFile],
    [removeDir] and [removeFile] are not among the sources.  They are
    the single-path make-directory, write-file, remove-directory and
    remove-file primitives; an absent mode is the default of Node's
    [fs] (0o777 for a directory, 0o666 for a file). *)
Definition createDir (d : string) (opts : option Z) : M unit :=
  Fs.mkdir d (default 511%Z opts).

Definition writeFile (p data : string) (mode : option Z) : M unit :=
  Fs.writeFile p data (default 438%Z mode).

Definition removeDir := Fs.rmdir.
Definition removeFile := Fs.unlink.

End FSTools.

(* ===================================================================== *)
(** ** Entries *)
(* ===================================================================== *)

(** A materialized entry: the object [create()] resolves with.  Of the
    fields merged in from the stat result only [mode] is kept; [ext] and
    the four device flags are left out. Fields that JavaScript leaves
    undefined until an operation stamps them are options. *)
Record Entry : Type := mkEntry {
  path : string;
  name : string;
  dir : string;
  isFile : bool;
  isDir : bool;
  mode : Z;
  relative : option string;
  fileExists : option bool;
  fileOverwritten : option bool
}.

Definition setRelative (e : Entry) (r : string) : Entry :=
  mkEntry (path e) (name e) (dir e) (isFile e) (isDir e) (mode e)
          (Some r) (fileExists e) (fileOverwritten e).

Definition setCopyOutcome (e : Entry) (ex ow : bool) : Entry :=
  mkEntry (path e) (name e) (dir e) (isFile e) (isDir e) (mode e)
          (relative e) (Some ex) (Some ow).

(** [a || b] on a mode: [undefined] and [0] are falsy. *)
Definition orMode (a : option Z) (b : Z) : Z :=
  match a with
  | Some m => if (m =? 0)%Z then b else m
  | None => b
  end.

(** The options of [read], after [Object.assign] over the defaults. *)
Record Options : Type := mkOptions {
  encoding : string;
  recursive : bool;
  relativePath : string;
  skipFiles : bool;
  skipDirs : bool;
  addParent : bool;
  filter : option Matcher;
  ignore : option Matcher
}.

Definition defaults : Options :=
  mkOptions "utf8" false "" false false false None None.

(** The options of [copy]. *)
Record CopyOptions : Type := mkCopyOptions {
  copy_recursive : bool;
  overwrite : bool;
  dirMode : option Z;
  fileMode : option Z
}.

(** What a caller may pass as the second argument of [copy]. *)
Inductive CopyArg : Type :=
  | CopyTrue
  | CopyUndefined
  | CopyWith (o : CopyOptions).

(* ===================================================================== *)
(** ** [class SuperFSDir] *)
(* ===================================================================== *)

Module SuperFSDir.
Section Engine.

(** [path.dirname(module.parent.parent.filename)]: the absolute
    directory of the module that required the library. *)
Variable callerDir : string.

(** [/^\.\.?/.test(dirname)] *)
Definition startsWithDot (dirname : string) : bool :=
  match dirname with
  | String c _ => Ascii.eqb c "."%char
  | EmptyString => false
  end.

(** [constructor (dirname)]: the value of [this.path]. *)
Definition new (dirname : string) : string :=
  if startsWithDot dirname then Path.resolveFrom callerDir dirname
  else dirname.

(** [create ()] *)
Definition create (fs : gmap string fsobj) (this_path : string)
  : Promise Entry :=
  match Fs.lstat fs this_path with
  | Rejected err => Rejected err
  | Pending => Pending
  | Resolved st =>
      Resolved (mkEntry this_path
                        (Path.basename this_path)
                        (Path.dirname this_path)
                        (Fs.st_isFile st)
                        (Fs.st_isDirectory st)
                        (Fs.st_mode st)
                        None None None)
  end.

(** Modelled from the spec: the file wrapper ([./file]) is not among the
    sources.  Its constructor keeps the path it is given and its
    [create()] follows the same materialize contract as the directory
    engine's. *)
Definition createFile (fs : gmap string fsobj) (filepath encoding : string)
  : Promise Entry :=
  create fs filepath.

(** [`${opts.relativePath}/${n}`] when [opts.relativePath] is truthy,
    [n] otherwise. *)
Definition relativeOf (opts : Options) (n : string) : string :=
  if String.eqb (relativePath opts) "" then n
  else relativePath opts +:+ "/" +:+ n.

(** The first pass over the raw listing:
    [rawFiles.filter(file => ignoreReg.test(file) ? true : false)]. *)
Definition firstPass (ignoreReg : option Matcher) (rawFiles : list string)
  : list string :=
  match ignoreReg with
  | Some reg =>
      List.filter (fun file => if test reg file then true else false) rawFiles
  | None => rawFiles
  end.

(** [subFiles.forEach(s => { if (ignoreReg && ignoreReg.test(s.path))
    return; outFiles.push(s) })] *)
Definition pushSubFiles (ignoreReg : option Matcher)
    (subFiles outFiles : list Entry) : list Entry :=
  fold_left
    (fun outFiles s =>
       match ignoreReg with
       | Some reg => if test reg (path s) then outFiles else outFiles ++ [s]
       | None => outFiles ++ [s]
       end)
    subFiles outFiles.

(** [Object.assign({}, opts, { relativePath: ..., filter: opts.filter,
    addParent: false })]: the options of the recursive call. *)
Definition subOptions (opts : Options) (file : string) : Options :=
  mkOptions (encoding opts) (recursive opts) (relativeOf opts file)
            (skipFiles opts) (skipDirs opts) false (filter opts) (ignore opts).

(** The body of [for (const file of rawFiles)], given what the recursive
    call [dir.read] does. *)
Definition readEntry
    (subRead : Options -> string -> Promise (list Entry))
    (fs : gmap string fsobj) (opts : Options)
    (fileFilter ignoreReg : option Matcher) (this_path : string)
    (file : string) (outFiles : list Entry) : Promise (list Entry) :=
  let filepath := Path.join this_path file in
  stat <- FSTools.stat fs filepath ;;
  if Fs.st_isDirectory stat then
    d <- create fs (new filepath) ;;
    let rel := relativeOf opts (name d) in
    let d := setRelative d rel in
    let outFiles :=
      if negb (skipDirs opts)
         && match fileFilter with
            | None => true
            | Some reg => test reg rel
            end
      then outFiles ++ [d] else outFiles in
    if recursive opts then
      subFiles <- subRead (subOptions opts file) (path d) ;;
      Resolved (pushSubFiles ignoreReg subFiles outFiles)
    else Resolved outFiles
  else
    if skipFiles opts then Resolved outFiles
    else
      if match fileFilter with
         | Some reg => negb (test reg filepath)
         | None => false
         end
      then Resolved outFiles
      else
        fl <- createFile fs filepath (encoding opts) ;;
        let fl := setRelative fl (relativeOf opts (name fl)) in
        Resolved (outFiles ++ [fl]).

(** [read (opts)].  Each unit of [fuel] pays for one level of
    directories. *)
Fixpoint read (fuel : nat) (fs : gmap string fsobj) (opts : Options)
    (this_path : string) : Promise (list Entry) :=
  match fuel with
  | O => Pending
  | S fuel' =>
      let fileFilter := FSTools.createFileMatch (filter opts) in
      outFiles <- (if addParent opts
                   then e <- create fs this_path ;; Resolved [e]
                   else Resolved []) ;;
      let ignoreReg :=
        match ignore opts with
        | Some pattern => FSTools.createFileMatch (Some pattern)
        | None => None
        end in
      rawFiles <- FSTools.readDir fs this_path ;;
      let rawFiles := firstPass ignoreReg rawFiles in
      forOf rawFiles outFiles
            (readEntry (read fuel' fs) fs opts fileFilter ignoreReg this_path)
  end.

(** [exists ()], over the error [fs.access] hands to its callback. *)
Definition exists_ (access : string -> option errno) (this_path : string)
  : Promise bool :=
  match access this_path with
  | Some err => Resolved false
  | None => Resolved true
  end.

(** [mkdir (dir, opts)] *)
Definition mkdir (d : string) (opts : option Z) : M unit :=
  forOfM (FSTools.createPathArray d) tt
         (fun d _ =>
            ex <~ FSTools.exists_ d ;;
            if ex then ret tt else FSTools.createDir d opts).

Definition copyOptions (arg : CopyArg) : CopyOptions :=
  match arg with
  | CopyTrue => mkCopyOptions true false None None
  | CopyUndefined => mkCopyOptions false false None None
  | CopyWith o => o
  end.

Definition readAll : Options :=
  mkOptions "utf8" true "" false false false None None.

(** The body of [for (const fl of files)] in [copy]; [copied] collects
    the entries as the loop leaves them. *)
Definition copyEntry (dest : string) (opts : CopyOptions)
    (fl : Entry) (copied : list Entry) : M (list Entry) :=
  match relative fl with
  | None => throw TypeError
  | Some rel =>
      let destFile := Path.join dest rel in
      if isDir fl then
        _ <~ mkdir destFile (Some (orMode (dirMode opts) (mode fl))) ;;
        ret (copied ++ [fl])
      else
        data <~ inspect (fun fs => FSTools.readFile fs (path fl)) ;;
        targetExists <~ FSTools.exists_ destFile ;;
        let fl := setCopyOutcome fl targetExists (overwrite opts) in
        _ <~ (if negb targetExists || overwrite opts
              then FSTools.writeFile destFile data
                     (Some (orMode (fileMode opts) (mode fl)))
              else ret tt) ;;
        ret (copied ++ [fl])
  end.

(** [copy (dest, opts)] *)
Definition copy (fuel : nat) (this_path dest : string) (arg : CopyArg)
  : M (list Entry) :=
  let opts := copyOptions arg in
  destExists <~ FSTools.exists_ dest ;;
  _ <~ (if negb destExists then mkdir dest None else ret tt) ;;
  files <~ inspect (fun fs => read fuel fs readAll this_path) ;;
  forOfM files [] (copyEntry dest opts).

(** The comparator of [delete]: [(a, b) => a.isDir ? 1 : -1]. *)
Definition dirLast (a b : Entry) : Z := if isDir a then 1%Z else (-1)%Z.

(** [delete ()], given the engine's [Array.prototype.sort]. *)
Definition delete
    (sort : (Entry -> Entry -> Z) -> list Entry -> list Entry)
    (fuel : nat) (this_path : string) : M (list Entry) :=
  files <~ inspect (fun fs => read fuel fs readAll this_path) ;;
  let sortedFiles := sort dirLast files in
  _ <~ forOfM sortedFiles tt
         (fun fl _ =>
            if isDir fl then FSTools.removeDir (path fl)
            else FSTools.removeFile (path fl)) ;;
  ret sortedFiles.

Definition watchRead : Options :=
  mkOptions "utf8" true "" true false true None None.

(** [watch (opts, fn)]: [opts_ignore] is [opts.ignore], absent also when
    the method is called as [watch(fn)].  The change handler runs only
    on a later native event and is not part of the call. *)
Definition watch (fuel : nat) (this_path : string)
    (opts_ignore : option Matcher) : M (list Entry) :=
  dirs <~ inspect (fun fs => read fuel fs watchRead this_path) ;;
  let ignoreReg :=
    match opts_ignore with
    | Some pattern => FSTools.createFileMatch (Some pattern)
    | None => None
    end in
  _ <~ forOfM dirs tt
         (fun fl _ =>
            if match ignoreReg with
               | Some reg => test reg (path fl)
               | None => false
               end
            then ret tt
            else Fs.watch (path fl)) ;;
  ret dirs.

End Engine.
End SuperFSDir.

(* ===================================================================== *)
(** ** The recursive [mkdir] helper *)
(* ===================================================================== *)

Module MkdirHelper.

(** [fs.mkdir(dir, err => done(err))]: what [done] receives. *)
Definition mkdirThenDone (d : string) : M (option errno) :=
  fun w =>
    match Fs.mkdir d 511%Z w with
    | (Resolved _, w') => (Resolved None, w')
    | (Rejected err, w') => (Resolved (Some err), w')
    | (Pending, w') => (Pending, w')
    end.

(** [mkdir (dir, done)]: the computation resolves with the argument
    [done] is called with, [None] for [done()]. *)
Fixpoint mkdir (fuel : nat) (d : string) : M (option errno) :=
  match fuel with
  | O => fun w => (Pending, w)
  | S fuel' =>
      fun w =>
        match Fs.access (files w) d with
        | None => ret None w
        | Some _ =>
            let curDir := Path.join d "../" in
            if String.eqb curDir "/" then ret None w
            else
              (err <~ mkdir fuel' curDir ;;
               match err with
               | Some e => ret (Some e)
               | None => mkdirThenDone d
               end) w
        end
  end.

End MkdirHelper.

(* ===================================================================== *)
(** ** Notions used to state the properties of [read] *)
(* ===================================================================== *)

(** The entries the second pass lets through. *)
Definition secondPassKeeps (ignoreReg : option Matcher) (s : Entry) : bool :=
  match ignoreReg with
  | Some reg => negb (test reg (path s))
  | None => true
  end.

(** [outFiles] as it stands when the listing is requested. *)
Definition parentEntries (fs : gmap string fsobj) (opts : Options)
    (this_path : string) : Promise (list Entry) :=
  if addParent opts
  then e <- SuperFSDir.create fs this_path ;; Resolved [e]
  else Resolved [].

(** What one iteration of the loop of [read] pushes when it starts from
    the empty list. *)
Definition pushedBy (callerDir : string) (fuel : nat)
    (fs : gmap string fsobj) (opts : Options) (this_path file : string)
    (pushed : list Entry) : Prop :=
  SuperFSDir.readEntry callerDir (SuperFSDir.read callerDir fuel fs) fs opts
    (filter opts) (ignore opts) this_path file [] = Resolved pushed.

(** The paths, and the relative paths, of the entries a read resolves
    with. *)
Definition read_paths (r : Promise (list Entry)) : option (list string) :=
  match r with
  | Resolved out => Some (map path out)
  | _ => None
  end.

Definition read_relatives (r : Promise (list Entry))
  : option (list (option string)) :=
  match r with
  | Resolved out => Some (map relative out)
  | _ => None
  end.

(* ===================================================================== *)
(** ** Sample file systems *)
(* ===================================================================== *)

(** [/root] holds [a.txt] and [sub]; [sub] holds [b.txt] and the empty
    directory [deep]. *)
Definition sampleFiles : gmap string fsobj :=
  list_to_map
    [("/", Dir ["root"] 493%Z);
     ("/root", Dir ["a.txt"; "sub"] 493%Z);
     ("/root/a.txt", File "A" 420%Z);
     ("/root/sub", Dir ["b.txt"; "deep"] 493%Z);
     ("/root/sub/b.txt", File "B" 420%Z);
     ("/root/sub/deep", Dir [] 493%Z)].

Definition sampleWorld : World := mkWorld sampleFiles [].

(** [/root] lists [gone], which no longer exists when it would be
    examined. *)
Definition staleFiles : gmap string fsobj :=
  list_to_map
    [("/", Dir ["root"] 493%Z);
     ("/root", Dir ["a.txt"; "gone"; "sub"] 493%Z);
     ("/root/a.txt", File "A" 420%Z);
     ("/root/sub", Dir [] 493%Z)].

Definition isExactly (s : string) : Matcher := fun x => String.eqb x s.

Definition isNot (s : string) : Matcher := fun x => negb (String.eqb x s).

Definition withIgnore (reg : Matcher) : Options :=
  mkOptions "utf8" false "" false false false None (Some reg).

Definition recursiveWithIgnore (reg : Matcher) : Options :=
  mkOptions "utf8" true "" false false false None (Some reg).

Definition withFilter (reg : Matcher) : Options :=
  mkOptions "utf8" false "" false false false (Some reg) None.

Definition withSkipDirs : Options :=
  mkOptions "utf8" false "" false true false None None.

Definition acceptsAll : Matcher := fun _ => true.

Definition withSkipDirsAndFilter (reg : Matcher) : Options :=
  mkOptions "utf8" false "" false true false (Some reg) None.

(* ===================================================================== *)
(** ** Notions used to state the properties of the changing operations *)
(* ===================================================================== *)

(** The events logged on the way from [w] to [w']. *)
Definition eventsSince (w w' : World) : list Event :=
  drop (length (events w)) (events w').

(** The paths a listener was attached to. *)
Definition watchedPaths (evs : list Event) : list string :=
  omap (fun e => match e with EvWatch p => Some p | _ => None end) evs.

(** The test [watch] applies before attaching a listener. *)
Definition watchSkips (opts_ignore : option Matcher) (fl : Entry) : bool :=
  match opts_ignore with
  | Some reg => test reg (path fl)
  | None => false
  end.

(** [w'] is reached from [w] without touching what was there: events are
    only added, every object of [w] is still there, every file of [w]
    has kept its content and mode, and each file written on the way was
    written at a path that named nothing in [w] and names an object in
    [w']. *)
Definition extends (w w' : World) : Prop :=
  exists new,
    events w' = events w ++ new /\
    (forall k, is_Some (files w !! k) -> is_Some (files w' !! k)) /\
    (forall k data m,
        files w !! k = Some (File data m) -> files w' !! k = Some (File data m)) /\
    (forall p data m,
        In (EvWriteFile p data m) new ->
        files w !! Path.resolve p = None /\
        is_Some (files w' !! Path.resolve p)).

(** A computation all of whose runs extend the world they start from. *)
Definition extending {A} (c : M A) : Prop := forall w, extends w (snd (c w)).

(* ===================================================================== *)
(** ** The engine's [Array.prototype.sort] *)
(* ===================================================================== *)

(** The comparator of [delete] answers from its first argument alone, so
    it is not a consistent comparison and ECMAScript leaves the resulting
    order to the engine.  What [delete] needs from the engine is that it
    takes the comparator's answers at face value: whenever no answer
    contradicts a ranking of the elements (negative only if the first
    ranks no higher, positive only if it ranks no lower, zero only for
    equal ranks), the result is a rearrangement of the input in
    non-decreasing rank. *)
Definition respectsRanking
    (sort : (Entry -> Entry -> Z) -> list Entry -> list Entry) : Prop :=
  forall (cmp : Entry -> Entry -> Z) (rank : Entry -> Z) (l : list Entry),
    (forall a b, (cmp a b < 0)%Z -> (rank a <= rank b)%Z) ->
    (forall a b, (0 < cmp a b)%Z -> (rank b <= rank a)%Z) ->
    (forall a b, cmp a b = 0%Z -> rank a = rank b) ->
    Permutation (sort cmp l) l /\
    StronglySorted (fun a b => (rank a <= rank b)%Z) (sort cmp l).

(** The insertion sort V8 used for short arrays: each element moves left
    past every [tmp] with [comparefn(tmp, element) > 0] and stops at the
    first other one.  [sortedRev] is the part already sorted, last
    element first. *)
Fixpoint insertLeft {A} (comparefn : A -> A -> Z) (element : A)
    (sortedRev : list A) : list A :=
  match sortedRev with
  | [] => [element]
  | tmp :: rest =>
      if (0 <? comparefn tmp element)%Z
      then tmp :: insertLeft comparefn element rest
      else element :: tmp :: rest
  end.

Definition insertionSort {A} (comparefn : A -> A -> Z) (a : list A) : list A :=
  rev (fold_left (fun sortedRev element => insertLeft comparefn element sortedRev)
                 a []).

(** The sort of current V8 (TimSort) on an array of fewer than 64
    elements, which is a single run: [CountAndMakeRun] finds the run the
    array starts with, comparing each element with the one before it, and
    reverses it when it descends; [BinaryInsertionSort] then places every
    further element at the position a binary search of the sorted part
    finds for it.  Longer arrays are cut into several runs that are then
    merged, which is not modelled. *)
Fixpoint extendRun {A} (comparefn : A -> A -> Z) (isDescending : bool)
    (previousElement : A) (l : list A) : list A * list A :=
  match l with
  | [] => ([], [])
  | currentElement :: l' =>
      let order := comparefn currentElement previousElement in
      if (if isDescending then (0 <=? order)%Z else (order <? 0)%Z)
      then ([], l)
      else
        let (run, rest) :=
          extendRun comparefn isDescending currentElement l' in
        (currentElement :: run, rest)
  end.

(** The run at the start of [workArray], in ascending order, and the
    elements after it. *)
Definition countAndMakeRun {A} (comparefn : A -> A -> Z) (workArray : list A)
  : list A * list A :=
  match workArray with
  | elementHigh :: elementLow :: l =>
      let isDescending := (comparefn elementLow elementHigh <? 0)%Z in
      let (run, rest) := extendRun comparefn isDescending elementLow l in
      let whole := elementHigh :: elementLow :: run in
      (if isDescending then rev whole else whole, rest)
  | _ => (workArray, [])
  end.

(** [while (left < right)]: halve the interval on the answer of
    [comparefn(pivot, sorted[mid])].  The interval shrinks on each turn,
    so a [fuel] of [right - left] turns is never used up. *)
Fixpoint searchLeft {A} (comparefn : A -> A -> Z) (pivot : A)
    (sorted : list A) (fuel left right : nat) : nat :=
  match fuel with
  | 0 => left
  | S fuel' =>
      if left <? right
      then
        let mid := left + Nat.div2 (right - left) in
        match sorted !! mid with
        | Some element =>
            if (comparefn pivot element <? 0)%Z
            then searchLeft comparefn pivot sorted fuel' left mid
            else searchLeft comparefn pivot sorted fuel' (mid + 1) right
        | None => left
        end
      else left
  end.

Definition insertPivot {A} (comparefn : A -> A -> Z) (sorted : list A)
    (pivot : A) : list A :=
  let left :=
    searchLeft comparefn pivot sorted (length sorted) 0 (length sorted) in
  take left sorted ++ pivot :: drop left sorted.

Definition timSort {A} (comparefn : A -> A -> Z) (a : list A) : list A :=
  let (run, rest) := countAndMakeRun comparefn a in
  fold_left (insertPivot comparefn) rest run.

(** The rank the comparator of [delete] sorts by. *)
Definition dirRank (e : Entry) : Z := if isDir e then 1%Z else 0%Z.

(** The event a successful removal of [fl] by [delete] logs. *)
Definition removal (fl : Entry) : Event :=
  if isDir fl then EvRmdir (path fl) else EvUnlink (path fl).

(* ===================================================================== *)
(** ** Directory trees *)
(* ===================================================================== *)

#[local] Set Warnings "-register-all".

(** A directory tree as a value: a file with its content, or a directory
    with its named children in listing order. *)
Inductive tree : Type :=
  | TFile (data : string) (mode : Z)
  | TDir (mode : Z) (children : list (string * tree)).

#[local] Set Warnings "register-all".

Definition isTDir (t : tree) : bool :=
  match t with
  | TDir _ _ => true
  | TFile _ _ => false
  end.

(** The number of directory levels: 0 for a file, 1 for a directory
    without sub-directories. *)
Fixpoint depth (t : tree) : nat :=
  match t with
  | TFile _ _ => 0
  | TDir _ children =>
      S (fold_right (fun nc acc => Nat.max (depth (snd nc)) acc) 0 children)
  end.

(** Every file and directory below the root of [t], parents before
    their contents and siblings in listing order, each with the names on
    the way to it from the root and whether it is a directory. *)
Fixpoint descendants (prefix : list string) (t : tree)
  : list (list string * bool) :=
  match t with
  | TFile _ _ => []
  | TDir _ children =>
      flat_map (fun nc =>
                  (prefix ++ [fst nc], isTDir (snd nc))
                    :: descendants (prefix ++ [fst nc]) (snd nc))
               children
  end.

(** A name as [readdir] reports one: not empty, not ["."] or [".."],
    and without a separator. *)
Definition plainName (n : string) : bool :=
  negb (String.eqb n "") && negb (String.eqb n ".")
  && negb (String.eqb n "..")
  && forallb (fun c => negb (Path.is_sep c)) (Path.chars n).

(** The names in every directory of [t] are plain and distinct. *)
Fixpoint wellFormed (t : tree) : Prop :=
  match t with
  | TFile _ _ => True
  | TDir _ children =>
      NoDup (map fst children) /\
      fold_right (fun nc acc =>
                    plainName (fst nc) = true /\ wellFormed (snd nc) /\ acc)
                 True children
  end.

(** The file system [fs] holds the tree [t] at the path [p]. *)
Fixpoint holds (fs : gmap string fsobj) (p : string) (t : tree) : Prop :=
  match t with
  | TFile data m => Fs.lookup fs p = Some (File data m)
  | TDir m children =>
      Fs.lookup fs p = Some (Dir (map fst children) m) /\
      fold_right (fun nc acc => holds fs (Path.join p (fst nc)) (snd nc) /\ acc)
                 True children
  end.

(** An absolute path in normal form: ["/"] followed by plain names
    joined by ["/"]. *)
Definition cleanAbsolute (p : string) : Prop :=
  exists segs,
    Forall (fun n => plainName n = true) segs /\
    p = "/" +:+ String.concat "/" segs.

(** The options of a recursive read without filter or ignore pattern
    that stamps [rel] as the relative-path prefix. *)
Definition readUnder (skipF addP : bool) (rel : string) : Options :=
  mkOptions "utf8" true rel skipF false addP None None.

(** The descendants such a read reports: all of them, or the directories
    alone when files are skipped. *)
Definition reported (skipF : bool) (d : list string * bool) : bool :=
  snd d || negb skipF.

(** The tree of the sample file system below [/root]. *)
Definition sampleTree : tree :=
  TDir 493%Z
    [("a.txt", TFile "A" 420%Z);
     ("sub", TDir 493%Z [("b.txt", TFile "B" 420%Z); ("deep", TDir 493%Z [])])].

(** The entry [e] is the one [read] on [root] should return for the
    descendant [d]: its relative path is the names on the way joined by
    ["/"], its path is the root path with those names joined on, its name
    is the last of them, and its kind is that of the descendant. *)
Definition describes (root : string) (e : Entry) (d : list string * bool)
  : Prop :=
  relative e = Some (String.concat "/" (fst d)) /\
  path e = fold_left Path.join (fst d) root /\
  name e = List.last (fst d) "" /\
  isDir e = snd d /\
  isFile e = negb (snd d).

(** The file system that holds the tree [t] at [p] and nothing else. *)
Fixpoint mount (p : string) (t : tree) : gmap string fsobj :=
  match t with
  | TFile data m => {[ p := File data m ]}
  | TDir m children =>
      <[ p := Dir (map fst children) m ]>
        (fold_right (fun nc acc => mount (Path.join p (fst nc)) (snd nc) ∪ acc)
                    ∅ children)
  end.

(* ===================================================================== *)
(** ** Notions used to state further properties of the engine *)
(* ===================================================================== *)

(** [Object.assign({}, opts, { addParent: b })] *)
Definition withAddParent (b : bool) (opts : Options) : Options :=
  mkOptions (encoding opts) (recursive opts) (relativePath opts)
            (skipFiles opts) (skipDirs opts) b (filter opts) (ignore opts).

(** The metadata of [e] is what a stat of its own path reports now. *)
Definition statConsistent (fs : gmap string fsobj) (e : Entry) : Prop :=
  exists st,
    Fs.lstat fs (path e) = Resolved st /\
    name e = Path.basename (path e) /\
    dir e = Path.dirname (path e) /\
    isFile e = Fs.st_isFile st /\
    isDir e = Fs.st_isDirectory st /\
    mode e = Fs.st_mode st.

(** Two objects of the same kind and mode. *)
Definition sameKindAndMode (o o' : fsobj) : Prop :=
  match o, o' with
  | File _ m, File _ m' => m = m'
  | Dir _ m, Dir _ m' => m = m'
  | _, _ => False
  end.

Definition isMkdirEvent (e : Event) : bool :=
  match e with
  | EvMkdir _ _ => true
  | _ => false
  end.

Definition isCreationEvent (e : Event) : bool :=
  match e with
  | EvMkdir _ _ | EvWriteFile _ _ _ => true
  | _ => false
  end.


(** On the way from [w] to [w'] only events that [allowed] admits were
    logged, and every object of [w] is still there in [w'], with its kind
    and mode. *)
Definition keeps (allowed : Event -> bool) (w w' : World) : Prop :=
  (exists new,
      events w' = events w ++ new /\
      Forall (fun e => allowed e = true) new) /\
  (forall k o,
      files w !! k = Some o ->
      exists o', files w' !! k = Some o' /\ sameKindAndMode o o').

Definition keeping (allowed : Event -> bool) {A} (c : M A) : Prop :=
  forall w, keeps allowed w (snd (c w)).


(** How [copy] leaves an entry of its read: a directory entry as it was,
    a file entry with the two fields of the copy outcome stamped. *)
Definition copiedAs (opts : CopyOptions) (fl o : Entry) : Prop :=
  if isDir fl then o = fl
  else exists targetExists, o = setCopyOutcome fl targetExists (overwrite opts).

(** A sort that returns a rearrangement of its input, whatever the
    comparator. *)
Definition permutes
    (sort : (Entry -> Entry -> Z) -> list Entry -> list Entry) : Prop :=
  forall cmp l, Permutation (sort cmp l) l.

(* ===================================================================== *)
(** * Properties *)
(* ===================================================================== *)

(** ** Promises and loops *)

Lemma bindP_Resolved_inv {A B} (m : Promise A) (k : A -> Promise B) b :
  bindP m k = Resolved b -> exists a, m = Resolved a /\ k a = Resolved b.
Proof. destruct m; simpl; intros H; try discriminate. eauto. Qed.

Lemma bindP_assoc {A B C} (m : Promise A) (k : A -> Promise B)
    (h : B -> Promise C) :
  bindP (bindP m k) h = bindP m (fun a => bindP (k a) h).
Proof. destruct m; reflexivity. Qed.

Lemma bindP_ret {A} (m : Promise A) : bindP m Resolved = m.
Proof. destruct m; reflexivity. Qed.

Lemma forOf_app {A S} (l1 l2 : list A) (s : S) body :
  forOf (l1 ++ l2) s body = (s' <- forOf l1 s body ;; forOf l2 s' body).
Proof.
  revert s. induction l1 as [|x l1 IH]; intros s; simpl; [reflexivity|].
  destruct (body x s); simpl; auto.
Qed.

(** A loop whose body only appends can be run from the empty list. *)
Lemma forOf_pushes {A B} (body : A -> list B -> Promise (list B)) :
  (forall x out, body x out = (pushed <- body x [] ;; Resolved (out ++ pushed))) ->
  forall l out,
    forOf l out body = (pushed <- forOf l [] body ;; Resolved (out ++ pushed)).
Proof.
  intros Hbody l. induction l as [|x l IH]; intros out; simpl.
  - by rewrite app_nil_r.
  - rewrite (Hbody x out). destruct (body x []) as [px| |]; simpl; auto.
    rewrite (IH (out ++ px)), (IH px).
    destruct (forOf l [] body); simpl; auto.
    by rewrite app_assoc.
Qed.

(** The output of such a loop is the concatenation of what each
    iteration pushes. *)
Lemma forOf_pushes_concat {A B} (body : A -> list B -> Promise (list B)) :
  (forall x out, body x out = (pushed <- body x [] ;; Resolved (out ++ pushed))) ->
  forall l out,
    forOf l [] body = Resolved out ->
    exists pushes,
      out = concat pushes /\
      Forall2 (fun x pushed => body x [] = Resolved pushed) l pushes.
Proof.
  intros Hbody l. induction l as [|x l IH]; intros out; simpl.
  - intros [= <-]. exists []. split; [reflexivity|constructor].
  - intros H. apply bindP_Resolved_inv in H as (px & Hx & H).
    rewrite (forOf_pushes body Hbody) in H.
    apply bindP_Resolved_inv in H as (rest & Hrest & [= <-]).
    destruct (IH _ Hrest) as (pushes & -> & HF).
    exists (px :: pushes). split; [reflexivity|]. by constructor.
Qed.

Lemma forOf_of_pushes {A B} (body : A -> list B -> Promise (list B)) :
  (forall x out, body x out = (pushed <- body x [] ;; Resolved (out ++ pushed))) ->
  forall l pushes out,
    Forall2 (fun x pushed => body x [] = Resolved pushed) l pushes ->
    forOf l out body = Resolved (out ++ concat pushes).
Proof.
  intros Hbody l pushes out HF. revert out.
  induction HF as [|x px l pushes Hx HF IH]; intros out; simpl.
  - by rewrite app_nil_r.
  - rewrite (Hbody x out), Hx. simpl. rewrite IH. by rewrite app_assoc.
Qed.

(** ** The loop body of [read] *)

Section ReadFacts.

Variable callerDir : string.

Local Abbreviation read := (SuperFSDir.read callerDir).
Local Abbreviation readEntry := (SuperFSDir.readEntry callerDir).
Local Abbreviation new := (SuperFSDir.new callerDir).

Lemma pushSubFiles_filter ignoreReg subFiles outFiles :
  SuperFSDir.pushSubFiles ignoreReg subFiles outFiles
  = outFiles ++ List.filter (secondPassKeeps ignoreReg) subFiles.
Proof.
  unfold SuperFSDir.pushSubFiles. revert outFiles.
  induction subFiles as [|s l IH]; intros out; simpl.
  - by rewrite app_nil_r.
  - rewrite IH. unfold secondPassKeeps.
    destruct ignoreReg as [reg|]; [destruct (test reg (path s))|]; simpl;
      by rewrite <- ?app_assoc.
Qed.

Lemma readEntry_pushes subRead fs opts ff ir this_path file out :
  readEntry subRead fs opts ff ir this_path file out
  = (pushed <- readEntry subRead fs opts ff ir this_path file [] ;;
     Resolved (out ++ pushed)).
Proof.
  unfold SuperFSDir.readEntry.
  destruct (FSTools.stat fs (Path.join this_path file)) as [st| |]; simpl; auto.
  destruct (Fs.st_isDirectory st).
  - destruct (SuperFSDir.create fs _) as [d| |]; simpl; auto.
    destruct (recursive opts).
    + destruct (subRead _ _) as [subs| |]; simpl; auto.
      rewrite !pushSubFiles_filter.
      destruct (negb (skipDirs opts) && _); simpl; by rewrite <- ?app_assoc.
    + destruct (negb (skipDirs opts) && _); simpl; by rewrite ?app_nil_r.
  - destruct (skipFiles opts); simpl; [by rewrite app_nil_r|].
    destruct (match ff with Some _ => _ | None => _ end); simpl;
      [by rewrite app_nil_r|].
    destruct (SuperFSDir.createFile fs _ _); simpl; auto.
Qed.

Lemma ignoreReg_eq (opts : Options) :
  match ignore opts with
  | Some pattern => FSTools.createFileMatch (Some pattern)
  | None => None
  end = ignore opts.
Proof. by destruct (ignore opts). Qed.

Lemma read_S fuel fs opts this_path :
  read (S fuel) fs opts this_path
  = (outFiles <- parentEntries fs opts this_path ;;
     rawFiles <- FSTools.readDir fs this_path ;;
     forOf (SuperFSDir.firstPass (ignore opts) rawFiles) outFiles
           (readEntry (read fuel fs) fs opts (filter opts) (ignore opts)
                      this_path)).
Proof. simpl. by rewrite ignoreReg_eq. Qed.

(** A resolved [read] is the parent entry, if asked for, followed by what
    the iterations over the first-pass survivors push, in order. *)
Lemma read_resolved_iff fuel fs opts this_path out :
  read (S fuel) fs opts this_path = Resolved out <->
  exists parent rawFiles pushes,
    parentEntries fs opts this_path = Resolved parent /\
    FSTools.readDir fs this_path = Resolved rawFiles /\
    Forall2 (pushedBy callerDir fuel fs opts this_path)
            (SuperFSDir.firstPass (ignore opts) rawFiles) pushes /\
    out = parent ++ concat pushes.
Proof.
  rewrite read_S. split.
  - intros H.
    apply bindP_Resolved_inv in H as (parent & Hp & H).
    apply bindP_Resolved_inv in H as (rawFiles & Hr & H).
    rewrite (forOf_pushes _ (readEntry_pushes _ _ _ _ _ _)) in H.
    apply bindP_Resolved_inv in H as (rest & Hrest & [= <-]).
    apply (forOf_pushes_concat _ (readEntry_pushes _ _ _ _ _ _)) in Hrest
      as (pushes & -> & HF).
    by exists parent, rawFiles, pushes.
  - intros (parent & rawFiles & pushes & -> & -> & HF & ->). simpl.
    by apply (forOf_of_pushes _ (readEntry_pushes _ _ _ _ _ _)).
Qed.

Lemma firstPass_filter reg rawFiles :
  SuperFSDir.firstPass (Some reg) rawFiles = List.filter (test reg) rawFiles.
Proof.
  unfold SuperFSDir.firstPass. apply List.filter_ext.
  intros file. by destruct (test reg file).
Qed.

(** The iteration for a name that is a directory. *)
Lemma readEntry_directory subRead fs opts ff ir this_path file st pushed :
  FSTools.stat fs (Path.join this_path file) = Resolved st ->
  Fs.st_isDirectory st = true ->
  readEntry subRead fs opts ff ir this_path file [] = Resolved pushed ->
  exists d subFiles,
    SuperFSDir.create fs (new (Path.join this_path file)) = Resolved d /\
    (if recursive opts
     then subRead (SuperFSDir.subOptions opts file) (path d) = Resolved subFiles
     else subFiles = []) /\
    pushed =
      (if negb (skipDirs opts)
          && match ff with
             | None => true
             | Some reg => test reg (SuperFSDir.relativeOf opts (name d))
             end
       then [setRelative d (SuperFSDir.relativeOf opts (name d))]
       else [])
      ++ List.filter (secondPassKeeps ir) subFiles.
Proof.
  intros Hst Hdir. unfold SuperFSDir.readEntry. rewrite Hst. simpl.
  rewrite Hdir.
  destruct (SuperFSDir.create fs _) as [d| |]; simpl; try discriminate.
  destruct (recursive opts).
  - destruct (subRead _ _) as [subs| |] eqn:Hsub; simpl; try discriminate.
    rewrite pushSubFiles_filter. intros [= <-]. by exists d, subs.
  - intros [= <-]. exists d, []. by rewrite app_nil_r.
Qed.

(** The iteration for a name that is not a directory. *)
Lemma readEntry_file subRead fs opts ff ir this_path file st pushed :
  FSTools.stat fs (Path.join this_path file) = Resolved st ->
  Fs.st_isDirectory st = false ->
  readEntry subRead fs opts ff ir this_path file [] = Resolved pushed ->
  if skipFiles opts then pushed = []
  else if match ff with
          | Some reg => negb (test reg (Path.join this_path file))
          | None => false
          end
       then pushed = []
       else exists fl,
           SuperFSDir.createFile fs (Path.join this_path file) (encoding opts)
             = Resolved fl /\
           pushed = [setRelative fl (SuperFSDir.relativeOf opts (name fl))].
Proof.
  intros Hst Hdir. unfold SuperFSDir.readEntry. rewrite Hst. simpl.
  rewrite Hdir.
  destruct (skipFiles opts); [by intros [= <-]|].
  destruct (match ff with Some _ => _ | None => _ end); [by intros [= <-]|].
  destruct (SuperFSDir.createFile fs _ _) as [fl| |]; simpl; try discriminate.
  intros [= <-]. by exists fl.
Qed.

End ReadFacts.

(** ** The two passes of the ignore matcher, and the filter *)

Section ReadClaims.

Variable callerDir : string.

Local Abbreviation read := (SuperFSDir.read callerDir).
Local Abbreviation new := (SuperFSDir.new callerDir).

Lemma Forall2_In_l {A B} (P : A -> B -> Prop) (l : list A) (k : list B) :
  Forall2 P l k -> Forall2 (fun x y => In x l /\ P x y) l k.
Proof.
  induction 1 as [|x y l k Hxy HF IH]; constructor.
  - split; [by left|done].
  - eapply Forall2_impl; [exact IH|]. intros a b [Ha Hab]. split; [by right|done].
Qed.

(** C1: with an ignore pattern set, the first pass over the raw listing
    keeps exactly the names the matcher matches, and only those names
    reach the loop that stats them: [read] resolves exactly when the
    parent entry (if asked for) and the iterations over the matching
    names resolve, whatever the dropped names are, and its output is what
    those iterations push, in listing order. *)
Theorem C1_first_pass_keeps_matching_names
    fuel fs opts this_path reg rawFiles :
  ignore opts = Some reg ->
  FSTools.readDir fs this_path = Resolved rawFiles ->
  (forall file,
      In file (SuperFSDir.firstPass (Some reg) rawFiles)
      <-> In file rawFiles /\ test reg file = true)
  /\ (forall out,
        read (S fuel) fs opts this_path = Resolved out <->
        exists parent pushes,
          parentEntries fs opts this_path = Resolved parent /\
          Forall2 (pushedBy callerDir fuel fs opts this_path)
                  (List.filter (test reg) rawFiles) pushes /\
          out = parent ++ concat pushes).
Proof.
  intros Hig Hraw. split.
  - intros file. rewrite firstPass_filter. apply List.filter_In.
  - intros out. rewrite read_resolved_iff. split.
    + intros (parent & raw' & pushes & Hp & Hr & HF & ->).
      rewrite Hraw in Hr. injection Hr as <-.
      rewrite Hig, firstPass_filter in HF. by exists parent, pushes.
    + intros (parent & pushes & Hp & HF & ->).
      exists parent, rawFiles, pushes. by rewrite Hig, firstPass_filter.
Qed.

(** C3, as amended: a listed sub-directory that survives the first
    ignore pass is put in the output exactly when [skipDirs] is not set
    and the filter, if there is one, accepts its relative path; and when
    [recursive] is set it is read whatever [skipDirs] and the filter say,
    the entries of that read which pass the second ignore test following
    in the output.  The names the first ignore pass drops take no part:
    [read] resolves with [out] exactly when [out] is made up in this way
    from the survivors, in listing order. *)
Theorem C3_directory_entry_and_traversal fuel fs opts this_path out :
  read (S fuel) fs opts this_path = Resolved out <->
  exists parent rawFiles pushes,
    parentEntries fs opts this_path = Resolved parent /\
    FSTools.readDir fs this_path = Resolved rawFiles /\
    out = parent ++ concat pushes /\
    Forall2
      (fun file pushed =>
         pushedBy callerDir fuel fs opts this_path file pushed /\
         forall st,
           FSTools.stat fs (Path.join this_path file) = Resolved st ->
           Fs.st_isDirectory st = true ->
           exists d subFiles,
             SuperFSDir.create fs (new (Path.join this_path file)) = Resolved d /\
             (if recursive opts
              then read fuel fs (SuperFSDir.subOptions opts file) (path d)
                   = Resolved subFiles
              else subFiles = []) /\
             pushed =
               (if negb (skipDirs opts)
                   && match filter opts with
                      | None => true
                      | Some reg =>
                          test reg (SuperFSDir.relativeOf opts (name d))
                      end
                then [setRelative d (SuperFSDir.relativeOf opts (name d))]
                else [])
               ++ List.filter (secondPassKeeps (ignore opts)) subFiles)
      (SuperFSDir.firstPass (ignore opts) rawFiles) pushes.
Proof.
  rewrite read_resolved_iff. split.
  - intros (parent & rawFiles & pushes & Hp & Hr & HF & ->).
    exists parent, rawFiles, pushes. repeat (split; [done|]).
    eapply Forall2_impl; [exact HF|].
    intros file pushed Hpushed. split; [exact Hpushed|]. intros st Hst Hdir.
    exact (readEntry_directory callerDir _ _ _ _ _ _ _ _ _ Hst Hdir Hpushed).
  - intros (parent & rawFiles & pushes & Hp & Hr & -> & HF).
    exists parent, rawFiles, pushes. repeat (split; [done|]).
    split; [|done]. eapply Forall2_impl; [exact HF|]. by intros ? ? [? _].
Qed.

(** C9: in a recursive read with an ignore pattern, an entry returned by
    the read of a sub-directory reaches the output exactly when the
    matcher does not match its full path, whereas the names that reach
    the loop at all are those the matcher does match.  [read] resolves
    with [out] exactly when [out] is made up in this way. *)
Theorem C9_second_pass_drops_matching_paths
    fuel fs opts this_path reg out :
  ignore opts = Some reg ->
  recursive opts = true ->
  read (S fuel) fs opts this_path = Resolved out <->
  exists parent rawFiles pushes,
    parentEntries fs opts this_path = Resolved parent /\
    FSTools.readDir fs this_path = Resolved rawFiles /\
    out = parent ++ concat pushes /\
    Forall2
      (fun file pushed =>
         pushedBy callerDir fuel fs opts this_path file pushed /\
         (In file rawFiles /\ test reg file = true) /\
         forall st,
           FSTools.stat fs (Path.join this_path file) = Resolved st ->
           Fs.st_isDirectory st = true ->
           exists own subFiles,
             read fuel fs (SuperFSDir.subOptions opts file)
                  (new (Path.join this_path file)) = Resolved subFiles /\
             pushed = own ++ List.filter (fun s => negb (test reg (path s))) subFiles /\
             (forall e, In e own -> path e = new (Path.join this_path file)) /\
             (forall s,
                 In s (List.filter (fun s => negb (test reg (path s))) subFiles)
                 <-> In s subFiles /\ test reg (path s) = false))
      (SuperFSDir.firstPass (ignore opts) rawFiles) pushes.
Proof.
  intros Hig Hrec. rewrite read_resolved_iff. split.
  - intros (parent & rawFiles & pushes & Hp & Hr & HF & ->).
    exists parent, rawFiles, pushes. repeat (split; [done|]).
    apply Forall2_In_l in HF. eapply Forall2_impl; [exact HF|].
    intros file pushed [Hin Hpushed]. split; [exact Hpushed|]. split.
    { rewrite Hig, firstPass_filter in Hin. by apply List.filter_In in Hin. }
    intros st Hst Hdir.
    destruct (readEntry_directory callerDir _ _ _ _ _ _ _ _ _ Hst Hdir Hpushed)
      as (d & subFiles & Hd & Hsub & ->).
    rewrite Hrec in Hsub.
    assert (Hpath : path d = new (Path.join this_path file)).
    { unfold SuperFSDir.create in Hd.
      destruct (Fs.lstat fs _); try discriminate. by injection Hd as <-. }
    rewrite Hpath in Hsub. rewrite Hig. simpl.
    eexists _, subFiles. split; [done|]. split; [done|]. split.
    + intros e He. destruct (negb (skipDirs opts) && _); simpl in He; [|done].
      destruct He as [<-|[]]. simpl. exact Hpath.
    + intros s. rewrite List.filter_In, negb_true_iff. tauto.
  - intros (parent & rawFiles & pushes & Hp & Hr & -> & HF).
    exists parent, rawFiles, pushes. repeat (split; [done|]).
    split; [|done]. eapply Forall2_impl; [exact HF|]. by intros ? ? [? _].
Qed.

End ReadClaims.

(** The names dropped by the first pass are never examined: [gone] is
    listed but does not exist, and the read resolves all the same. *)
Example read_ignores_dropped_names :
  Fs.stat staleFiles "/root/gone" = Rejected ENOENT /\
  read_paths (SuperFSDir.read "/lib" 1 staleFiles (withIgnore (isNot "gone")) "/root")
  = Some ["/root/a.txt"; "/root/sub"] /\
  SuperFSDir.read "/lib" 1 staleFiles defaults "/root" = Rejected ENOENT.
Proof. vm_compute. auto. Qed.

Lemma C1_witness :
  In "sub" (SuperFSDir.firstPass (Some (isNot "gone")) ["a.txt"; "gone"; "sub"])
  /\ ~ In "gone" (SuperFSDir.firstPass (Some (isNot "gone")) ["a.txt"; "gone"; "sub"]).
Proof.
  destruct (C1_first_pass_keeps_matching_names "/lib" 0 staleFiles
              (withIgnore (isNot "gone")) "/root" (isNot "gone")
              ["a.txt"; "gone"; "sub"] eq_refl eq_refl) as [Hmem _].
  split.
  - apply Hmem. split; [simpl; tauto | reflexivity].
  - intros H. apply Hmem in H as [_ H]. discriminate H.
Defined.

(** C3, as the claim words it, fails, also for the listed directories
    that survive the first ignore pass: with [skipDirs] set and a filter
    that accepts every path, the listed directory [sub] does not fail
    the filter test, and it is not in the output. *)
Lemma C3_counterexample :
  ~ (forall callerDir fuel fs opts this_path rawFiles file st out,
        FSTools.readDir fs this_path = Resolved rawFiles ->
        In file (SuperFSDir.firstPass (ignore opts) rawFiles) ->
        FSTools.stat fs (Path.join this_path file) = Resolved st ->
        Fs.st_isDirectory st = true ->
        SuperFSDir.read callerDir (S fuel) fs opts this_path = Resolved out ->
        ~ (skipDirs opts = true /\
           exists reg, filter opts = Some reg /\
                       test reg (SuperFSDir.relativeOf opts file) = false) ->
        exists e, In e out /\ isDir e = true /\
                  path e = SuperFSDir.new callerDir (Path.join this_path file)).
Proof.
  intros H.
  destruct (H "/lib" 0 sampleFiles (withSkipDirsAndFilter acceptsAll) "/root"
              ["a.txt"; "sub"] "sub" (Fs.mkStats false true 493%Z)
              [mkEntry "/root/a.txt" "a.txt" "/root" true false 420%Z
                       (Some "a.txt") None None])
    as (e & He & Hd & _).
  - reflexivity.
  - simpl; tauto.
  - reflexivity.
  - reflexivity.
  - reflexivity.
  - intros [_ (reg & Hreg & Hfails)]. injection Hreg as <-. discriminate Hfails.
  - destruct He as [<-|[]]. discriminate Hd.
Qed.

Lemma C3_witness :
  exists parent rawFiles pushes,
    FSTools.readDir sampleFiles "/root" = Resolved rawFiles /\
    parentEntries sampleFiles withSkipDirs "/root" = Resolved parent /\
    [mkEntry "/root/a.txt" "a.txt" "/root" true false 420%Z
             (Some "a.txt") None None] = parent ++ concat pushes.
Proof.
  destruct (proj1 (C3_directory_entry_and_traversal "/lib" 0 sampleFiles
                     withSkipDirs "/root" _) eq_refl)
    as (parent & rawFiles & pushes & Hp & Hr & Hout & _).
  exists parent, rawFiles, pushes. auto.
Defined.

Lemma C9_witness :
  exists parent rawFiles pushes,
    FSTools.readDir sampleFiles "/root" = Resolved rawFiles /\
    [mkEntry "/root/sub" "sub" "/root" false true 493%Z (Some "sub") None None]
    = parent ++ concat pushes.
Proof.
  destruct (proj1 (C9_second_pass_drops_matching_paths "/lib" 2 sampleFiles
                     (recursiveWithIgnore (isNot "a.txt")) "/root"
                     (isNot "a.txt")
                     [mkEntry "/root/sub" "sub" "/root" false true 493%Z
                              (Some "sub") None None]
                     eq_refl eq_refl) eq_refl)
    as (parent & rawFiles & pushes & _ & Hr & Hout & _).
  exists parent, rawFiles, pushes. auto.
Defined.

(** C6 at a file candidate: a filter that accepts exactly the relative
    path [a.txt] drops the file, because it is shown the joined path
    [/root/a.txt]; a filter that accepts exactly that joined path keeps
    it.  For the directory [sub] the filter is shown the relative path. *)
Theorem C6_file_filter_sees_joined_path :
  SuperFSDir.read "/lib" 1 sampleFiles (withFilter (isExactly "a.txt")) "/root"
  = Resolved []
  /\ read_relatives
       (SuperFSDir.read "/lib" 1 sampleFiles
          (withFilter (isExactly "/root/a.txt")) "/root")
     = Some [Some "a.txt"]
  /\ read_relatives
       (SuperFSDir.read "/lib" 1 sampleFiles (withFilter (isExactly "sub")) "/root")
     = Some [Some "sub"].
Proof. vm_compute. auto. Qed.

(** ** [exists] *)

(** C7: [exists()] resolves to [true] when the access check reports no
    error and to [false] when it reports any error; it never rejects and
    never stays unsettled. *)
Theorem C7_exists_never_rejects (access : string -> option errno)
    (this_path : string) :
  (access this_path = None ->
   SuperFSDir.exists_ access this_path = Resolved true)
  /\ (forall err, access this_path = Some err ->
                  SuperFSDir.exists_ access this_path = Resolved false)
  /\ (forall err, SuperFSDir.exists_ access this_path <> Rejected err)
  /\ SuperFSDir.exists_ access this_path <> Pending.
Proof.
  unfold SuperFSDir.exists_.
  destruct (access this_path) as [e|]; repeat split; try done.
Qed.

Example exists_on_sample :
  SuperFSDir.exists_ (Fs.access sampleFiles) "/root/sub" = Resolved true /\
  SuperFSDir.exists_ (Fs.access sampleFiles) "/nowhere" = Resolved false /\
  SuperFSDir.exists_ (fun _ => Some EACCES) "/root" = Resolved false.
Proof. vm_compute. auto. Qed.

(** ** The recursive [mkdir] helper *)

(** C10: when the target does not exist and its parent normalizes to
    ["/"], the helper calls [done()] without an error and without having
    changed anything, so the target still does not exist. *)
Theorem C10_mkdir_helper_skips_child_of_root fuel (d : string) (w : World) :
  Fs.access (files w) d <> None ->
  Path.join d "../" = "/" ->
  MkdirHelper.mkdir (S fuel) d w = (Resolved None, w)
  /\ Fs.access (files (snd (MkdirHelper.mkdir (S fuel) d w))) d <> None.
Proof.
  intros Hacc Hparent.
  assert (Hrun : MkdirHelper.mkdir (S fuel) d w = (Resolved None, w)).
  { simpl. destruct (Fs.access (files w) d); [|done].
    by rewrite Hparent. }
  split; [exact Hrun|]. by rewrite Hrun.
Qed.

Lemma C10_witness :
  MkdirHelper.mkdir 1 "/foo" sampleWorld = (Resolved None, sampleWorld)
  /\ Fs.access (files (snd (MkdirHelper.mkdir 1 "/foo" sampleWorld))) "/foo"
     <> None.
Proof.
  apply (C10_mkdir_helper_skips_child_of_root 0 "/foo" sampleWorld).
  - vm_compute. discriminate.
  - vm_compute. reflexivity.
Defined.

(** One level further down the helper does create the directory. *)
Example mkdir_helper_deeper :
  Fs.access (files (snd (MkdirHelper.mkdir 2 "/root/new" sampleWorld))) "/root/new"
  = None.
Proof. vm_compute. reflexivity. Qed.

(** ** The entries of a read exist *)

Section ReadEntries.

Variable callerDir : string.

Local Abbreviation read := (SuperFSDir.read callerDir).

Lemma create_inv fs p e :
  SuperFSDir.create fs p = Resolved e ->
  path e = p /\ relative e = None /\
  exists o, Fs.lookup fs p = Some o /\
            isDir e = Fs.st_isDirectory (Fs.stats_of o) /\
            isFile e = Fs.st_isFile (Fs.stats_of o) /\
            mode e = Fs.st_mode (Fs.stats_of o).
Proof.
  unfold SuperFSDir.create, Fs.lstat, Fs.stat.
  destruct (Fs.lookup fs p) as [o|]; [|discriminate].
  intros [= <-]. simpl. eauto 10.
Qed.

Lemma readdir_is_directory fs p names :
  Fs.readdir fs p = Resolved names ->
  exists m, Fs.lookup fs p = Some (Dir names m).
Proof.
  unfold Fs.readdir. destruct (Fs.lookup fs p) as [[|l m]|]; try discriminate.
  intros [= <-]. eauto.
Qed.

(** Every entry [read] resolves with names an object of the file system. *)
Lemma read_entries_exist fuel : forall fs opts this_path out,
  read fuel fs opts this_path = Resolved out ->
  Forall (fun e => is_Some (Fs.lookup fs (path e))) out.
Proof.
  induction fuel as [|fuel IH]; intros fs opts this_path out H; [discriminate|].
  apply read_resolved_iff in H
    as (parent & rawFiles & pushes & Hp & Hr & HF & ->).
  apply Forall_app. split.
  - unfold parentEntries in Hp. destruct (addParent opts).
    + apply bindP_Resolved_inv in Hp as (e & He & [= <-]).
      apply create_inv in He as (Hpath & _ & o & Ho & _).
      constructor; [by rewrite Hpath, Ho|constructor].
    + injection Hp as <-. constructor.
  - apply Forall_concat.
    induction HF as [|file pushed l pushes Hpushed HF IHF]; constructor; [|done].
    unfold pushedBy, SuperFSDir.readEntry in Hpushed.
    destruct (FSTools.stat fs _) as [st| |]; try discriminate. simpl in Hpushed.
    destruct (Fs.st_isDirectory st).
    + destruct (SuperFSDir.create fs _) as [d| |] eqn:Hd; try discriminate.
      simpl in Hpushed.
      apply create_inv in Hd as (Hpath & _ & o & Ho & _).
      assert (Hown : Forall (fun e => is_Some (Fs.lookup fs (path e)))
                (if negb (skipDirs opts)
                    && match filter opts with
                       | None => true
                       | Some reg => test reg (SuperFSDir.relativeOf opts (name d))
                       end
                 then [] ++ [setRelative d (SuperFSDir.relativeOf opts (name d))]
                 else [])).
      { destruct (negb (skipDirs opts) && _); constructor; [|constructor].
        simpl. by rewrite Hpath, Ho. }
      destruct (recursive opts).
      * destruct (read fuel fs _ _) as [subs| |] eqn:Hsub; try discriminate.
        injection Hpushed as <-. rewrite pushSubFiles_filter.
        apply Forall_app. split; [exact Hown|].
        apply IH in Hsub. rewrite Forall_forall in Hsub |- *.
        intros s Hs. apply Hsub. apply list_elem_of_In.
        apply list_elem_of_In in Hs. by apply List.filter_In in Hs as [? _].
      * injection Hpushed as <-. exact Hown.
    + destruct (skipFiles opts); [injection Hpushed as <-; constructor|].
      destruct (match filter opts with Some _ => _ | None => _ end);
        [injection Hpushed as <-; constructor|].
      destruct (SuperFSDir.createFile fs _ _) as [fl| |] eqn:Hfl;
        try discriminate.
      injection Hpushed as <-.
      apply create_inv in Hfl as (Hpath & _ & o & Ho & _).
      constructor; [|constructor]. simpl. by rewrite Hpath, Ho.
Qed.

(** Every entry [read] resolves with is a directory entry exactly when
    its path names a directory. *)
Lemma read_entries_kind fuel : forall fs opts this_path out,
  read fuel fs opts this_path = Resolved out ->
  Forall (fun e => exists o, Fs.lookup fs (path e) = Some o /\
                              isDir e = Fs.st_isDirectory (Fs.stats_of o)) out.
Proof.
  induction fuel as [|fuel IH]; intros fs opts this_path out H; [discriminate|].
  apply read_resolved_iff in H
    as (parent & rawFiles & pushes & Hp & Hr & HF & ->).
  apply Forall_app. split.
  - unfold parentEntries in Hp. destruct (addParent opts).
    + apply bindP_Resolved_inv in Hp as (e & He & [= <-]).
      apply create_inv in He as (Hpath & _ & o & Ho & Hk & _).
      constructor; [exists o; by rewrite Hpath|constructor].
    + injection Hp as <-. constructor.
  - apply Forall_concat.
    induction HF as [|file pushed l pushes Hpushed HF IHF]; constructor; [|done].
    unfold pushedBy, SuperFSDir.readEntry in Hpushed.
    destruct (FSTools.stat fs _) as [st| |]; try discriminate. simpl in Hpushed.
    destruct (Fs.st_isDirectory st).
    + destruct (SuperFSDir.create fs _) as [d| |] eqn:Hd; try discriminate.
      simpl in Hpushed.
      apply create_inv in Hd as (Hpath & _ & o & Ho & Hk & _).
      assert (Hown : Forall (fun e => exists o, Fs.lookup fs (path e) = Some o /\
                              isDir e = Fs.st_isDirectory (Fs.stats_of o))
                (if negb (skipDirs opts)
                    && match filter opts with
                       | None => true
                       | Some reg => test reg (SuperFSDir.relativeOf opts (name d))
                       end
                 then [] ++ [setRelative d (SuperFSDir.relativeOf opts (name d))]
                 else [])).
      { destruct (negb (skipDirs opts) && _); constructor; [|constructor].
        simpl. exists o. by rewrite Hpath. }
      destruct (recursive opts).
      * destruct (read fuel fs _ _) as [subs| |] eqn:Hsub; try discriminate.
        injection Hpushed as <-. rewrite pushSubFiles_filter.
        apply Forall_app. split; [exact Hown|].
        apply IH in Hsub. rewrite Forall_forall in Hsub |- *.
        intros s Hs. apply Hsub. apply list_elem_of_In.
        apply list_elem_of_In in Hs. by apply List.filter_In in Hs as [? _].
      * injection Hpushed as <-. exact Hown.
    + destruct (skipFiles opts); [injection Hpushed as <-; constructor|].
      destruct (match filter opts with Some _ => _ | None => _ end);
        [injection Hpushed as <-; constructor|].
      destruct (SuperFSDir.createFile fs _ _) as [fl| |] eqn:Hfl;
        try discriminate.
      injection Hpushed as <-.
      apply create_inv in Hfl as (Hpath & _ & o & Ho & Hk & _).
      constructor; [|constructor]. simpl. exists o. by rewrite Hpath.
Qed.

End ReadEntries.

(** ** [watch] *)

Section WatchClaims.

Variable callerDir : string.

Lemma watch_attaches p w :
  is_Some (Fs.lookup (files w) p) ->
  Fs.watch p w = (Resolved tt, mkWorld (files w) (events w ++ [EvWatch p])).
Proof.
  intros [o Ho]. unfold Fs.watch, Fs.change. by rewrite Ho.
Qed.

Lemma watch_loop opts_ignore (dirs : list Entry) : forall w,
  Forall (fun e => is_Some (Fs.lookup (files w) (path e))) dirs ->
  forOfM dirs tt
    (fun fl _ =>
       if watchSkips opts_ignore fl then ret tt else Fs.watch (path fl)) w
  = (Resolved tt,
     mkWorld (files w)
       (events w ++ map (fun fl => EvWatch (path fl))
                        (List.filter (fun fl => negb (watchSkips opts_ignore fl))
                                     dirs))).
Proof.
  induction dirs as [|fl dirs IH]; intros w Hex; simpl.
  - rewrite app_nil_r. by destruct w.
  - apply Forall_cons in Hex as [Hfl Hex]. unfold bindM at 1.
    destruct (watchSkips opts_ignore fl); simpl.
    + by apply IH.
    + rewrite (watch_attaches _ _ Hfl). rewrite IH; [|exact Hex].
      simpl. by rewrite <- app_assoc.
Qed.

(** Once its read has resolved, [watch] attaches a listener to exactly the
    enumerated entries whose full path the ignore matcher does not match,
    in the order of the enumeration, changes nothing else, and resolves
    with the whole enumeration. *)
Lemma watch_after_read fuel (w : World) this_path opts_ignore dirs :
  SuperFSDir.read callerDir fuel (files w) SuperFSDir.watchRead this_path = Resolved dirs ->
  SuperFSDir.watch callerDir fuel this_path opts_ignore w
  = (Resolved dirs,
     mkWorld (files w)
       (events w ++ map (fun fl => EvWatch (path fl))
                        (List.filter (fun fl => negb (watchSkips opts_ignore fl))
                                     dirs))).
Proof.
  intros Hread. unfold SuperFSDir.watch.
  unfold bindM at 1. unfold inspect at 1. rewrite Hread.
  assert (Hig : match opts_ignore with
                | Some pattern => FSTools.createFileMatch (Some pattern)
                | None => None
                end = opts_ignore) by (by destruct opts_ignore).
  rewrite Hig. unfold bindM.
  pose proof (watch_loop opts_ignore dirs w
                (read_entries_exist callerDir _ _ _ _ _ Hread)) as Hloop.
  unfold watchSkips in Hloop at 1. rewrite Hloop. reflexivity.
Qed.

End WatchClaims.

(** ** [copy] without overwriting *)

Lemma eventsSince_app (w w' : World) new :
  events w' = events w ++ new -> eventsSince w w' = new.
Proof.
  intros H. unfold eventsSince. rewrite H. by rewrite drop_app_length.
Qed.

Lemma extends_refl w : extends w w.
Proof.
  exists []. rewrite app_nil_r. split; [done|]. split; [done|].
  split; [done|]. intros ? ? ? [].
Qed.

Lemma extends_trans w1 w2 w3 : extends w1 w2 -> extends w2 w3 -> extends w1 w3.
Proof.
  intros (n1 & He1 & Hx1 & Hf1 & Hw1) (n2 & He2 & Hx2 & Hf2 & Hw2).
  exists (n1 ++ n2). split; [by rewrite He2, He1, app_assoc|].
  split; [auto|]. split; [auto|].
  intros p data m Hin. apply in_app_or in Hin as [Hin|Hin].
  - destruct (Hw1 _ _ _ Hin) as [Hnone Hsome]. split; [done|]. by apply Hx2.
  - destruct (Hw2 _ _ _ Hin) as [Hnone Hsome]. split; [|done].
    destruct (files w1 !! Path.resolve p) eqn:E; [|done].
    assert (is_Some (files w2 !! Path.resolve p)) as [o Ho]
      by (apply Hx1; by rewrite E).
    congruence.
Qed.

Lemma extending_ret {A} (a : A) : extending (ret a).
Proof. intros w. apply extends_refl. Qed.

Lemma extending_throw {A} e : extending (@throw A e).
Proof. intros w. apply extends_refl. Qed.

Lemma extending_inspect {A} (f : gmap string fsobj -> Promise A) :
  extending (inspect f).
Proof. intros w. apply extends_refl. Qed.

Lemma extending_bind {A B} (c : M A) (k : A -> M B) :
  extending c -> (forall a, extending (k a)) -> extending (bindM c k).
Proof.
  intros Hc Hk w. unfold bindM. specialize (Hc w).
  destruct (c w) as [[a| |] w']; simpl in *; try done.
  eapply extends_trans; [exact Hc|]. apply Hk.
Qed.

Lemma extending_forOfM {A S} (l : list A) (body : A -> S -> M S) :
  (forall x s, extending (body x s)) -> forall s, extending (forOfM l s body).
Proof.
  intros Hbody. induction l as [|x l IH]; intros s; simpl.
  - apply extending_ret.
  - apply extending_bind; [apply Hbody|]. intros s'. apply IH.
Qed.

Create HintDb extending.
#[local] Hint Resolve extending_ret extending_throw extending_inspect
  extending_bind extending_forOfM : extending.

(** Entering a new object under a key that names nothing. *)
Lemma link_extends (fs fs' : gmap string fsobj) k o evs e :
  fs !! k = None ->
  Fs.link k o fs = Resolved fs' ->
  (forall p data m, e = EvWriteFile p data m -> Path.resolve p = k) ->
  extends (mkWorld fs evs) (mkWorld fs' (evs ++ [e])).
Proof.
  intros Hnone Hlink He. unfold Fs.link in Hlink.
  destruct (fs !! Fs.parentOf k) as [[|names pm]|] eqn:Hpar; try discriminate.
  injection Hlink as <-.
  assert (Hne : Fs.parentOf k <> k) by (intros E; rewrite E in Hpar; congruence).
  exists [e]. simpl. split; [done|]. split; [|split].
  - intros k0 Hk0. destruct (decide (k0 = k)) as [->|Hk].
    { by rewrite lookup_insert_eq. }
    rewrite lookup_insert_ne by done.
    destruct (decide (k0 = Fs.parentOf k)) as [->|Hp].
    { by rewrite lookup_insert_eq. }
    by rewrite lookup_insert_ne.
  - intros k0 data m Hk0.
    assert (k0 <> k) by (intros ->; congruence).
    assert (k0 <> Fs.parentOf k) by (intros ->; congruence).
    by rewrite !lookup_insert_ne.
  - intros p data m [Heq|[]]. rewrite (He p data m Heq).
    split; [done|]. by rewrite lookup_insert_eq.
Qed.

Lemma mkdir_extending p mode : extending (Fs.mkdir p mode).
Proof.
  intros [fs evs]. unfold Fs.mkdir, Fs.change. simpl.
  destruct (Fs.lookup fs p) eqn:Hl; simpl; [apply extends_refl|].
  destruct (Fs.link _ _ fs) as [fs'| |] eqn:Hlink; simpl;
    try apply extends_refl.
  eapply link_extends; [exact Hl|exact Hlink|]. intros; discriminate.
Qed.

(** Writing a file that does not exist yet. *)
Lemma writeFile_new_extends p data mode w :
  Fs.lookup (files w) p = None ->
  extends w (snd (Fs.writeFile p data mode w)).
Proof.
  destruct w as [fs evs]. simpl. intros Hl.
  unfold Fs.writeFile, Fs.change. simpl. rewrite Hl.
  destruct (Fs.link _ _ fs) as [fs'| |] eqn:Hlink; simpl;
    try apply extends_refl.
  eapply link_extends; [exact Hl|exact Hlink|]. by intros ? ? ? [= <- _ _].
Qed.

#[local] Hint Resolve mkdir_extending : extending.

Lemma SuperFSDir_mkdir_extending d opts : extending (SuperFSDir.mkdir d opts).
Proof.
  unfold SuperFSDir.mkdir, FSTools.exists_, FSTools.createDir.
  apply extending_forOfM. intros x [].
  apply extending_bind; [auto with extending|].
  intros [|]; auto with extending.
Qed.

#[local] Hint Resolve SuperFSDir_mkdir_extending : extending.

Lemma copyEntry_extending dest opts fl copied :
  overwrite opts = false ->
  extending (SuperFSDir.copyEntry dest opts fl copied).
Proof.
  intros Hov. unfold SuperFSDir.copyEntry.
  destruct (relative fl) as [rel|]; [|apply extending_throw].
  destruct (isDir fl).
  - auto with extending.
  - intros w. unfold bindM, inspect, FSTools.exists_, Fs.access, ret,
      FSTools.writeFile.
    destruct (FSTools.readFile (files w) (path fl)) as [data| |]; simpl;
      try apply extends_refl.
    rewrite Hov.
    destruct (Fs.lookup (files w) (Path.join dest rel)) eqn:Hl; simpl.
    + apply extends_refl.
    + pose proof (writeFile_new_extends (Path.join dest rel) data
                    (orMode (fileMode opts) (mode fl)) w Hl) as Hw.
      destruct (Fs.writeFile _ _ _ w) as [[u| |] w']; simpl in *; done.
Qed.

Lemma copy_extending callerDir fuel this_path dest arg :
  overwrite (SuperFSDir.copyOptions arg) = false ->
  extending (SuperFSDir.copy callerDir fuel this_path dest arg).
Proof.
  intros Hov. unfold SuperFSDir.copy, FSTools.exists_.
  apply extending_bind; [auto with extending|]. intros destExists.
  apply extending_bind; [destruct (negb destExists); auto with extending|].
  intros _. apply extending_bind; [auto with extending|]. intros files.
  apply extending_forOfM. intros fl copied. by apply copyEntry_extending.
Qed.

(** C5: when [copy] runs twice in succession without [overwrite], the
    second run writes no file that the first run wrote, and every file
    present after the first run has the same content and mode after the
    second. *)
Theorem C5_copy_twice_without_overwrite
    callerDir fuel1 fuel2 this_path dest arg (w0 : World) :
  overwrite (SuperFSDir.copyOptions arg) = false ->
  let w1 := snd (SuperFSDir.copy callerDir fuel1 this_path dest arg w0) in
  let w2 := snd (SuperFSDir.copy callerDir fuel2 this_path dest arg w1) in
  (forall p data m p' data' m',
      In (EvWriteFile p data m) (eventsSince w0 w1) ->
      In (EvWriteFile p' data' m') (eventsSince w1 w2) ->
      Path.resolve p' <> Path.resolve p)
  /\ (forall k data m,
         files w1 !! k = Some (File data m) ->
         files w2 !! k = Some (File data m)).
Proof.
  intros Hov w1 w2.
  destruct (copy_extending callerDir fuel1 this_path dest arg Hov w0)
    as (n1 & He1 & Hx1 & Hf1 & Hw1).
  destruct (copy_extending callerDir fuel2 this_path dest arg Hov w1)
    as (n2 & He2 & Hx2 & Hf2 & Hw2).
  fold w1 in He1, Hx1, Hf1, Hw1. fold w2 in He2, Hx2, Hf2, Hw2.
  split; [|exact Hf2].
  intros p data m p' data' m'.
  rewrite (eventsSince_app _ _ _ He1), (eventsSince_app _ _ _ He2).
  intros H1 H2 E.
  destruct (Hw1 _ _ _ H1) as [_ [o Ho]].
  destruct (Hw2 _ _ _ H2) as [Hnone _].
  rewrite E in Hnone. congruence.
Qed.

Lemma C5_witness :
  let w1 := snd (SuperFSDir.copy "/lib" 3 "/root" "/dst/x" CopyTrue sampleWorld) in
  let w2 := snd (SuperFSDir.copy "/lib" 3 "/root" "/dst/x" CopyTrue w1) in
  (forall p data m p' data' m',
      In (EvWriteFile p data m) (eventsSince sampleWorld w1) ->
      In (EvWriteFile p' data' m') (eventsSince w1 w2) ->
      Path.resolve p' <> Path.resolve p)
  /\ (forall k data m,
         files w1 !! k = Some (File data m) ->
         files w2 !! k = Some (File data m)).
Proof.
  exact (C5_copy_twice_without_overwrite "/lib" 3 3 "/root" "/dst/x" CopyTrue
           sampleWorld eq_refl).
Defined.

(** On the sample tree the first run writes the two files and the second
    run changes nothing at all. *)
Example copy_twice_on_sample :
  let run1 := SuperFSDir.copy "/lib" 3 "/root" "/dst/x" CopyTrue sampleWorld in
  let run2 := SuperFSDir.copy "/lib" 3 "/root" "/dst/x" CopyTrue (snd run1) in
  eventsSince sampleWorld (snd run1)
  = [EvMkdir "/dst" 511; EvMkdir "/dst/x" 511;
     EvWriteFile "/dst/x/a.txt" "A" 420; EvMkdir "/dst/x/sub" 493;
     EvWriteFile "/dst/x/sub/b.txt" "B" 420; EvMkdir "/dst/x/sub/deep" 493]
  /\ eventsSince (snd run1) (snd run2) = []
  /\ read_paths (fst run2)
     = Some ["/root/a.txt"; "/root/sub"; "/root/sub/b.txt"; "/root/sub/deep"]
  /\ files (snd run2) !! "/dst/x/sub/b.txt" = Some (File "B" 420).
Proof. vm_compute. auto. Qed.

(** ** [delete] *)

Lemma insertLeft_Permutation {A} (cmp : A -> A -> Z) x l :
  Permutation (insertLeft cmp x l) (x :: l).
Proof.
  induction l as [|y l IH]; simpl; [done|].
  destruct (0 <? cmp y x)%Z; [|done].
  rewrite IH. apply perm_swap.
Qed.

(** The sorted part, last element first, is in non-increasing rank. *)
Lemma insertLeft_sorted {A} (cmp : A -> A -> Z) (rank : A -> Z) x l :
  (forall a b, (0 < cmp a b)%Z -> (rank b <= rank a)%Z) ->
  (forall a b, (cmp a b <= 0)%Z -> (rank a <= rank b)%Z) ->
  StronglySorted (fun a b => (rank b <= rank a)%Z) l ->
  StronglySorted (fun a b => (rank b <= rank a)%Z) (insertLeft cmp x l).
Proof.
  intros Hpos Hnonpos. induction 1 as [|y l Hs IH Hall]; simpl.
  - repeat constructor.
  - destruct (Z.ltb_spec 0 (cmp y x)) as [Hlt|Hge].
    + constructor; [exact IH|].
      rewrite Forall_forall in Hall |- *. intros z Hz.
      apply list_elem_of_In in Hz.
      apply (Permutation_in _ (insertLeft_Permutation cmp x l)) in Hz.
      destruct Hz as [<-|Hz]; [by apply Hpos|].
      apply Hall. by apply list_elem_of_In.
    + assert (rank y <= rank x)%Z by (by apply Hnonpos).
      constructor; [by constructor|].
      constructor; [done|].
      rewrite Forall_forall in Hall |- *. intros z Hz.
      specialize (Hall z Hz). lia.
Qed.

Lemma StronglySorted_append {A} (R : A -> A -> Prop) l1 l2 :
  StronglySorted R l1 -> StronglySorted R l2 ->
  (forall x y, In x l1 -> In y l2 -> R x y) ->
  StronglySorted R (l1 ++ l2).
Proof.
  induction 1 as [|x l1 Hs IH Hall]; intros H2 Hcross; simpl; [done|].
  constructor.
  - apply IH; [done|]. intros a b Ha Hb. apply Hcross; [by right|done].
  - apply Forall_app. split; [done|].
    rewrite Forall_forall. intros y Hy. apply Hcross; [by left|].
    by apply list_elem_of_In.
Qed.

Lemma StronglySorted_reverse {A} (R : A -> A -> Prop) l :
  StronglySorted (fun a b => R b a) l -> StronglySorted R (rev l).
Proof.
  induction 1 as [|x l Hs IH Hall]; simpl; [constructor|].
  apply StronglySorted_append; [done|repeat constructor|].
  intros a b Ha [<-|[]]. rewrite Forall_forall in Hall. apply Hall.
  apply list_elem_of_In. by apply in_rev.
Qed.

Lemma insertionSort_respectsRanking : respectsRanking insertionSort.
Proof.
  intros cmp rank l Hneg Hpos Hzero.
  assert (Hnonpos : forall a b, (cmp a b <= 0)%Z -> (rank a <= rank b)%Z).
  { intros a b H. destruct (Z.eq_dec (cmp a b) 0%Z) as [E|E].
    - rewrite (Hzero _ _ E). lia.
    - apply Hneg. lia. }
  unfold insertionSort.
  assert (Hgen : forall l acc,
             StronglySorted (fun a b => (rank b <= rank a)%Z) acc ->
             Permutation
               (fold_left (fun sortedRev element => insertLeft cmp element sortedRev)
                          l acc) (rev l ++ acc) /\
             StronglySorted (fun a b => (rank b <= rank a)%Z)
               (fold_left (fun sortedRev element => insertLeft cmp element sortedRev)
                          l acc)).
  { clear l. induction l as [|x l IH]; intros acc Hacc; simpl; [done|].
    destruct (IH (insertLeft cmp x acc)) as [Hperm Hsorted].
    { by apply insertLeft_sorted. }
    split; [|exact Hsorted].
    rewrite Hperm, (insertLeft_Permutation cmp x acc).
    rewrite <- app_assoc. simpl. reflexivity. }
  destruct (Hgen l []) as [Hperm Hsorted]; [constructor|].
  split.
  - rewrite <- Permutation_rev, Hperm, app_nil_r. symmetry.
    apply Permutation_rev.
  - by apply StronglySorted_reverse.
Qed.

(** The sort of current V8 puts the elements in non-decreasing rank
    whenever the comparator's answers agree with the ranking. *)

Section TimSort.

Context {A : Type} (cmp : A -> A -> Z) (rank : A -> Z).
Hypothesis Hneg : forall a b, (cmp a b < 0)%Z -> (rank a <= rank b)%Z.
Hypothesis Hpos : forall a b, (0 < cmp a b)%Z -> (rank b <= rank a)%Z.
Hypothesis Hzero : forall a b, cmp a b = 0%Z -> rank a = rank b.

Local Abbreviation up := (fun a b : A => (rank a <= rank b)%Z).
Local Abbreviation down := (fun a b : A => (rank b <= rank a)%Z).

Lemma nonneg_ranks a b : (0 <= cmp a b)%Z -> (rank b <= rank a)%Z.
Proof.
  intros H. destruct (Z.eq_dec (cmp a b) 0%Z) as [E|E].
  - rewrite (Hzero _ _ E). lia.
  - apply Hpos. lia.
Qed.

Lemma extendRun_app isDescending previousElement l :
  fst (extendRun cmp isDescending previousElement l)
  ++ snd (extendRun cmp isDescending previousElement l) = l.
Proof.
  revert previousElement. induction l as [|x l IH]; intros prev; simpl; [done|].
  destruct (if isDescending then (0 <=? cmp x prev)%Z else (cmp x prev <? 0)%Z);
    [done|].
  specialize (IH x). destruct (extendRun cmp isDescending x l) as [run rest].
  simpl in *. by rewrite IH.
Qed.

Lemma sorted_chain (R : A -> A -> Prop) a b l :
  (forall x y z, R x y -> R y z -> R x z) ->
  R a b -> StronglySorted R (b :: l) -> StronglySorted R (a :: b :: l).
Proof.
  intros Htrans Hab Hs. constructor; [done|].
  constructor; [done|]. apply StronglySorted_inv in Hs as [_ Hall].
  eapply Forall_impl; [exact Hall|]. intros z Hz. by eapply Htrans.
Qed.

Lemma extendRun_sorted (isDescending : bool) previousElement l :
  StronglySorted (fun a b => if isDescending then down a b else up a b)
    (previousElement :: fst (extendRun cmp isDescending previousElement l)).
Proof.
  revert previousElement. induction l as [|x l IH]; intros prev; simpl.
  - repeat constructor.
  - destruct isDescending.
    + destruct (Z.leb_spec 0 (cmp x prev)) as [H|H]; [repeat constructor|].
      specialize (IH x). destruct (extendRun cmp true x l) as [run rest].
      simpl in *. apply sorted_chain; [intros; lia| |done]. by apply Hneg.
    + destruct (Z.ltb_spec (cmp x prev) 0) as [H|H]; [repeat constructor|].
      specialize (IH x). destruct (extendRun cmp false x l) as [run rest].
      simpl in *. apply sorted_chain; [intros; lia| |done]. by apply nonneg_ranks.
Qed.

Lemma countAndMakeRun_spec l :
  fst (countAndMakeRun cmp l) ++ snd (countAndMakeRun cmp l) ≡ₚ l
  /\ StronglySorted up (fst (countAndMakeRun cmp l)).
Proof.
  destruct l as [|hi [|lo l]]; simpl.
  - split; [done|constructor].
  - split; [done|repeat constructor].
  - pose proof (extendRun_app (cmp lo hi <? 0)%Z lo l) as Happ.
    pose proof (extendRun_sorted (cmp lo hi <? 0)%Z lo l) as Hsorted.
    destruct (extendRun cmp _ lo l) as [run rest]. simpl in *.
    destruct (Z.ltb_spec (cmp lo hi) 0) as [H|H]; simpl.
    + split.
      * rewrite <- Happ.
        change ((rev run ++ [lo]) ++ [hi]) with (rev (hi :: lo :: run)).
        change (hi :: lo :: run ++ rest) with ((hi :: lo :: run) ++ rest).
        apply Permutation_app_tail. symmetry.
        apply (Permutation_rev (hi :: lo :: run)).
      * change ((rev run ++ [lo]) ++ [hi]) with (rev (hi :: lo :: run)).
        apply (StronglySorted_reverse up (hi :: lo :: run)).
        apply sorted_chain; [intros; lia| |done]. by apply Hneg.
    + split; [by rewrite Happ|].
      apply sorted_chain; [intros; lia| |done]. by apply nonneg_ranks.
Qed.

Lemma sorted_lookup (l : list A) i j x y :
  StronglySorted up l -> i <= j -> l !! i = Some x -> l !! j = Some y ->
  (rank x <= rank y)%Z.
Proof.
  intros Hs. revert i j. induction Hs as [|a l Hs IH Hall]; intros i j Hij Hi Hj.
  - done.
  - destruct i as [|i], j as [|j]; simpl in *; try lia.
    + injection Hi as <-. injection Hj as <-. lia.
    + injection Hi as <-. rewrite Forall_forall in Hall.
      apply Hall. by eapply list_elem_of_lookup_2.
    + eapply IH; [|done|done]. lia.
Qed.

Lemma searchLeft_spec pivot (sorted : list A) fuel : forall left right,
  StronglySorted up sorted ->
  left <= right <= length sorted ->
  right - left <= fuel ->
  (forall i y, sorted !! i = Some y -> i < left -> (rank y <= rank pivot)%Z) ->
  (forall i y, sorted !! i = Some y -> right <= i -> (rank pivot <= rank y)%Z) ->
  let pos := searchLeft cmp pivot sorted fuel left right in
  pos <= length sorted /\
  (forall i y, sorted !! i = Some y -> i < pos -> (rank y <= rank pivot)%Z) /\
  (forall i y, sorted !! i = Some y -> pos <= i -> (rank pivot <= rank y)%Z).
Proof.
  induction fuel as [|fuel IH]; intros left right Hs Hlr Hfuel Hlow Hhigh; simpl.
  - assert (left = right) as -> by lia. split; [lia|]. by split.
  - destruct (Nat.ltb_spec left right) as [Hlt|Hge].
    2: { assert (left = right) as -> by lia. split; [lia|]. by split. }
    assert (Hmid : left <= left + Nat.div2 (right - left) < right).
    { assert (Hhalf : Nat.div2 (right - left) < right - left)
        by (apply Nat.lt_div2; lia).
      revert Hhalf. generalize (Nat.div2 (right - left)). intros; lia. }
    set (mid := left + Nat.div2 (right - left)) in *.
    destruct (sorted !! mid) as [x|] eqn:Hx.
    2: { apply lookup_ge_None in Hx. lia. }
    destruct (Z.ltb_spec (cmp pivot x) 0) as [Hc|Hc].
    + apply IH; [done|lia|lia|done|].
      intros i y Hy Hi. apply Hneg in Hc.
      pose proof (sorted_lookup _ _ _ _ _ Hs Hi Hx Hy). lia.
    + apply IH; [done|lia|lia| |done].
      intros i y Hy Hi. apply nonneg_ranks in Hc.
      assert (i <= mid) by lia.
      pose proof (sorted_lookup _ _ _ _ _ Hs H Hy Hx). lia.
Qed.

Lemma insertPivot_spec (sorted : list A) pivot :
  StronglySorted up sorted ->
  insertPivot cmp sorted pivot ≡ₚ sorted ++ [pivot]
  /\ StronglySorted up (insertPivot cmp sorted pivot).
Proof.
  intros Hs. unfold insertPivot.
  destruct (searchLeft_spec pivot sorted (length sorted) 0 (length sorted))
    as (Hlen & Hlow & Hhigh); [done|lia|lia|intros; lia| |].
  { intros i y Hy Hi. apply lookup_lt_Some in Hy. lia. }
  set (pos := searchLeft cmp pivot sorted (length sorted) 0 (length sorted)) in *.
  split.
  - rewrite <- Permutation_middle, Permutation_cons_append.
    by rewrite take_drop.
  - pose proof Hs as Hs'. rewrite <- (take_drop pos sorted) in Hs'.
    assert (Htake : forall x, In x (take pos sorted) -> (rank x <= rank pivot)%Z).
    { intros x Hx. apply list_elem_of_In, list_elem_of_lookup in Hx as [i Hi].
      apply lookup_take_Some in Hi as [Hi Hlt]. by eapply Hlow. }
    assert (Hdrop : forall y, In y (drop pos sorted) -> (rank pivot <= rank y)%Z).
    { intros y Hy. apply list_elem_of_In, list_elem_of_lookup in Hy as [i Hi].
      rewrite lookup_drop in Hi. eapply Hhigh; [exact Hi|lia]. }
    assert (Hl : StronglySorted up (take pos sorted) /\
                 StronglySorted up (drop pos sorted)).
    { clear -Hs'. revert Hs'. generalize (take pos sorted) (drop pos sorted).
      intros l1 l2. induction l1 as [|a l1 IH]; simpl; intros H.
      - split; [constructor|done].
      - apply StronglySorted_inv in H as [H Hall].
        apply Forall_app in Hall as [Hall1 _].
        destruct (IH H) as [H1 H2]. split; [by constructor|done]. }
    destruct Hl as [Hl1 Hl2].
    apply StronglySorted_append; [done| |].
    + constructor; [done|]. rewrite Forall_forall. intros y Hy.
      apply Hdrop. by apply list_elem_of_In.
    + intros x y Hx [<-|Hy]; [by apply Htake|].
      specialize (Htake x Hx). specialize (Hdrop y Hy). lia.
Qed.

Lemma timSort_spec l :
  timSort cmp l ≡ₚ l /\ StronglySorted up (timSort cmp l).
Proof.
  unfold timSort. destruct (countAndMakeRun_spec l) as [Hperm Hsorted].
  destruct (countAndMakeRun cmp l) as [run rest]. simpl in *.
  rewrite <- Hperm. clear Hperm. revert run Hsorted.
  induction rest as [|x rest IH]; intros run Hsorted; simpl.
  - by rewrite app_nil_r.
  - destruct (insertPivot_spec run x Hsorted) as [Hp Hs].
    destruct (IH _ Hs) as [Hp' Hs']. split; [|done].
    rewrite Hp', Hp, <- app_assoc. done.
Qed.

End TimSort.

Lemma timSort_respectsRanking : respectsRanking timSort.
Proof. intros cmp rank l Hneg Hpos Hzero. by apply timSort_spec. Qed.

(** A list in non-decreasing [dirRank] is the files, then the
    directories. *)
Lemma dirRank_sorted_split (l : list Entry) :
  StronglySorted (fun a b => (dirRank a <= dirRank b)%Z) l ->
  exists fileEntries dirEntries,
    l = fileEntries ++ dirEntries /\
    Forall (fun e => isDir e = false) fileEntries /\
    Forall (fun e => isDir e = true) dirEntries.
Proof.
  induction 1 as [|x l Hs IH Hall].
  - exists [], []. repeat split; constructor.
  - destruct (isDir x) eqn:Hx.
    + exists [], (x :: l). repeat split; [constructor|].
      constructor; [done|].
      eapply Forall_impl; [exact Hall|]. intros y Hy.
      unfold dirRank in Hy. rewrite Hx in Hy. destruct (isDir y); [done|lia].
    + destruct IH as (fs & ds & -> & Hfs & Hds).
      exists (x :: fs), ds. repeat split; [by constructor|done].
Qed.

Lemma forOfM_app {A S} (l1 l2 : list A) (s : S) (body : A -> S -> M S) w :
  forOfM (l1 ++ l2) s body w
  = bindM (forOfM l1 s body) (fun s' => forOfM l2 s' body) w.
Proof.
  revert s w. induction l1 as [|x l1 IH]; intros s w; [reflexivity|].
  change (forOfM ((x :: l1) ++ l2) s body w)
    with (bindM (body x s) (fun s' => forOfM (l1 ++ l2) s' body) w).
  change (forOfM (x :: l1) s body)
    with (bindM (body x s) (fun s' => forOfM l1 s' body)).
  unfold bindM. destruct (body x s w) as [[s'| |] w']; [|done|done].
  rewrite IH. reflexivity.
Qed.

Lemma unlinkKey_absent k (fs : gmap string fsobj) k0 :
  fs !! k0 = None -> Fs.unlinkKey k fs !! k0 = None.
Proof.
  intros H. unfold Fs.unlinkKey.
  assert (Hd : base.delete k fs !! k0 = None)
    by (apply lookup_delete_None; by right).
  destruct (base.delete k fs !! Fs.parentOf k) as [[|names m]|] eqn:Hpar;
    try done.
  destruct (decide (k0 = Fs.parentOf k)) as [->|Hne]; [congruence|].
  by rewrite lookup_insert_ne.
Qed.

Lemma unlinkKey_removed k (fs : gmap string fsobj) :
  Fs.unlinkKey k fs !! k = None.
Proof.
  unfold Fs.unlinkKey.
  destruct (base.delete k fs !! Fs.parentOf k) as [[|names m]|] eqn:Hpar;
    try apply lookup_delete_eq.
  destruct (decide (k = Fs.parentOf k)) as [E|Hne].
  - rewrite <- E, lookup_delete_eq in Hpar. discriminate.
  - rewrite lookup_insert_ne by done. apply lookup_delete_eq.
Qed.

Lemma unlinkKey_keeps_file k (fs : gmap string fsobj) k0 data m :
  k0 <> k ->
  fs !! k0 = Some (File data m) ->
  Fs.unlinkKey k fs !! k0 = Some (File data m).
Proof.
  intros Hne H. unfold Fs.unlinkKey.
  assert (Hd : base.delete k fs !! k0 = Some (File data m))
    by (by rewrite lookup_delete_ne).
  destruct (base.delete k fs !! Fs.parentOf k) as [[|names pm]|] eqn:Hpar;
    try done.
  destruct (decide (k0 = Fs.parentOf k)) as [->|Hne']; [congruence|].
  by rewrite lookup_insert_ne.
Qed.

(** A removal either succeeds, taking the key out and logging the event,
    or rejects and leaves the world as it was. *)
Lemma removal_cases (fl : Entry) (w : World) :
  let step := (if isDir fl then FSTools.removeDir (path fl)
               else FSTools.removeFile (path fl)) w in
  step = (Resolved tt,
          mkWorld (Fs.unlinkKey (Path.resolve (path fl)) (files w))
                  (events w ++ [removal fl]))
  \/ (exists err, step = (Rejected err, w)).
Proof.
  unfold removal, FSTools.removeDir, FSTools.removeFile, Fs.rmdir, Fs.unlink,
    Fs.change.
  destruct (isDir fl); simpl;
    destruct (Fs.lookup (files w) (path fl)) as [[?|[|? ?] ?]|]; simpl; eauto.
Qed.

(** What a removal leaves of the file system: all of it, or all of it
    but the removed key. *)
Lemma removal_files (fl : Entry) (w : World) :
  let w' := snd ((if isDir fl then FSTools.removeDir (path fl)
                  else FSTools.removeFile (path fl)) w) in
  (w' = w)
  \/ (files w' = Fs.unlinkKey (Path.resolve (path fl)) (files w) /\
      events w' = events w ++ [removal fl]).
Proof.
  unfold removal, FSTools.removeDir, FSTools.removeFile, Fs.rmdir, Fs.unlink,
    Fs.change.
  destruct (isDir fl); simpl;
    destruct (Fs.lookup (files w) (path fl)) as [[?|[|? ?] ?]|]; simpl; auto.
Qed.

(** What is absent stays absent through the loop of [delete]. *)
Lemma delete_loop_absent (l : list Entry) : forall w k,
  files w !! k = None ->
  files (snd (forOfM l tt
                (fun fl _ =>
                   if isDir fl then FSTools.removeDir (path fl)
                   else FSTools.removeFile (path fl)) w)) !! k = None.
Proof.
  induction l as [|fl l IH]; intros w k Hk; simpl; [done|].
  unfold bindM.
  pose proof (removal_files fl w) as Hstep. simpl in Hstep.
  assert (Hk1 : files (snd ((if isDir fl then FSTools.removeDir (path fl)
                             else FSTools.removeFile (path fl)) w)) !! k
                = None).
  { destruct Hstep as [->|[Hf _]]; [done|]. rewrite Hf.
    by apply unlinkKey_absent. }
  destruct ((if isDir fl then FSTools.removeDir (path fl)
             else FSTools.removeFile (path fl)) w) as [[[]| |] w1];
    simpl in *; try exact Hk1.
  by apply IH.
Qed.

(** The loop of [delete] removes a prefix of the list it is given, and
    the whole list when it runs to the end: the removals are logged in
    order and the removed paths name nothing afterwards.  It stops short
    only at an entry whose removal rejects, and rejects with its error. *)
Lemma delete_loop (l : list Entry) : forall w,
  let run :=
    forOfM l tt
      (fun fl _ =>
         if isDir fl then FSTools.removeDir (path fl)
         else FSTools.removeFile (path fl)) w in
  exists k,
    events (snd run) = events w ++ map removal (take k l) /\
    Forall (fun fl => Fs.lookup (files (snd run)) (path fl) = None) (take k l) /\
    (forall u, fst run = Resolved u -> length l <= k) /\
    (forall fl,
        l !! k = Some fl ->
        exists err,
          fst run = Rejected err /\
          fst ((if isDir fl then FSTools.removeDir (path fl)
                else FSTools.removeFile (path fl)) (snd run))
          = Rejected err).
Proof.
  induction l as [|fl l IH]; intros w; simpl.
  - exists 0. simpl. rewrite app_nil_r. split; [done|].
    split; [constructor|]. split; [intros; lia|]. intros fl H. discriminate H.
  - unfold bindM.
    destruct (removal_cases fl w) as [Hok|[err Hfail]]; simpl in *.
    + rewrite Hok.
      set (w1 := mkWorld (Fs.unlinkKey (Path.resolve (path fl)) (files w))
                         (events w ++ [removal fl])).
      destruct (IH w1) as (k & Hev & Hgone & Hlen & Hstop).
      exists (S k). simpl in *. split; [|split; [|split]].
      * rewrite Hev. by rewrite <- app_assoc.
      * constructor; [|exact Hgone].
        apply delete_loop_absent. apply unlinkKey_removed.
      * intros u Hu. specialize (Hlen u Hu). lia.
      * exact Hstop.
    + rewrite Hfail. exists 0. simpl. rewrite app_nil_r. split; [done|].
      split; [constructor|]. split; [intros; discriminate|].
      intros fl' [= <-]. exists err. by rewrite Hfail.
Qed.

(** Files whose paths are distinct are all unlinked by the loop of
    [delete], which then has run to the end. *)
Lemma delete_loop_files (l : list Entry) : forall w,
  Forall (fun e => isDir e = false) l ->
  NoDup (map (fun e => Path.resolve (path e)) l) ->
  Forall (fun e => exists data m,
              Fs.lookup (files w) (path e) = Some (File data m)) l ->
  exists fs',
    forOfM l tt
      (fun fl _ =>
         if isDir fl then FSTools.removeDir (path fl)
         else FSTools.removeFile (path fl)) w
    = (Resolved tt,
       mkWorld fs' (events w ++ map (fun e => EvUnlink (path e)) l)) /\
    Forall (fun e => Fs.lookup fs' (path e) = None) l.
Proof.
  induction l as [|fl l IH]; intros w Hfiles Hnodup Hthere; simpl.
  - exists (files w). rewrite app_nil_r. split; [by destruct w|constructor].
  - apply Forall_cons in Hfiles as [Hfl Hfiles].
    apply NoDup_cons in Hnodup as [Hnotin Hnodup].
    apply Forall_cons in Hthere as [(data & m & Hhere) Hthere].
    unfold bindM. rewrite Hfl.
    unfold FSTools.removeFile at 1, Fs.unlink at 1, Fs.change at 1.
    rewrite Hhere.
    set (w1 := mkWorld (Fs.unlinkKey (Path.resolve (path fl)) (files w))
                       (events w ++ [EvUnlink (path fl)])).
    destruct (IH w1) as (fs' & Hloop & Hgone); [done|done| |].
    { rewrite Forall_forall in Hthere |- *. intros e He.
      destruct (Hthere e He) as (d' & m' & He').
      exists d', m'. unfold Fs.lookup in *. simpl.
      apply unlinkKey_keeps_file; [|done].
      intros E. apply Hnotin. rewrite <- E.
      apply list_elem_of_In, in_map_iff. exists e.
      split; [done|]. by apply list_elem_of_In. }
    exists fs'. split.
    + rewrite Hloop. simpl. by rewrite <- app_assoc.
    + constructor; [|exact Hgone].
      pose proof (delete_loop_absent l w1 (Path.resolve (path fl))
                    (unlinkKey_removed _ _)) as Habs.
      rewrite Hloop in Habs. exact Habs.
Qed.

(** Once its read has resolved with entries of distinct paths, [delete]
    sorts them so that the files come first and the directories after
    them, unlinks every file, and then removes the directories in that
    order up to the first that cannot be removed. *)
Lemma delete_after_read
    (sort : (Entry -> Entry -> Z) -> list Entry -> list Entry)
    callerDir fuel this_path (w : World) (entries : list Entry) :
  respectsRanking sort ->
  SuperFSDir.read callerDir fuel (files w) SuperFSDir.readAll this_path
  = Resolved entries ->
  NoDup (map (fun e => Path.resolve (path e)) entries) ->
  let run := SuperFSDir.delete callerDir sort fuel this_path w in
  let sortedFiles := sort SuperFSDir.dirLast entries in
  Permutation sortedFiles entries /\
  exists fileEntries dirEntries j,
    sortedFiles = fileEntries ++ dirEntries /\
    Forall (fun e => isDir e = false) fileEntries /\
    Forall (fun e => isDir e = true) dirEntries /\
    eventsSince w (snd run)
    = map (fun e => EvUnlink (path e)) fileEntries
      ++ map (fun e => EvRmdir (path e)) (take j dirEntries) /\
    Forall (fun e => Fs.lookup (files (snd run)) (path e) = None)
           (fileEntries ++ take j dirEntries) /\
    (forall out, fst run = Resolved out ->
                 out = sortedFiles /\ length dirEntries <= j) /\
    (forall d,
        dirEntries !! j = Some d ->
        exists err,
          fst run = Rejected err /\
          fst (FSTools.removeDir (path d) (snd run)) = Rejected err).
Proof.
  intros Hsort Hread Hnodup run sortedFiles.
  destruct (Hsort SuperFSDir.dirLast dirRank entries) as [Hperm Hsorted].
  { intros a b. unfold SuperFSDir.dirLast, dirRank.
    destruct (isDir a), (isDir b); lia. }
  { intros a b. unfold SuperFSDir.dirLast, dirRank.
    destruct (isDir a), (isDir b); lia. }
  { intros a b. unfold SuperFSDir.dirLast. destruct (isDir a); lia. }
  split; [exact Hperm|].
  destruct (dirRank_sorted_split _ Hsorted) as (fs & ds & Hsplit & Hfs & Hds).
  fold sortedFiles in Hperm, Hsplit.
  assert (Hfiles : exists fs1,
             forOfM fs tt
               (fun fl _ =>
                  if isDir fl then FSTools.removeDir (path fl)
                  else FSTools.removeFile (path fl)) w
             = (Resolved tt,
                mkWorld fs1 (events w ++ map (fun e => EvUnlink (path e)) fs)) /\
             Forall (fun e => Fs.lookup fs1 (path e) = None) fs).
  { apply delete_loop_files; [exact Hfs| |].
    - assert (Hnd : NoDup (map (fun e => Path.resolve (path e)) (fs ++ ds))).
      { rewrite <- Hsplit.
        by rewrite (Permutation_map (fun e => Path.resolve (path e)) Hperm). }
      rewrite map_app in Hnd. by apply NoDup_app in Hnd as [? _].
    - pose proof (read_entries_kind callerDir _ _ _ _ _ Hread) as Hkind.
      rewrite Forall_forall in Hkind, Hfs |- *. intros e He.
      destruct (Hkind e) as (o & Ho & Hk).
      { apply list_elem_of_In. apply (Permutation_in _ Hperm).
        rewrite Hsplit. apply in_or_app. left. by apply list_elem_of_In. }
      rewrite (Hfs e He) in Hk. destruct o as [data m|]; [|discriminate Hk].
      by exists data, m. }
  destruct Hfiles as (fs1 & Hloop1 & Hgone1).
  set (w1 := mkWorld fs1 (events w ++ map (fun e => EvUnlink (path e)) fs)).
  destruct (delete_loop ds w1) as (j & Hev & Hgone & Hlen & Hstop).
  exists fs, ds, j. split; [exact Hsplit|]. split; [exact Hfs|].
  split; [exact Hds|].
  assert (Hrun : run =
    match forOfM ds tt
            (fun fl _ =>
               if isDir fl then FSTools.removeDir (path fl)
               else FSTools.removeFile (path fl)) w1 with
    | (Resolved _, w') => (Resolved sortedFiles, w')
    | (Rejected e, w') => (Rejected e, w')
    | (Pending, w') => (Pending, w')
    end).
  { unfold run, SuperFSDir.delete. unfold bindM at 1. unfold inspect at 1.
    rewrite Hread. fold sortedFiles. unfold bindM at 1.
    rewrite Hsplit, forOfM_app. unfold bindM at 1. rewrite Hloop1.
    fold w1. unfold ret.
    by destruct (forOfM ds tt _ w1) as [[[]| |] w']. }
  destruct (forOfM ds tt _ w1) as [r w'] eqn:Hloop.
  simpl in Hev, Hgone, Hlen, Hstop.
  assert (Hsnd : snd run = w') by (rewrite Hrun; by destruct r).
  split; [|split; [|split]].
  - rewrite Hsnd. unfold eventsSince. rewrite Hev. simpl.
    rewrite <- app_assoc, drop_app_length. f_equal.
    apply map_ext_Forall. apply Forall_take.
    eapply Forall_impl; [exact Hds|]. intros e He.
    unfold removal. by rewrite He.
  - rewrite Hsnd. apply Forall_app. split; [|exact Hgone].
    rewrite Forall_forall in Hgone1 |- *. intros e He.
    pose proof (delete_loop_absent ds w1 (Path.resolve (path e)) (Hgone1 e He))
      as Habs.
    rewrite Hloop in Habs. exact Habs.
  - intros out Hout. rewrite Hrun in Hout.
    destruct r as [u| |]; simpl in Hout; try discriminate.
    injection Hout as <-. split; [done|]. by apply (Hlen u).
  - intros d Hd. destruct (Hstop d Hd) as (err & -> & Hfail).
    exists err. rewrite Hsnd, Hrun. split; [done|].
    rewrite Forall_forall in Hds.
    rewrite (Hds d) in Hfail by (by eapply list_elem_of_lookup_2).
    exact Hfail.
Qed.

(** ** Paths in normal form *)

Section PathFacts.

Local Abbreviation slashFree s :=
  (forallb (fun c => negb (Path.is_sep c)) (Path.chars s) = true).

Lemma append_String c (a b : string) : String c a +:+ b = String c (a +:+ b).
Proof. reflexivity. Qed.

Lemma append_empty_r (a : string) : a +:+ "" = a.
Proof. induction a as [|c a IH]; [done|]. by rewrite append_String, IH. Qed.

Lemma append_assoc (a b c : string) : (a +:+ b) +:+ c = a +:+ (b +:+ c).
Proof.
  induction a as [|x a IH]; [done|]. by rewrite !append_String, IH.
Qed.

Lemma plainName_inv n :
  plainName n = true ->
  n <> "" /\ n <> "." /\ n <> ".." /\ slashFree n.
Proof.
  unfold plainName. rewrite !andb_true_iff, !negb_true_iff.
  intros [[[H1 H2] H3] H4].
  repeat split; try done; intros ->; discriminate.
Qed.

Lemma split_append_sep a s :
  slashFree a -> Path.split (a +:+ "/" +:+ s) = a :: Path.split s.
Proof.
  induction a as [|c a IH]; intros Ha; [done|].
  simpl in Ha. apply andb_true_iff in Ha as [Hc Ha].
  rewrite append_String. simpl. apply negb_true_iff in Hc. rewrite Hc.
  by rewrite (IH Ha).
Qed.

Lemma split_slashFree a : slashFree a -> Path.split a = [a].
Proof.
  induction a as [|c a IH]; intros Ha; [done|].
  simpl in Ha. apply andb_true_iff in Ha as [Hc Ha].
  simpl. apply negb_true_iff in Hc. rewrite Hc. by rewrite (IH Ha).
Qed.

Lemma concat_cons_cons sep (x y : string) l :
  String.concat sep (x :: y :: l) = x +:+ sep +:+ String.concat sep (y :: l).
Proof. reflexivity. Qed.

Lemma split_concat segs :
  Forall (fun n => plainName n = true) segs -> segs <> [] ->
  Path.split (String.concat "/" segs) = segs.
Proof.
  induction 1 as [|x l Hx Hl IH]; intros Hne; [done|].
  apply plainName_inv in Hx as (_ & _ & _ & Hx).
  destruct l as [|y l].
  - simpl. by apply split_slashFree.
  - rewrite concat_cons_cons, (split_append_sep _ _ Hx). f_equal. by apply IH.
Qed.

Lemma concat_snoc segs f :
  segs <> [] ->
  String.concat "/" (segs ++ [f]) = String.concat "/" segs +:+ "/" +:+ f.
Proof.
  induction segs as [|x l IH]; intros Hne; [done|].
  destruct l as [|y l]; [done|].
  change ((x :: y :: l) ++ [f]) with (x :: y :: (l ++ [f])).
  rewrite !concat_cons_cons.
  change (y :: l ++ [f]) with ((y :: l) ++ [f]).
  rewrite IH by done. by rewrite !append_assoc.
Qed.

Lemma normalizeSegments_plain allowAboveRoot segs : forall acc,
  Forall (fun n => plainName n = true) segs ->
  Path.normalizeSegments allowAboveRoot segs acc = rev acc ++ segs.
Proof.
  induction segs as [|x l IH]; intros acc Hall; simpl.
  - by rewrite app_nil_r.
  - apply Forall_cons in Hall as [Hx Hl].
    apply plainName_inv in Hx as (H1 & H2 & H3 & _).
    apply String.eqb_neq in H1, H2, H3. rewrite H1, H2, H3. simpl.
    rewrite (IH _ Hl). simpl. by rewrite <- app_assoc.
Qed.

Lemma endsWithSep_append s f :
  f <> "" -> Path.endsWithSep (s +:+ f) = Path.endsWithSep f.
Proof.
  intros Hf. induction s as [|c s IH]; [done|].
  rewrite append_String. simpl. rewrite IH.
  destruct (s +:+ f) eqn:E; [|done].
  destruct s; [change (f = "") in E; congruence|discriminate].
Qed.

Lemma endsWithSep_slashFree f : slashFree f -> Path.endsWithSep f = false.
Proof.
  induction f as [|c f IH]; intros Hf; [done|].
  simpl in Hf. apply andb_true_iff in Hf as [Hc Hf].
  simpl. destruct f; [by apply negb_true_iff|by apply IH].
Qed.

Lemma concat_nonempty x l :
  x <> "" -> String.concat "/" (x :: l) <> "".
Proof.
  intros Hx. destruct l as [|y l]; [done|].
  rewrite concat_cons_cons. destruct x; [done|discriminate].
Qed.

(** Joining a plain name onto a path in normal form appends it. *)
Lemma join_clean segs f :
  Forall (fun n => plainName n = true) segs ->
  plainName f = true ->
  Path.join ("/" +:+ String.concat "/" segs) f
  = "/" +:+ String.concat "/" (segs ++ [f]).
Proof.
  intros Hsegs Hf.
  pose proof (plainName_inv _ Hf) as (Hf1 & _ & _ & Hfree).
  unfold Path.join.
  change ("/" +:+ String.concat "/" segs) with (String "/" (String.concat "/" segs)).
  simpl String.eqb at 1. cbv iota.
  apply String.eqb_neq in Hf1 as Hf1'. rewrite Hf1'.
  rewrite append_String.
  unfold Path.normalize. simpl String.eqb at 1. cbv iota. cbv zeta.
  simpl Path.isAbsolute. simpl negb.
  assert (Hend : Path.endsWithSep
                   (String "/" (String.concat "/" segs +:+ "/" +:+ f)) = false).
  { rewrite <- append_assoc, <- append_String.
    rewrite endsWithSep_append by done. by apply endsWithSep_slashFree. }
  assert (Hnorm : Path.normalizeSegments false
            (Path.split (String "/" (String.concat "/" segs +:+ "/" +:+ f))) []
          = segs ++ [f]).
  { change (Path.split (String "/" (String.concat "/" segs +:+ "/" +:+ f)))
      with ("" :: Path.split (String.concat "/" segs +:+ "/" +:+ f)).
    destruct segs as [|x l].
    - change (String.concat "/" [] +:+ "/" +:+ f) with ("" +:+ "/" +:+ f).
      rewrite split_append_sep by done. rewrite split_slashFree by done.
      simpl. apply String.eqb_neq in Hf1 as ->.
      pose proof (plainName_inv _ Hf) as (_ & H2 & H3 & _).
      apply String.eqb_neq in H2 as ->. apply String.eqb_neq in H3 as ->.
      reflexivity.
    - rewrite <- concat_snoc by done.
      rewrite split_concat; [|apply Forall_app; split; [done|by constructor]|].
      + change (Path.normalizeSegments false ("" :: (x :: l) ++ [f]) [])
          with (Path.normalizeSegments false ((x :: l) ++ [f]) []).
        apply (normalizeSegments_plain false _ []).
        apply Forall_app. split; [done|by constructor].
      + done. }
  rewrite Hnorm, Hend.
  assert (Hbody : String.concat "/" (segs ++ [f]) <> "").
  { destruct segs as [|x l]; [done|].
    apply concat_nonempty. apply Forall_cons in Hsegs as [Hx _].
    by apply plainName_inv in Hx as [? _]. }
  apply String.eqb_neq in Hbody as ->. by rewrite append_empty_r.
Qed.

Lemma filter_nonempty_plain segs :
  Forall (fun n => plainName n = true) segs ->
  List.filter (fun seg => negb (String.eqb seg "")) segs = segs.
Proof.
  induction 1 as [|x l Hx Hl IH]; [done|]. simpl.
  apply plainName_inv in Hx as [Hx _]. apply String.eqb_neq in Hx as ->.
  simpl. by rewrite IH.
Qed.

(** The base name of a path in normal form is its last name. *)
Lemma basename_clean segs f :
  Forall (fun n => plainName n = true) segs ->
  plainName f = true ->
  Path.basename ("/" +:+ String.concat "/" (segs ++ [f])) = f.
Proof.
  intros Hsegs Hf. unfold Path.basename.
  change (Path.split ("/" +:+ String.concat "/" (segs ++ [f])))
    with ("" :: Path.split (String.concat "/" (segs ++ [f]))).
  assert (Hall : Forall (fun n => plainName n = true) (segs ++ [f])).
  { apply Forall_app. split; [done|by constructor]. }
  rewrite split_concat; [|done|by destruct segs].
  simpl. rewrite filter_nonempty_plain by done. apply last_last.
Qed.

Lemma cleanAbsolute_join p f :
  cleanAbsolute p -> plainName f = true ->
  cleanAbsolute (Path.join p f) /\ Path.basename (Path.join p f) = f.
Proof.
  intros (segs & Hsegs & ->) Hf. rewrite join_clean by done. split.
  - exists (segs ++ [f]). split; [|done].
    apply Forall_app. split; [done|by constructor].
  - by apply basename_clean.
Qed.

Lemma new_cleanAbsolute callerDir p :
  cleanAbsolute p -> SuperFSDir.new callerDir p = p.
Proof. by intros (segs & _ & ->). Qed.

End PathFacts.

(** ** A recursive read of a tree *)

Section ReadTree.

Variable callerDir : string.
Variable fs : gmap string fsobj.
Variable root : string.

Local Abbreviation read := (SuperFSDir.read callerDir).
Local Abbreviation plain := (fun n : string => plainName n = true).

Lemma relativeOf_readUnder skipF addP prefix n :
  Forall plain prefix ->
  SuperFSDir.relativeOf (readUnder skipF addP (String.concat "/" prefix)) n
  = String.concat "/" (prefix ++ [n]).
Proof.
  intros Hprefix. unfold SuperFSDir.relativeOf. simpl relativePath.
  destruct prefix as [|x l]; [done|].
  assert (Hne : String.concat "/" (x :: l) <> "").
  { apply concat_nonempty. apply Forall_cons in Hprefix as [Hx _].
    by apply plainName_inv in Hx as [? _]. }
  apply String.eqb_neq in Hne as ->. by rewrite concat_snoc.
Qed.

Lemma holds_stat p t :
  holds fs p t ->
  FSTools.stat fs p
  = Resolved (match t with
              | TFile _ m => Fs.mkStats true false m
              | TDir m _ => Fs.mkStats false true m
              end).
Proof.
  unfold FSTools.stat, Fs.stat. destruct t as [data m|m cs]; simpl.
  - by intros ->.
  - by intros [-> _].
Qed.

Lemma holds_create p t :
  holds fs p t ->
  SuperFSDir.create fs p
  = Resolved (mkEntry p (Path.basename p) (Path.dirname p)
                      (negb (isTDir t)) (isTDir t)
                      (match t with TFile _ m => m | TDir m _ => m end)
                      None None None).
Proof.
  intros H. unfold SuperFSDir.create, Fs.lstat.
  fold (FSTools.stat fs p). rewrite (holds_stat _ _ H). by destruct t.
Qed.

(** The loop of [read] over the children of a directory of the tree,
    given that the directories among them can be read. *)
Lemma read_children skipF fuel addP prefix p :
  Forall plain prefix ->
  cleanAbsolute p ->
  p = fold_left Path.join prefix root ->
  (forall t' prefix' p',
      Forall plain prefix' -> cleanAbsolute p' ->
      p' = fold_left Path.join prefix' root ->
      wellFormed t' -> holds fs p' t' -> isTDir t' = true ->
      depth t' <= fuel ->
      exists out,
        read fuel fs (readUnder skipF false (String.concat "/" prefix')) p'
        = Resolved out /\
        Forall2 (describes root) out
                (List.filter (reported skipF) (descendants prefix' t'))) ->
  forall children,
    fold_right (fun nc acc =>
                  plainName (fst nc) = true /\ wellFormed (snd nc) /\ acc)
               True children ->
    fold_right (fun nc acc => holds fs (Path.join p (fst nc)) (snd nc) /\ acc)
               True children ->
    fold_right (fun nc acc => Nat.max (depth (snd nc)) acc) 0 children <= fuel ->
    exists pushes,
      Forall2 (pushedBy callerDir fuel fs
                 (readUnder skipF addP (String.concat "/" prefix)) p)
              (map fst children) pushes /\
      Forall2 (describes root) (concat pushes)
              (List.filter (reported skipF)
                 (flat_map (fun nc =>
                              (prefix ++ [fst nc], isTDir (snd nc))
                                :: descendants (prefix ++ [fst nc]) (snd nc))
                           children)).
Proof.
  intros Hprefix Hp Hroot IH.
  induction children as [|[n c] cs IHcs]; simpl; intros Hwf Hholds Hdepth.
  - exists []. split; constructor.
  - destruct Hwf as (Hn & Hwfc & Hwf). destruct Hholds as (Hc & Hholds).
    destruct (IHcs Hwf Hholds) as (pushes & Hpushes & Hdesc); [lia|].
    destruct (cleanAbsolute_join p n Hp Hn) as [Hclean Hbase].
    assert (Hrel := relativeOf_readUnder skipF addP prefix n Hprefix).
    assert (Hpath : Path.join p n = fold_left Path.join (prefix ++ [n]) root).
    { by rewrite fold_left_app, <- Hroot. }
    assert (Hown : describes root
              (setRelative
                 (mkEntry (Path.join p n) (Path.basename (Path.join p n))
                          (Path.dirname (Path.join p n))
                          (negb (isTDir c)) (isTDir c)
                          (match c with TFile _ m => m | TDir m _ => m end)
                          None None None)
                 (String.concat "/" (prefix ++ [n])))
              (prefix ++ [n], isTDir c)).
    { unfold describes. simpl. rewrite Hbase, last_last. by repeat split. }
    rewrite Hbase in Hown. rewrite List.filter_app.
    destruct c as [data m|m cs'].
    + (* a file *)
      assert (Hpushed : exists pushed,
                 pushedBy callerDir fuel fs
                   (readUnder skipF addP (String.concat "/" prefix)) p n pushed /\
                 Forall2 (describes root) pushed
                   (if reported skipF (prefix ++ [n], false)
                    then [(prefix ++ [n], false)] else [])).
      { unfold pushedBy, SuperFSDir.readEntry.
        rewrite (holds_stat _ _ Hc). simpl.
        unfold SuperFSDir.createFile. rewrite (holds_create _ _ Hc). simpl.
        rewrite Hbase, Hrel. unfold reported. simpl.
        destruct skipF; simpl; eexists; (split; [reflexivity|]);
          [constructor|constructor; [exact Hown|constructor]]. }
      destruct Hpushed as (pushed & Hpushed & Hpd).
      exists (pushed :: pushes). split; [by constructor|].
      simpl. destruct (reported skipF (prefix ++ [n], false)).
      * inversion Hpd as [|e0 d0 l0 k0 He0 Hnil]; subst.
        inversion Hnil; subst. simpl. by constructor.
      * inversion Hpd; subst. exact Hdesc.
    + (* a directory *)
      destruct (IH (TDir m cs') (prefix ++ [n]) (Path.join p n))
        as (subFiles & Hsub & Hsubdesc); try done.
      { apply Forall_app. split; [done|by constructor]. }
      { lia. }
      eexists (_ :: pushes). split.
      * constructor; [|exact Hpushes].
        unfold pushedBy, SuperFSDir.readEntry.
        rewrite (holds_stat _ _ Hc). simpl.
        rewrite (new_cleanAbsolute _ _ Hclean).
        rewrite (holds_create _ _ Hc). simpl.
        rewrite Hbase, Hrel.
        unfold SuperFSDir.subOptions. simpl. rewrite Hrel.
        fold (readUnder skipF false (String.concat "/" (prefix ++ [n]))).
        rewrite Hsub. simpl. rewrite pushSubFiles_filter. simpl.
        rewrite (List.forallb_filter_id _ subFiles); [reflexivity|].
        by apply forallb_forall.
      * unfold reported at 1. simpl.
        constructor; [exact Hown|].
        apply Forall2_app; [exact Hsubdesc|exact Hdesc].
Qed.

(** A recursive read of a directory of the tree returns the descendants
    it reports, one entry each, in order. *)
Lemma read_tree skipF fuel : forall t prefix p,
  Forall plain prefix ->
  cleanAbsolute p ->
  p = fold_left Path.join prefix root ->
  wellFormed t -> holds fs p t -> isTDir t = true ->
  depth t <= fuel ->
  exists out,
    read fuel fs (readUnder skipF false (String.concat "/" prefix)) p
    = Resolved out /\
    Forall2 (describes root) out
            (List.filter (reported skipF) (descendants prefix t)).
Proof.
  induction fuel as [|fuel IH]; intros t prefix p Hprefix Hp Hroot Hwf Hholds
    Hdir Hdepth.
  - destruct t; [discriminate|simpl in Hdepth; lia].
  - destruct t as [|m children]; [discriminate|].
    destruct Hwf as [_ Hwf]. destruct Hholds as [Hlookup Hholds].
    simpl in Hdepth.
    destruct (read_children skipF fuel false prefix p Hprefix Hp Hroot
                IH children Hwf Hholds) as (pushes & Hpushes & Hdesc); [lia|].
    exists (concat pushes). split; [|exact Hdesc].
    apply read_resolved_iff. exists [], (map fst children), pushes.
    split; [reflexivity|]. split; [|split; [exact Hpushes|reflexivity]].
    unfold FSTools.readDir, Fs.readdir. by rewrite Hlookup.
Qed.

(** The same read from the root, which may ask for the entry of the root
    itself. *)
Lemma read_tree_from_root skipF fuel addP t :
  cleanAbsolute root ->
  wellFormed t -> holds fs root t -> isTDir t = true ->
  depth t <= fuel ->
  exists rootEntry out,
    SuperFSDir.create fs root = Resolved rootEntry /\
    path rootEntry = root /\ isDir rootEntry = true /\
    read fuel fs (readUnder skipF addP "") root
    = Resolved ((if addP then [rootEntry] else []) ++ out) /\
    Forall2 (describes root) out
            (List.filter (reported skipF) (descendants [] t)).
Proof.
  intros Hroot Hwf Hholds Hdir Hdepth.
  destruct fuel as [|fuel]; [destruct t; [discriminate|simpl in Hdepth; lia]|].
  destruct t as [|m children]; [discriminate|].
  pose proof (holds_create _ _ Hholds) as Hcreate.
  destruct Hwf as [_ Hwf]. destruct Hholds as [Hlookup Hholds].
  simpl in Hdepth.
  destruct (read_children skipF fuel addP [] root (List.Forall_nil _) Hroot
              eq_refl (read_tree skipF fuel) children Hwf Hholds)
    as (pushes & Hpushes & Hdesc); [lia|].
  simpl in Hcreate.
  set (rootEntry := mkEntry root (Path.basename root) (Path.dirname root)
                            false true m None None None) in *.
  exists rootEntry, (concat pushes). split; [exact Hcreate|].
  split; [reflexivity|]. split; [reflexivity|]. split; [|exact Hdesc].
  apply read_resolved_iff.
  exists (if addP then [rootEntry] else []), (map fst children), pushes.
  split; [|split; [|split; [exact Hpushes|reflexivity]]].
  - unfold parentEntries. simpl addParent. destruct addP; [|reflexivity].
    rewrite Hcreate. reflexivity.
  - unfold FSTools.readDir, Fs.readdir. by rewrite Hlookup.
Qed.

End ReadTree.

(** ** The descendants of a well-formed tree are distinct *)

Lemma tree_induction (P : tree -> Prop) :
  (forall data m, P (TFile data m)) ->
  (forall m children,
      Forall (fun nc => P (snd nc)) children -> P (TDir m children)) ->
  forall t, P t.
Proof.
  intros Hfile Hdir.
  fix IH 1. intros [data m|m children].
  - apply Hfile.
  - apply Hdir. induction children as [|nc l IHl]; constructor.
    + apply IH.
    + exact IHl.
Qed.

Lemma descendants_shape t : forall prefix d,
  In d (descendants prefix t) ->
  exists n rest,
    fst d = prefix ++ n :: rest /\
    match t with
    | TDir _ children => In n (map fst children)
    | TFile _ _ => False
    end.
Proof.
  induction t as [data m|m children IH] using tree_induction;
    intros prefix d Hd; simpl in Hd; [done|].
  induction children as [|[n c] cs IHcs]; simpl in Hd; [done|].
  apply Forall_cons in IH as [IHc IH].
  destruct Hd as [<-|Hd].
  - exists n, []. split; [done|]. by left.
  - apply in_app_or in Hd as [Hd|Hd].
    + destruct (IHc _ _ Hd) as (k & rest & -> & _).
      exists n, (k :: rest). split; [by rewrite <- app_assoc|]. by left.
    + destruct (IHcs IH Hd) as (k & rest & Hk & Hin).
      exists k, rest. split; [done|]. by right.
Qed.

Lemma descendants_plain t : forall prefix d,
  wellFormed t ->
  Forall (fun n => plainName n = true) prefix ->
  In d (descendants prefix t) ->
  Forall (fun n => plainName n = true) (fst d) /\ fst d <> [].
Proof.
  induction t as [data m|m children IH] using tree_induction;
    intros prefix d Hwf Hprefix Hd; simpl in Hd; [done|].
  destruct Hwf as [_ Hwf].
  induction children as [|[n c] cs IHcs]; simpl in Hd; [done|].
  apply Forall_cons in IH as [IHc IH]. destruct Hwf as (Hn & Hwfc & Hwf).
  assert (Hpn : Forall (fun n => plainName n = true) (prefix ++ [n])).
  { apply Forall_app. split; [done|by constructor]. }
  destruct Hd as [<-|Hd].
  - split; [exact Hpn|]. simpl. by destruct prefix.
  - apply in_app_or in Hd as [Hd|Hd].
    + by apply (IHc (prefix ++ [n])).
    + by apply IHcs.
Qed.

Lemma descendants_NoDup t : forall prefix,
  wellFormed t -> NoDup (map fst (descendants prefix t)).
Proof.
  induction t as [data m|m children IH] using tree_induction;
    intros prefix Hwf; simpl; [constructor|].
  destruct Hwf as [Hnodup Hwf].
  induction children as [|[n c] cs IHcs]; simpl; [constructor|].
  apply Forall_cons in IH as [IHc IH]. destruct Hwf as (Hn & Hwfc & Hwf).
  simpl in Hnodup. apply NoDup_cons in Hnodup as [Hnotin Hnodup].
  assert (Hrest : forall d,
             In d (flat_map
                     (fun nc => (prefix ++ [fst nc], isTDir (snd nc))
                                  :: descendants (prefix ++ [fst nc]) (snd nc))
                     cs) ->
             exists k rest, fst d = prefix ++ k :: rest /\ In k (map fst cs)).
  { intros d Hd.
    exact (descendants_shape (TDir m cs) prefix d Hd). }
  rewrite map_app. apply NoDup_cons. split.
  - rewrite list_elem_of_In, in_app_iff, !in_map_iff.
    intros [(d & Hfst & Hd)|(d & Hfst & Hd)].
    + destruct (descendants_shape _ _ _ Hd) as (k & rest & Hk & _).
      rewrite Hk, <- app_assoc in Hfst. apply app_inv_head in Hfst.
      discriminate.
    + destruct (Hrest _ Hd) as (k & rest & Hk & Hin).
      rewrite Hk in Hfst. apply app_inv_head in Hfst.
      injection Hfst as -> _. apply Hnotin. by apply list_elem_of_In.
  - apply NoDup_app. split; [by apply IHc|]. split; [|by apply IHcs].
    intros l. rewrite !list_elem_of_In, !in_map_iff.
    intros (d & Hfst & Hd) (d' & Hfst' & Hd').
    destruct (descendants_shape _ _ _ Hd) as (k & rest & Hk & _).
    destruct (Hrest _ Hd') as (k' & rest' & Hk' & Hin).
    rewrite <- Hfst', Hk', Hk, <- app_assoc in Hfst.
    apply app_inv_head in Hfst. injection Hfst as <- _.
    apply Hnotin. by apply list_elem_of_In.
Qed.

Lemma concat_plain_inj l1 l2 :
  Forall (fun n => plainName n = true) l1 -> l1 <> [] ->
  Forall (fun n => plainName n = true) l2 -> l2 <> [] ->
  String.concat "/" l1 = String.concat "/" l2 -> l1 = l2.
Proof.
  intros H1 N1 H2 N2 E.
  rewrite <- (split_concat l1 H1 N1), <- (split_concat l2 H2 N2).
  by rewrite E.
Qed.

Lemma fold_join_clean segs comps :
  Forall (fun n => plainName n = true) segs ->
  Forall (fun n => plainName n = true) comps ->
  fold_left Path.join comps ("/" +:+ String.concat "/" segs)
  = "/" +:+ String.concat "/" (segs ++ comps).
Proof.
  intros Hsegs Hcomps. revert segs Hsegs.
  induction Hcomps as [|n l Hn Hl IH]; intros segs Hsegs; simpl.
  - by rewrite app_nil_r.
  - rewrite join_clean by done. rewrite IH.
    + by rewrite <- app_assoc.
    + apply Forall_app. split; [done|by constructor].
Qed.

Lemma Forall2_In_left {A B} (P : A -> B -> Prop) l k x :
  Forall2 P l k -> In x l -> exists y, In y k /\ P x y.
Proof.
  induction 1 as [|a b l k Hab HF IH]; intros Hx; [done|].
  destruct Hx as [<-|Hx].
  - exists b. split; [by left|done].
  - destruct (IH Hx) as (y & Hy & Hxy). exists y. split; [by right|done].
Qed.

Lemma describes_NoDup root out ds :
  cleanAbsolute root ->
  Forall2 (describes root) out ds ->
  (forall d, In d ds ->
             Forall (fun n => plainName n = true) (fst d) /\ fst d <> []) ->
  NoDup (map fst ds) ->
  NoDup (map relative out) /\ NoDup (map path out).
Proof.
  intros (segs & Hsegs & ->) HF.
  induction HF as [|e d out ds He HF IH]; intros Hplain Hnodup; simpl.
  - split; constructor.
  - simpl in Hnodup. apply NoDup_cons in Hnodup as [Hnotin Hnodup].
    destruct IH as [IHrel IHpath]; [intros; apply Hplain; by right|done|].
    destruct (Hplain d) as [Hd Hdne]; [by left|].
    destruct He as (Hrel & Hpath & _).
    assert (Hsame : forall e' d',
               In d' ds -> describes ("/" +:+ String.concat "/" segs) e' d' ->
               relative e' = relative e \/ path e' = path e -> False).
    { intros e' d' Hd' (Hrel' & Hpath' & _) Heq.
      destruct (Hplain d') as [Hpd' Hd'ne]; [by right|].
      apply Hnotin. apply list_elem_of_In, in_map_iff. exists d'.
      split; [|done]. destruct Heq as [Heq|Heq].
      - rewrite Hrel, Hrel' in Heq. injection Heq as Heq.
        by apply concat_plain_inj.
      - rewrite Hpath, Hpath', !fold_join_clean in Heq by done.
        injection Heq as Heq. apply concat_plain_inj in Heq.
        + by apply app_inv_head in Heq.
        + apply Forall_app. by split.
        + by destruct segs, (fst d').
        + apply Forall_app. by split.
        + by destruct segs, (fst d). }
    split; (apply NoDup_cons; split; [|done]);
      rewrite list_elem_of_In, in_map_iff; intros (e' & Heq & He');
      destruct (Forall2_In_left _ _ _ _ HF He') as (d' & Hd' & Hdesc);
      apply (Hsame e' d' Hd' Hdesc); auto.
Qed.

(** The full recursive read of a file system that holds a well-formed
    tree at a normal absolute path. *)
Lemma read_held_tree
    callerDir (fs : gmap string fsobj) (root : string) (t : tree) fuel :
  cleanAbsolute root ->
  wellFormed t ->
  holds fs root t ->
  isTDir t = true ->
  depth t <= fuel ->
  exists out,
    SuperFSDir.read callerDir fuel fs SuperFSDir.readAll root = Resolved out /\
    Forall2 (describes root) out (descendants [] t) /\
    NoDup (map relative out) /\
    NoDup (map path out).
Proof.
  intros Hroot Hwf Hholds Hdir Hdepth.
  destruct (read_tree callerDir fs root false fuel t [] root)
    as (out & Hread & Hdesc); try done.
  rewrite (List.forallb_filter_id (reported false)) in Hdesc
    by (apply forallb_forall; intros d _; apply orb_true_r).
  exists out. split; [exact Hread|]. split; [exact Hdesc|].
  apply (describes_NoDup root out (descendants [] t)); try done.
  - intros d Hd. by apply (descendants_plain t []).
  - by apply descendants_NoDup.
Qed.

(** C2: a full recursive read, with no filter, ignore or skip option, of
    a file system that holds a well-formed tree at a normal absolute
    path resolves, given fuel for the depth of the tree, with exactly one
    entry for every file and directory below the root, parents before
    their contents; the relative path of each entry is the names on the
    way to it joined by ["/"], and no relative path and no path occurs
    twice. *)
Theorem C2_recursive_read_returns_every_descendant_once
    callerDir (fs : gmap string fsobj) (root : string) (t : tree) fuel :
  cleanAbsolute root ->
  wellFormed t ->
  holds fs root t ->
  isTDir t = true ->
  depth t <= fuel ->
  exists out,
    SuperFSDir.read callerDir fuel fs SuperFSDir.readAll root = Resolved out /\
    Forall2 (describes root) out (descendants [] t) /\
    NoDup (map relative out) /\
    NoDup (map path out).
Proof. apply read_held_tree. Qed.

Lemma sampleTree_wellFormed : wellFormed sampleTree.
Proof.
  simpl.
  repeat match goal with
         | |- _ /\ _ => split
         | |- NoDup [] => apply NoDup_nil_2
         | |- NoDup (_ :: _) => apply NoDup_cons_2
         | |- _ ∉ _ =>
             rewrite ?not_elem_of_cons; repeat split;
             [discriminate .. | apply not_elem_of_nil]
         | |- True => exact I
         | |- _ = true => reflexivity
         end.
Qed.

Lemma C2_witness :
  exists out,
    SuperFSDir.read "/lib" 3 sampleFiles SuperFSDir.readAll "/root" = Resolved out /\
    Forall2 (describes "/root") out
      [(["a.txt"], false); (["sub"], true); (["sub"; "b.txt"], false);
       (["sub"; "deep"], true)] /\
    NoDup (map relative out) /\
    NoDup (map path out).
Proof.
  apply (C2_recursive_read_returns_every_descendant_once "/lib" sampleFiles
           "/root" sampleTree 3).
  - exists ["root"]. split; [by repeat constructor|reflexivity].
  - exact sampleTree_wellFormed.
  - simpl. vm_compute. tauto.
  - reflexivity.
  - simpl. lia.
Defined.

(** ** Every well-formed tree is held by a file system *)

Section Mount.

Local Abbreviation plain := (fun n : string => plainName n = true).

Lemma resolve_clean segs :
  Forall plain segs ->
  Path.resolve ("/" +:+ String.concat "/" segs) = "/" +:+ String.concat "/" segs.
Proof.
  intros Hsegs. unfold Path.resolve.
  change (Path.isAbsolute ("/" +:+ String.concat "/" segs)) with true.
  cbv iota. simpl negb.
  change (Path.split ("/" +:+ String.concat "/" segs))
    with ("" :: Path.split (String.concat "/" segs)).
  destruct segs as [|x l]; [reflexivity|].
  rewrite split_concat by done.
  change (Path.normalizeSegments false ("" :: x :: l) [])
    with (Path.normalizeSegments false (x :: l) []).
  by rewrite (normalizeSegments_plain false _ []).
Qed.

Lemma clean_path_inj segs l1 l2 :
  Forall plain segs -> Forall plain l1 -> Forall plain l2 ->
  "/" +:+ String.concat "/" (segs ++ l1) = "/" +:+ String.concat "/" (segs ++ l2) ->
  l1 = l2.
Proof.
  intros Hsegs H1 H2 E. injection E as E.
  destruct (decide (segs ++ l1 = [])) as [E1|N1];
    destruct (decide (segs ++ l2 = [])) as [E2|N2].
  - apply app_eq_nil in E1 as [_ ->]. by apply app_eq_nil in E2 as [_ ->].
  - rewrite E1 in E. exfalso. destruct (segs ++ l2) as [|x l] eqn:E3; [done|].
    assert (Hx : plainName x = true).
    { assert (Hall : Forall plain (segs ++ l2)) by (apply Forall_app; by split).
      rewrite E3 in Hall. by apply Forall_cons in Hall as [? _]. }
    apply plainName_inv in Hx as [Hx _].
    by apply (concat_nonempty x l Hx).
  - rewrite E2 in E. exfalso. destruct (segs ++ l1) as [|x l] eqn:E3; [done|].
    assert (Hx : plainName x = true).
    { assert (Hall : Forall plain (segs ++ l1)) by (apply Forall_app; by split).
      rewrite E3 in Hall. by apply Forall_cons in Hall as [? _]. }
    apply plainName_inv in Hx as [Hx _].
    by apply (concat_nonempty x l Hx).
  - apply concat_plain_inj in E; try done; try (apply Forall_app; by split).
    by apply app_inv_head in E.
Qed.

(** The keys of a mounted tree lie below the mount point. *)
Lemma mount_keys t : forall segs k,
  Forall plain segs -> wellFormed t ->
  is_Some (mount ("/" +:+ String.concat "/" segs) t !! k) ->
  exists comps,
    Forall plain comps /\ k = "/" +:+ String.concat "/" (segs ++ comps).
Proof.
  induction t as [data m|m children IH] using tree_induction;
    intros segs k Hsegs Hwf Hk; simpl in Hk.
  - apply lookup_singleton_is_Some in Hk as <-.
    exists []. by rewrite app_nil_r.
  - destruct (decide ("/" +:+ String.concat "/" segs = k)) as [<-|Hne].
    { exists []. by rewrite app_nil_r. }
    rewrite lookup_insert_ne in Hk by done.
    destruct Hwf as [_ Hwf].
    induction children as [|[n c] cs IHcs]; simpl in Hk.
    { rewrite lookup_empty in Hk. by destruct Hk. }
    apply Forall_cons in IH as [IHc IH]. destruct Hwf as (Hn & Hwfc & Hwf).
    apply lookup_union_is_Some in Hk as [Hk|Hk].
    + rewrite join_clean in Hk by done.
      destruct (IHc (segs ++ [n]) k) as (comps & Hcomps & ->); try done.
      { apply Forall_app. split; [done|by constructor]. }
      exists (n :: comps). split; [by constructor|]. by rewrite <- app_assoc.
    + by apply IHcs.
Qed.

(** Whether a tree is held at a path depends only on what lies below
    that path. *)
Lemma holds_agree fs fs' t : forall segs,
  Forall plain segs -> wellFormed t ->
  (forall comps,
      Forall plain comps ->
      fs' !! ("/" +:+ String.concat "/" (segs ++ comps))
      = fs !! ("/" +:+ String.concat "/" (segs ++ comps))) ->
  holds fs ("/" +:+ String.concat "/" segs) t ->
  holds fs' ("/" +:+ String.concat "/" segs) t.
Proof.
  induction t as [data m|m children IH] using tree_induction;
    intros segs Hsegs Hwf Hagree; simpl; unfold Fs.lookup;
    rewrite (resolve_clean segs Hsegs);
    pose proof (Hagree [] (List.Forall_nil _)) as Hhere;
    rewrite app_nil_r in Hhere; rewrite Hhere; [done|].
  intros [Hlookup Hchildren]. split; [done|]. clear Hlookup Hhere.
  destruct Hwf as [_ Hwf].
  induction children as [|[n c] cs IHcs]; simpl; [done|].
  apply Forall_cons in IH as [IHc IH]. destruct Hwf as (Hn & Hwfc & Hwf).
  destruct Hchildren as [Hc Hcs]. split; [|by apply IHcs].
  simpl in *. rewrite join_clean in Hc |- * by done.
  apply IHc; try done.
  - apply Forall_app. split; [done|by constructor].
  - intros comps Hcomps. rewrite <- app_assoc. apply Hagree. by constructor.
Qed.

Lemma mount_elsewhere segs n n' c comps :
  Forall plain segs -> plainName n = true -> plainName n' = true ->
  Forall plain comps -> wellFormed c -> n' <> n ->
  mount (Path.join ("/" +:+ String.concat "/" segs) n') c
    !! ("/" +:+ String.concat "/" (segs ++ n :: comps)) = None.
Proof.
  intros Hsegs Hn Hn' Hcomps Hwf Hne.
  destruct (mount _ c !! _) eqn:E; [|done]. exfalso.
  rewrite join_clean in E by done.
  destruct (mount_keys c (segs ++ [n'])
              ("/" +:+ String.concat "/" (segs ++ n :: comps)))
    as (comps' & Hcomps' & Heq);
    [apply Forall_app; split; [done|by constructor]|done|by rewrite E|].
  rewrite <- app_assoc in Heq. apply clean_path_inj in Heq; try done.
  - injection Heq as -> _. done.
  - by constructor.
  - by constructor.
Qed.

Lemma mount_children_lookup segs n c comps : forall children,
  Forall plain segs -> Forall plain comps ->
  NoDup (map fst children) ->
  fold_right (fun nc acc =>
                plainName (fst nc) = true /\ wellFormed (snd nc) /\ acc)
             True children ->
  (In (n, c) children ->
   fold_right (fun nc acc =>
                 mount (Path.join ("/" +:+ String.concat "/" segs) (fst nc))
                       (snd nc) ∪ acc) ∅ children
     !! ("/" +:+ String.concat "/" (segs ++ n :: comps))
   = mount (Path.join ("/" +:+ String.concat "/" segs) n) c
       !! ("/" +:+ String.concat "/" (segs ++ n :: comps)))
  /\ (plainName n = true -> ~ In n (map fst children) ->
      fold_right (fun nc acc =>
                    mount (Path.join ("/" +:+ String.concat "/" segs) (fst nc))
                          (snd nc) ∪ acc) ∅ children
        !! ("/" +:+ String.concat "/" (segs ++ n :: comps)) = None).
Proof.
  intros children Hsegs Hcomps.
  induction children as [|[n0 c0] cs IH]; simpl; intros Hnodup Hwf.
  - split; [done|]. intros _ _. apply lookup_empty.
  - apply NoDup_cons in Hnodup as [Hnotin Hnodup].
    destruct Hwf as (Hn0 & Hwf0 & Hwf).
    destruct (IH Hnodup Hwf) as [IHin IHout]. split.
    + intros [[= -> ->]|Hin].
      * destruct (mount _ c !! _) as [o|] eqn:E.
        { by apply lookup_union_Some_l. }
        rewrite lookup_union_r by done. apply IHout; [done|].
        intros H. apply Hnotin. by apply list_elem_of_In.
      * assert (Hn : plainName n = true /\ n0 <> n).
        { split.
          - clear -Hwf Hin. induction cs as [|[a b] cs IHcs]; [done|].
            destruct Hwf as (Ha & _ & Hwf). destruct Hin as [[= -> ->]|Hin]; auto.
          - intros ->. apply Hnotin. apply list_elem_of_In, in_map_iff.
            by exists (n, c). }
        destruct Hn as [Hn Hne].
        rewrite lookup_union_r; [by apply IHin|].
        by apply mount_elsewhere.
    + intros Hn Hout.
      rewrite lookup_union_r; [apply IHout; tauto|].
      apply mount_elsewhere; try done. intros ->. tauto.
Qed.

(** The mounted tree is held at its mount point. *)
Lemma mount_holds t : forall segs,
  Forall plain segs -> wellFormed t ->
  holds (mount ("/" +:+ String.concat "/" segs) t)
        ("/" +:+ String.concat "/" segs) t.
Proof.
  induction t as [data m|m children IH] using tree_induction;
    intros segs Hsegs Hwf; simpl; unfold Fs.lookup;
    rewrite (resolve_clean segs Hsegs).
  - apply lookup_singleton_eq.
  - split; [apply lookup_insert_eq|].
    destruct Hwf as [Hnodup Hwf].
    assert (Hall : forall n c, In (n, c) children ->
               plainName n = true /\ wellFormed c /\
               holds (mount (Path.join ("/" +:+ String.concat "/" segs) n) c)
                     (Path.join ("/" +:+ String.concat "/" segs) n) c).
    { clear Hnodup. intros n c Hin.
      induction children as [|[a b] cs IHcs]; [done|].
      apply Forall_cons in IH as [IHb IH]. destruct Hwf as (Ha & Hb & Hwf).
      destruct Hin as [[= -> ->]|Hin]; [|by apply IHcs].
      split; [done|]. split; [done|].
      rewrite join_clean by done. apply IHb; [|done].
      apply Forall_app. split; [done|by constructor]. }
    assert (Hgoal : forall n c, In (n, c) children ->
               holds (<[ "/" +:+ String.concat "/" segs := Dir (map fst children) m ]>
                        (fold_right
                           (fun nc acc =>
                              mount (Path.join ("/" +:+ String.concat "/" segs)
                                               (fst nc)) (snd nc) ∪ acc)
                           ∅ children))
                     (Path.join ("/" +:+ String.concat "/" segs) n) c).
    { intros n c Hin. destruct (Hall n c Hin) as (Hn & Hwfc & Hheld).
      rewrite join_clean in Hheld |- * by done.
      eapply holds_agree; [| |  |exact Hheld]; try done.
      { apply Forall_app. split; [done|by constructor]. }
      intros comps Hcomps. rewrite <- app_assoc. simpl.
      rewrite lookup_insert_ne.
      - rewrite <- (join_clean segs n) by done.
        by apply (mount_children_lookup segs n c comps children).
      - intros E. rewrite <- (app_nil_r segs) in E at 1.
        by apply clean_path_inj in E; [| | |constructor]. }
    clear -Hgoal. set (fs := <[_ := _]> _) in *. clearbody fs.
    induction children as [|[a b] cs IHcs]; simpl; [done|]. split.
    + apply Hgoal. by left.
    + apply IHcs. intros n c Hin. apply Hgoal. by right.
Qed.

(** Hence every well-formed directory tree, mounted at a normal absolute
    path, is read in full. *)
Lemma read_mounted_tree callerDir (root : string) (t : tree) :
  cleanAbsolute root ->
  wellFormed t ->
  isTDir t = true ->
  exists out,
    SuperFSDir.read callerDir (depth t) (mount root t) SuperFSDir.readAll root
    = Resolved out /\
    Forall2 (describes root) out (descendants [] t) /\
    NoDup (map relative out) /\
    NoDup (map path out).
Proof.
  intros Hroot Hwf Hdir. apply read_held_tree; try done.
  destruct Hroot as (segs & Hsegs & ->). by apply mount_holds.
Qed.

End Mount.

(** ** Which targets the [mkdir] helper leaves out *)

(** The parent of a directory directly below the root normalizes to
    ["/"]. *)
Lemma join_parent_of_top_level n :
  plainName n = true -> Path.join ("/" +:+ n) "../" = "/".
Proof.
  intros Hn. pose proof (plainName_inv _ Hn) as (H1 & H2 & H3 & Hfree).
  assert (Hsplit : Path.split (("/" +:+ n) +:+ "/" +:+ "../")
                   = [""; n; ".."; ""]).
  { change (("/" +:+ n) +:+ "/" +:+ "../")
      with (String "/" (n +:+ "/" +:+ "../")).
    change (Path.split (String "/" (n +:+ "/" +:+ "../")))
      with ("" :: Path.split (n +:+ "/" +:+ "../")).
    by rewrite (split_append_sep n "../" Hfree). }
  unfold Path.join, Path.normalize. rewrite Hsplit.
  change (("/" +:+ n) +:+ "/" +:+ "../")
    with (String "/" (n +:+ "/" +:+ "../")).
  simpl. apply String.eqb_neq in H1 as ->. apply String.eqb_neq in H2 as ->.
  apply String.eqb_neq in H3 as ->. reflexivity.
Qed.

(** So the helper never creates a missing directory directly below the
    root. *)
Lemma mkdir_helper_top_level fuel n (w : World) :
  plainName n = true ->
  Fs.access (files w) ("/" +:+ n) <> None ->
  MkdirHelper.mkdir (S fuel) ("/" +:+ n) w = (Resolved None, w).
Proof.
  intros Hn Hacc. simpl.
  destruct (Fs.access (files w) ("/" +:+ n)); [|done].
  by rewrite (join_parent_of_top_level n Hn).
Qed.

(** ** [watch] and [delete] on a tree *)

(** C8, as amended: on a file system that holds a well-formed tree at a
    normal absolute path, [watch] enumerates the root and every
    directory below it, attaches a listener to exactly the enumerated
    directories whose full path the ignore matcher does not match, in
    the order of the enumeration, changes nothing else, and resolves with
    the whole enumeration, the directories it skipped included. *)
Theorem C8_watch_listeners_and_result
    callerDir fuel (w : World) (root : string) (t : tree) opts_ignore :
  cleanAbsolute root ->
  wellFormed t ->
  holds (files w) root t ->
  isTDir t = true ->
  depth t <= fuel ->
  exists rootEntry dirs,
    SuperFSDir.create (files w) root = Resolved rootEntry /\
    path rootEntry = root /\ isDir rootEntry = true /\
    Forall2 (describes root) dirs
            (List.filter (reported true) (descendants [] t)) /\
    SuperFSDir.watch callerDir fuel root opts_ignore w
    = (Resolved (rootEntry :: dirs),
       mkWorld (files w)
         (events w ++ map (fun fl => EvWatch (path fl))
                          (List.filter
                             (fun fl => negb (watchSkips opts_ignore fl))
                             (rootEntry :: dirs)))).
Proof.
  intros Hroot Hwf Hholds Hdir Hdepth.
  destruct (read_tree_from_root callerDir (files w) root true fuel true t)
    as (rootEntry & dirs & Hcreate & Hpath & Hisdir & Hread & Hdesc);
    try done.
  exists rootEntry, dirs. repeat (split; [done|]).
  by apply watch_after_read.
Qed.

Lemma C8_witness :
  exists rootEntry dirs,
    SuperFSDir.create sampleFiles "/root" = Resolved rootEntry /\
    path rootEntry = "/root" /\ isDir rootEntry = true /\
    Forall2 (describes "/root") dirs [(["sub"], true); (["sub"; "deep"], true)] /\
    SuperFSDir.watch "/lib" 3 "/root" (Some (isExactly "/root/sub")) sampleWorld
    = (Resolved (rootEntry :: dirs),
       mkWorld sampleFiles
         (map (fun fl => EvWatch (path fl))
              (List.filter
                 (fun fl => negb (watchSkips (Some (isExactly "/root/sub")) fl))
                 (rootEntry :: dirs)))).
Proof.
  apply (C8_watch_listeners_and_result "/lib" 3 sampleWorld "/root" sampleTree
           (Some (isExactly "/root/sub"))).
  - exists ["root"]. split; [by repeat constructor|reflexivity].
  - exact sampleTree_wellFormed.
  - vm_compute. tauto.
  - reflexivity.
  - simpl. lia.
Defined.

(** On the sample tree the skipped directory is in the result and has no
    listener. *)
Example watch_on_sample :
  let run := SuperFSDir.watch "/lib" 3 "/root" (Some (isExactly "/root/sub"))
               sampleWorld in
  read_paths (fst run) = Some ["/root"; "/root/sub"; "/root/sub/deep"]
  /\ watchedPaths (events (snd run)) = ["/root"; "/root/sub/deep"].
Proof. vm_compute. auto. Qed.

(** C8, as the claim words it, fails: the entry of the skipped directory
    [/root/sub] is in the list [watch] resolves with, and no listener was
    attached to it. *)
Lemma C8_counterexample :
  ~ (forall callerDir fuel this_path opts_ignore w out w',
        SuperFSDir.watch callerDir fuel this_path opts_ignore w
        = (Resolved out, w') ->
        map path out = watchedPaths (eventsSince w w')).
Proof.
  intros H.
  specialize (H "/lib" 3 "/root" (Some (isExactly "/root/sub")) sampleWorld
                _ _ eq_refl).
  vm_compute in H. discriminate H.
Qed.

(** C4: on a file system that holds a well-formed tree at a normal
    absolute path, [delete] reads every file and directory below the
    root and sorts the entries so that the files come first and the
    directories after them.  It then destroys them in that order: every
    file is unlinked, and only then are the directories removed, one
    after the other; whatever the outcome, every file removal precedes
    every directory removal and the removed paths name nothing
    afterwards.  When [delete] resolves it has removed them all, and it
    stops short only at a directory whose removal rejects, with the
    error of that removal.  The engine's sort is any sort that respects
    rankings. *)
Theorem C4_delete_removes_files_before_directories
    (sort : (Entry -> Entry -> Z) -> list Entry -> list Entry)
    callerDir fuel (w : World) (root : string) (t : tree) :
  respectsRanking sort ->
  cleanAbsolute root ->
  wellFormed t ->
  holds (files w) root t ->
  isTDir t = true ->
  depth t <= fuel ->
  exists entries,
    SuperFSDir.read callerDir fuel (files w) SuperFSDir.readAll root
    = Resolved entries /\
    Forall2 (describes root) entries (descendants [] t) /\
    let run := SuperFSDir.delete callerDir sort fuel root w in
    let sortedFiles := sort SuperFSDir.dirLast entries in
    Permutation sortedFiles entries /\
    exists fileEntries dirEntries j,
      sortedFiles = fileEntries ++ dirEntries /\
      Forall (fun e => isDir e = false) fileEntries /\
      Forall (fun e => isDir e = true) dirEntries /\
      eventsSince w (snd run)
      = map (fun e => EvUnlink (path e)) fileEntries
        ++ map (fun e => EvRmdir (path e)) (take j dirEntries) /\
      Forall (fun e => Fs.lookup (files (snd run)) (path e) = None)
             (fileEntries ++ take j dirEntries) /\
      (forall out, fst run = Resolved out ->
                   out = sortedFiles /\ length dirEntries <= j) /\
      (forall d,
          dirEntries !! j = Some d ->
          exists err,
            fst run = Rejected err /\
            fst (FSTools.removeDir (path d) (snd run)) = Rejected err).
Proof.
  intros Hsort Hroot Hwf Hholds Hdir Hdepth.
  destruct (read_held_tree callerDir (files w) root t fuel)
    as (entries & Hread & Hdesc & _ & Hnodup); try done.
  exists entries. split; [exact Hread|]. split; [exact Hdesc|].
  apply delete_after_read; [done|done|].
  destruct Hroot as (segs & Hsegs & ->).
  rewrite (map_ext_in (fun e => Path.resolve (path e)) path); [done|].
  intros e He.
  destruct (Forall2_In_left _ _ _ _ Hdesc He) as (d & Hd & (_ & Hpath & _)).
  destruct (descendants_plain _ [] d Hwf (List.Forall_nil _) Hd) as [Hp _].
  rewrite Hpath, fold_join_clean by done.
  apply resolve_clean. apply Forall_app. by split.
Qed.

Lemma C4_witness :
  exists entries,
    SuperFSDir.read "/lib" 3 sampleFiles SuperFSDir.readAll "/root"
    = Resolved entries /\
    Forall2 (describes "/root") entries
      [(["a.txt"], false); (["sub"], true); (["sub"; "b.txt"], false);
       (["sub"; "deep"], true)] /\
    let run := SuperFSDir.delete "/lib" timSort 3 "/root" sampleWorld in
    let sortedFiles := timSort SuperFSDir.dirLast entries in
    Permutation sortedFiles entries /\
    exists fileEntries dirEntries j,
      sortedFiles = fileEntries ++ dirEntries /\
      Forall (fun e => isDir e = false) fileEntries /\
      Forall (fun e => isDir e = true) dirEntries /\
      eventsSince sampleWorld (snd run)
      = map (fun e => EvUnlink (path e)) fileEntries
        ++ map (fun e => EvRmdir (path e)) (take j dirEntries) /\
      Forall (fun e => Fs.lookup (files (snd run)) (path e) = None)
             (fileEntries ++ take j dirEntries) /\
      (forall out, fst run = Resolved out ->
                   out = sortedFiles /\ length dirEntries <= j) /\
      (forall d,
          dirEntries !! j = Some d ->
          exists err,
            fst run = Rejected err /\
            fst (FSTools.removeDir (path d) (snd run)) = Rejected err).
Proof.
  apply (C4_delete_removes_files_before_directories timSort "/lib" 3
           sampleWorld "/root" sampleTree).
  - exact timSort_respectsRanking.
  - exists ["root"]. split; [by repeat constructor|reflexivity].
  - exact sampleTree_wellFormed.
  - vm_compute. tauto.
  - reflexivity.
  - simpl. lia.
Defined.

(** With the insertion sort the directories also end up deepest first,
    and the sample tree is emptied. *)
Example delete_on_sample :
  let run := SuperFSDir.delete "/lib" insertionSort 3 "/root" sampleWorld in
  read_paths (fst run)
  = Some ["/root/a.txt"; "/root/sub/b.txt"; "/root/sub/deep"; "/root/sub"]
  /\ eventsSince sampleWorld (snd run)
     = [EvUnlink "/root/a.txt"; EvUnlink "/root/sub/b.txt";
        EvRmdir "/root/sub/deep"; EvRmdir "/root/sub"]
  /\ files (snd run) !! "/root" = Some (Dir [] 493).
Proof. vm_compute. auto. Qed.

(** With the sort of current V8 the files end up first, in reverse, and
    the directories after them in the order of the read, parents before
    their contents: on the sample tree both files are unlinked and the
    removal of [/root/sub], which still holds [deep], rejects. *)
Example delete_on_sample_timSort :
  let run := SuperFSDir.delete "/lib" timSort 3 "/root" sampleWorld in
  fst run = Rejected ENOTEMPTY
  /\ eventsSince sampleWorld (snd run)
     = [EvUnlink "/root/sub/b.txt"; EvUnlink "/root/a.txt"]
  /\ files (snd run) !! "/root/sub" = Some (Dir ["deep"] 493).
Proof. vm_compute. auto. Qed.

(* ===================================================================== *)
(** * Further properties of the engine *)
(* ===================================================================== *)

(** ** The constructor *)

Lemma is_sep_not_dot c : Path.is_sep c = true -> Ascii.eqb c "."%char = false.
Proof.
  unfold Path.is_sep. intros H. apply Ascii.eqb_eq in H as ->. reflexivity.
Qed.

Lemma absolute_not_dot p :
  Path.isAbsolute p = true -> SuperFSDir.startsWithDot p = false.
Proof. destruct p as [|c p]; [done|]. simpl. apply is_sep_not_dot. Qed.

Lemma resolve_absolute p :
  Path.isAbsolute p = true -> Path.isAbsolute (Path.resolve p) = true.
Proof. intros H. unfold Path.resolve. by rewrite H. Qed.

Lemma append_absolute p q :
  Path.isAbsolute p = true -> Path.isAbsolute (p +:+ q) = true.
Proof. by destruct p. Qed.

(** X1: when the requiring module's directory is absolute, the path the
    constructor keeps never starts with a dot, so constructing an engine
    from the path of an engine changes nothing. *)
Theorem constructor_settles callerDir (dirname : string) :
  Path.isAbsolute callerDir = true ->
  SuperFSDir.startsWithDot (SuperFSDir.new callerDir dirname) = false
  /\ SuperFSDir.new callerDir (SuperFSDir.new callerDir dirname)
     = SuperFSDir.new callerDir dirname.
Proof.
  intros Habs.
  assert (H : SuperFSDir.startsWithDot (SuperFSDir.new callerDir dirname) = false).
  { unfold SuperFSDir.new at 1.
    destruct (SuperFSDir.startsWithDot dirname) eqn:Hdot; [|exact Hdot].
    apply absolute_not_dot. unfold Path.resolveFrom.
    destruct (Path.isAbsolute dirname) eqn:Hd.
    - by apply resolve_absolute.
    - apply resolve_absolute. by apply append_absolute. }
  split; [exact H|]. unfold SuperFSDir.new at 1. by rewrite H.
Qed.

Lemma constructor_settles_witness :
  SuperFSDir.startsWithDot (SuperFSDir.new "/app/lib" "../data/./x") = false
  /\ SuperFSDir.new "/app/lib" (SuperFSDir.new "/app/lib" "../data/./x")
     = SuperFSDir.new "/app/lib" "../data/./x".
Proof. apply (constructor_settles "/app/lib" "../data/./x"). reflexivity. Defined.

Example constructor_on_samples :
  SuperFSDir.new "/app/lib" "../data/./x" = "/app/data/x"
  /\ SuperFSDir.new "/app/lib" ".hidden" = "/app/lib/.hidden"
  /\ SuperFSDir.new "/app/lib" "/srv/www/" = "/srv/www/"
  /\ SuperFSDir.new "/app/lib" "data" = "data".
Proof. vm_compute. auto. Qed.

Lemma normalize_absolute p :
  Path.isAbsolute p = true -> Path.isAbsolute (Path.normalize p) = true.
Proof.
  intros H. unfold Path.normalize. rewrite H.
  destruct p as [|c p]; [done|]. simpl String.eqb. cbv iota. cbv zeta.
  by destruct (String.eqb _ "").
Qed.

Lemma join_absolute p f :
  Path.isAbsolute p = true -> Path.isAbsolute (Path.join p f) = true.
Proof.
  intros H. unfold Path.join. destruct p as [|c p]; [done|].
  simpl String.eqb. cbv iota.
  destruct (String.eqb f ""); apply normalize_absolute; [done|].
  by apply append_absolute.
Qed.

Lemma new_absolute callerDir p :
  Path.isAbsolute p = true -> SuperFSDir.new callerDir p = p.
Proof.
  intros H. unfold SuperFSDir.new. by rewrite (absolute_not_dot p H).
Qed.

(** ** What holds of every entry of a read *)

Section ReadEntriesInduction.

Variable callerDir : string.
Variable fs : gmap string fsobj.

(** [Q] is what is known of the options and the path of a call, [P] what
    is to hold of the entries. *)
Variable Q : Options -> string -> Prop.
Variable P : Entry -> Prop.

Hypothesis Q_sub : forall opts p file st d,
  Q opts p ->
  FSTools.stat fs (Path.join p file) = Resolved st ->
  Fs.st_isDirectory st = true ->
  SuperFSDir.create fs (SuperFSDir.new callerDir (Path.join p file)) = Resolved d ->
  Q (SuperFSDir.subOptions opts file) (path d).

Hypothesis P_parent : forall opts p e rawFiles,
  Q opts p -> addParent opts = true ->
  SuperFSDir.create fs p = Resolved e ->
  FSTools.readDir fs p = Resolved rawFiles ->
  P e.

Hypothesis P_directory : forall opts p file st d,
  Q opts p ->
  FSTools.stat fs (Path.join p file) = Resolved st ->
  Fs.st_isDirectory st = true ->
  SuperFSDir.create fs (SuperFSDir.new callerDir (Path.join p file)) = Resolved d ->
  skipDirs opts = false ->
  P (setRelative d (SuperFSDir.relativeOf opts (name d))).

Hypothesis P_file : forall opts p file st fl,
  Q opts p ->
  FSTools.stat fs (Path.join p file) = Resolved st ->
  Fs.st_isDirectory st = false ->
  skipFiles opts = false ->
  SuperFSDir.create fs (Path.join p file) = Resolved fl ->
  P (setRelative fl (SuperFSDir.relativeOf opts (name fl))).

Lemma read_entries_ind fuel : forall opts this_path out,
  Q opts this_path ->
  SuperFSDir.read callerDir fuel fs opts this_path = Resolved out ->
  Forall P out.
Proof.
  induction fuel as [|fuel IH]; intros opts this_path out HQ H; [discriminate|].
  apply read_resolved_iff in H
    as (parent & rawFiles & pushes & Hp & Hr & HF & ->).
  apply Forall_app. split.
  - unfold parentEntries in Hp. destruct (addParent opts) eqn:Hadd.
    + apply bindP_Resolved_inv in Hp as (e & He & [= <-]).
      constructor; [|constructor]. by eapply P_parent.
    + injection Hp as <-. constructor.
  - apply Forall_concat.
    induction HF as [|file pushed l pushes Hpushed HF IHF]; constructor; [|done].
    unfold pushedBy in Hpushed.
    destruct (FSTools.stat fs (Path.join this_path file)) as [st| |] eqn:Hst.
    2,3: unfold SuperFSDir.readEntry in Hpushed; by rewrite Hst in Hpushed.
    destruct (Fs.st_isDirectory st) eqn:Hdir.
    + destruct (readEntry_directory callerDir _ _ _ _ _ _ _ _ _ Hst Hdir Hpushed)
        as (d & subFiles & Hd & Hsub & ->).
      apply Forall_app. split.
      * destruct (skipDirs opts) eqn:Hskip; simpl; [constructor|].
        destruct (match filter opts with Some _ => _ | None => _ end);
          constructor; [|constructor]. by eapply P_directory.
      * destruct (recursive opts); [|subst subFiles; constructor].
        apply IH in Hsub; [|by eapply Q_sub].
        rewrite Forall_forall in Hsub |- *. intros s Hs. apply Hsub.
        apply list_elem_of_In. apply list_elem_of_In in Hs.
        by apply List.filter_In in Hs as [? _].
    + pose proof (readEntry_file callerDir _ _ _ _ _ _ _ _ _ Hst Hdir Hpushed)
        as Hfile.
      destruct (skipFiles opts) eqn:Hskip; [subst pushed; constructor|].
      destruct (match filter opts with Some _ => _ | None => _ end);
        [subst pushed; constructor|].
      destruct Hfile as (fl & Hfl & ->).
      constructor; [|constructor]. by eapply P_file.
Qed.

End ReadEntriesInduction.

Section ReadEntryFacts.

Variable callerDir : string.

Local Abbreviation read := (SuperFSDir.read callerDir).

Lemma create_statConsistent fs p e :
  SuperFSDir.create fs p = Resolved e -> statConsistent fs e.
Proof.
  unfold SuperFSDir.create.
  destruct (Fs.lstat fs p) as [st| |] eqn:Hst; try discriminate.
  intros [= <-]. exists st. simpl. by repeat split.
Qed.

Lemma setRelative_statConsistent fs e r :
  statConsistent fs e -> statConsistent fs (setRelative e r).
Proof. intros (st & H). by exists st. Qed.

(** X2: whatever the options, the metadata of every entry a read
    resolves with is that of a stat of the entry's own path: its name and
    directory are the base name and directory name of its path, and its
    kind and mode are those the stat reports. *)
Theorem read_entries_statConsistent fuel fs opts this_path out :
  read fuel fs opts this_path = Resolved out ->
  Forall (statConsistent fs) out.
Proof.
  apply (read_entries_ind callerDir fs (fun _ _ => True) (statConsistent fs));
    try done.
  - intros ? ? e ? _ _ He _. by apply create_statConsistent in He.
  - intros ? ? ? ? d _ _ _ Hd _.
    apply setRelative_statConsistent. by apply create_statConsistent in Hd.
  - intros ? ? ? ? fl _ _ _ _ Hfl.
    apply setRelative_statConsistent. by apply create_statConsistent in Hfl.
Qed.

(** X3: without [addParent], every entry a read resolves with carries a
    relative path, at every depth. *)
Theorem read_entries_have_relative fuel fs opts this_path out :
  addParent opts = false ->
  read fuel fs opts this_path = Resolved out ->
  Forall (fun e => is_Some (relative e)) out.
Proof.
  intros Hadd.
  apply (read_entries_ind callerDir fs (fun o _ => addParent o = false)
           (fun e => is_Some (relative e))); try done.
  intros ? ? e ? H1 H2. congruence.
Qed.

Lemma create_isDir fs p e st :
  SuperFSDir.create fs p = Resolved e ->
  FSTools.stat fs p = Resolved st ->
  isDir e = Fs.st_isDirectory st.
Proof.
  unfold SuperFSDir.create, Fs.lstat, FSTools.stat. intros He Hst.
  rewrite Hst in He. by injection He as <-.
Qed.

(** X4: with [skipDirs] set and [addParent] not, no entry a read
    resolves with is a directory, at any depth, although the
    directories are still read when [recursive] is set. *)
Theorem read_skipDirs_no_directory fuel fs opts this_path out :
  skipDirs opts = true ->
  addParent opts = false ->
  read fuel fs opts this_path = Resolved out ->
  Forall (fun e => isDir e = false) out.
Proof.
  intros Hskip Hadd.
  apply (read_entries_ind callerDir fs
           (fun o _ => skipDirs o = true /\ addParent o = false)
           (fun e => isDir e = false)); try done.
  - intros ? ? ? ? ? [H _]. done.
  - intros ? ? e ? [_ H1] H2. congruence.
  - intros ? ? ? ? ? [H1 _] _ _ _ H2. congruence.
  - intros o p file st fl _ Hst Hdir _ Hfl. simpl.
    by rewrite (create_isDir _ _ _ _ Hfl Hst).
Qed.

Lemma create_path fs p e : SuperFSDir.create fs p = Resolved e -> path e = p.
Proof. intros H. by apply create_inv in H as [? _]. Qed.

(** X5: with [skipFiles] set, every entry a read of an absolute path
    resolves with is a directory, the entry of the root that [addParent]
    asks for included. *)
Theorem read_skipFiles_only_directories fuel fs opts this_path out :
  skipFiles opts = true ->
  Path.isAbsolute this_path = true ->
  read fuel fs opts this_path = Resolved out ->
  Forall (fun e => isDir e = true) out.
Proof.
  intros Hskip Habs.
  apply (read_entries_ind callerDir fs
           (fun o p => skipFiles o = true /\ Path.isAbsolute p = true)
           (fun e => isDir e = true)); try done.
  - intros o p file st d [H1 H2] _ _ Hd. split; [done|].
    rewrite (create_path _ _ _ Hd), new_absolute; by apply join_absolute.
  - intros o p e rawFiles _ _ He Hr.
    apply readdir_is_directory in Hr as [m Hm].
    apply create_inv in He as (_ & _ & o' & Ho' & Hd & _).
    rewrite Hm in Ho'. injection Ho' as <-. exact Hd.
  - intros o p file st d [_ H2] Hst Hdir Hd _. simpl.
    rewrite new_absolute in Hd by (by apply join_absolute).
    by rewrite (create_isDir _ _ _ _ Hd Hst).
  - intros ? ? ? ? ? [H1 _] _ _ H2. congruence.
Qed.

End ReadEntryFacts.

Lemma read_entries_statConsistent_witness :
  Forall (statConsistent sampleFiles)
    [mkEntry "/root/a.txt" "a.txt" "/root" true false 420%Z (Some "a.txt") None None;
     mkEntry "/root/sub" "sub" "/root" false true 493%Z (Some "sub") None None;
     mkEntry "/root/sub/b.txt" "b.txt" "/root/sub" true false 420%Z
             (Some "sub/b.txt") None None;
     mkEntry "/root/sub/deep" "deep" "/root/sub" false true 493%Z
             (Some "sub/deep") None None].
Proof.
  exact (read_entries_statConsistent "/lib" 3 sampleFiles SuperFSDir.readAll "/root" _
           eq_refl).
Defined.

Lemma read_entries_have_relative_witness :
  Forall (fun e => is_Some (relative e))
    [mkEntry "/root/sub" "sub" "/root" false true 493%Z (Some "sub") None None].
Proof.
  exact (read_entries_have_relative "/lib" 3 sampleFiles
           (recursiveWithIgnore (isNot "a.txt")) "/root" _ eq_refl eq_refl).
Defined.

Lemma read_skipDirs_no_directory_witness :
  Forall (fun e => isDir e = false)
    [mkEntry "/root/a.txt" "a.txt" "/root" true false 420%Z (Some "a.txt") None None;
     mkEntry "/root/sub/b.txt" "b.txt" "/root/sub" true false 420%Z
             (Some "sub/b.txt") None None].
Proof.
  exact (read_skipDirs_no_directory "/lib" 3 sampleFiles
           (mkOptions "utf8" true "" false true false None None) "/root" _
           eq_refl eq_refl eq_refl).
Defined.

Lemma read_skipFiles_only_directories_witness :
  Forall (fun e => isDir e = true)
    [mkEntry "/root" "root" "/" false true 493%Z None None None;
     mkEntry "/root/sub" "sub" "/root" false true 493%Z (Some "sub") None None;
     mkEntry "/root/sub/deep" "deep" "/root/sub" false true 493%Z
             (Some "sub/deep") None None].
Proof.
  exact (read_skipFiles_only_directories "/lib" 3 sampleFiles SuperFSDir.watchRead
           "/root" _ eq_refl eq_refl eq_refl).
Defined.

(** ** [addParent], and the listing of one directory *)

Section ReadShape.

Variable callerDir : string.

Local Abbreviation read := (SuperFSDir.read callerDir).

Lemma readEntry_withAddParent b subRead fs opts ff ir this_path file out :
  SuperFSDir.readEntry callerDir subRead fs (withAddParent b opts) ff ir
    this_path file out
  = SuperFSDir.readEntry callerDir subRead fs opts ff ir this_path file out.
Proof. reflexivity. Qed.

(** X6: [addParent] only prepends: a read that asks for the parent
    resolves with the entry of the directory itself followed by what the
    same read without [addParent] resolves with, and rejects as the first
    of the two that rejects. *)
Theorem read_addParent_prepends fuel fs opts this_path :
  read (S fuel) fs (withAddParent true opts) this_path
  = (e <- SuperFSDir.create fs this_path ;;
     rest <- read (S fuel) fs (withAddParent false opts) this_path ;;
     Resolved (e :: rest)).
Proof.
  rewrite !read_S. unfold parentEntries. simpl addParent. cbv iota.
  destruct (SuperFSDir.create fs this_path) as [e| |]; simpl; auto.
  destruct (FSTools.readDir fs this_path) as [rawFiles| |]; simpl; auto.
  rewrite (forOf_pushes _ (readEntry_pushes callerDir _ _ _ _ _ _) _ [e]).
  change (ignore (withAddParent true opts)) with (ignore opts).
  change (ignore (withAddParent false opts)) with (ignore opts).
  change (filter (withAddParent true opts)) with (filter opts).
  change (filter (withAddParent false opts)) with (filter opts).
  by destruct (forOf _ [] _).
Qed.

(** One iteration of a plain listing: the entry of the joined path. *)
Lemma readEntry_listing subRead fs opts this_path file :
  Path.isAbsolute this_path = true ->
  recursive opts = false -> skipFiles opts = false -> skipDirs opts = false ->
  SuperFSDir.readEntry callerDir subRead fs opts None None this_path file []
  = (e <- SuperFSDir.create fs (Path.join this_path file) ;;
     Resolved [setRelative e (SuperFSDir.relativeOf opts (name e))]).
Proof.
  intros Habs Hrec Hsf Hsd. unfold SuperFSDir.readEntry.
  rewrite new_absolute by (by apply join_absolute).
  unfold SuperFSDir.createFile, SuperFSDir.create, Fs.lstat, FSTools.stat.
  rewrite Hrec, Hsf, Hsd.
  destruct (Fs.stat fs (Path.join this_path file)) as [st| |]; simpl; auto.
  by destruct (Fs.st_isDirectory st).
Qed.

(** X7: a read of an absolute path with no option set lists one
    directory: given the listing, it resolves exactly when every listed
    name can be statted, and then with one entry per name, in listing
    order, whose path is the name joined onto the directory's path and
    whose relative path is built from the entry's name. *)
Theorem read_lists_one_directory fuel fs opts this_path rawFiles :
  Path.isAbsolute this_path = true ->
  recursive opts = false -> skipFiles opts = false -> skipDirs opts = false ->
  addParent opts = false -> filter opts = None -> ignore opts = None ->
  FSTools.readDir fs this_path = Resolved rawFiles ->
  ((exists out, read (S fuel) fs opts this_path = Resolved out)
   <-> Forall (fun file =>
                 exists st, FSTools.stat fs (Path.join this_path file) = Resolved st)
              rawFiles)
  /\ (forall out,
         read (S fuel) fs opts this_path = Resolved out ->
         map path out = map (Path.join this_path) rawFiles /\
         map relative out
         = map (fun file =>
                  Some (SuperFSDir.relativeOf opts
                          (Path.basename (Path.join this_path file))))
               rawFiles).
Proof.
  intros Habs Hrec Hsf Hsd Hadd Hfilter Hignore Hraw.
  assert (Hpushed : forall file pushed,
             pushedBy callerDir fuel fs opts this_path file pushed <->
             exists e, SuperFSDir.create fs (Path.join this_path file) = Resolved e /\
                       pushed = [setRelative e (SuperFSDir.relativeOf opts (name e))]).
  { intros file pushed. unfold pushedBy. rewrite Hfilter, Hignore.
    rewrite readEntry_listing by done.
    destruct (SuperFSDir.create fs _) as [e| |]; simpl; split;
      try (intros H; discriminate H); try (by intros (? & ? & _)).
    - intros [= <-]. by exists e.
    - by intros (e' & [= <-] & ->). }
  assert (Hshape : forall out,
             read (S fuel) fs opts this_path = Resolved out <->
             exists pushes,
               Forall2 (pushedBy callerDir fuel fs opts this_path) rawFiles pushes /\
               out = concat pushes).
  { intros out. rewrite read_resolved_iff. unfold parentEntries.
    rewrite Hadd, Hignore. simpl. split.
    - intros (parent & raw' & pushes & [= <-] & Hr & HF & ->).
      rewrite Hraw in Hr. injection Hr as <-. by exists pushes.
    - intros (pushes & HF & ->). by exists [], rawFiles, pushes. }
  split; [split|].
  - intros (out & Hout). apply Hshape in Hout as (pushes & HF & _).
    clear -HF Hpushed. induction HF as [|file pushed l k Hfp HF IH];
      constructor; [|done].
    apply Hpushed in Hfp as (e & He & _).
    unfold SuperFSDir.create, Fs.lstat in He. unfold FSTools.stat.
    destruct (Fs.stat fs _) as [st| |]; [by exists st|done|done].
  - intros Hall.
    assert (Hex : exists pushes,
               Forall2 (pushedBy callerDir fuel fs opts this_path) rawFiles pushes).
    { clear -Hall Hpushed. induction Hall as [|file l [st Hst] Hall IH].
      - exists []. constructor.
      - destruct IH as (pushes & HF).
        eexists (_ :: pushes). constructor; [|exact HF].
        apply Hpushed. eexists. split; [|reflexivity].
        unfold SuperFSDir.create, Fs.lstat. unfold FSTools.stat in Hst.
        rewrite Hst. reflexivity. }
    destruct Hex as (pushes & HF). exists (concat pushes).
    apply Hshape. by exists pushes.
  - intros out Hout. apply Hshape in Hout as (pushes & HF & ->).
    clear -HF Hpushed. induction HF as [|file pushed l k Hfp HF IH]; [done|].
    destruct IH as [IH1 IH2].
    apply Hpushed in Hfp as (e & He & ->). simpl.
    pose proof (create_statConsistent _ _ _ He) as (st & _ & Hname & _).
    rewrite (create_path _ _ _ He) in Hname |- *.
    rewrite Hname, IH1, IH2. done.
Qed.

End ReadShape.

Example read_addParent_on_sample :
  read_paths (SuperFSDir.read "/lib" 3 sampleFiles (withAddParent true SuperFSDir.readAll) "/root")
  = Some ["/root"; "/root/a.txt"; "/root/sub"; "/root/sub/b.txt"; "/root/sub/deep"]
  /\ SuperFSDir.read "/lib" 3 sampleFiles (withAddParent true SuperFSDir.readAll) "/nowhere"
     = Rejected ENOENT.
Proof. vm_compute. auto. Qed.

Lemma read_lists_one_directory_witness :
  ((exists out, SuperFSDir.read "/lib" 1 sampleFiles defaults "/root/sub" = Resolved out)
   <-> Forall (fun file =>
                 exists st, FSTools.stat sampleFiles (Path.join "/root/sub" file)
                            = Resolved st)
              ["b.txt"; "deep"])
  /\ (forall out,
         SuperFSDir.read "/lib" 1 sampleFiles defaults "/root/sub" = Resolved out ->
         map path out = map (Path.join "/root/sub") ["b.txt"; "deep"] /\
         map relative out
         = map (fun file =>
                  Some (SuperFSDir.relativeOf defaults
                          (Path.basename (Path.join "/root/sub" file))))
               ["b.txt"; "deep"]).
Proof.
  by apply (read_lists_one_directory "/lib" 0 sampleFiles defaults "/root/sub"
              ["b.txt"; "deep"]).
Defined.

(** ** What [mkdir] and [copy] never do *)

Lemma sameKindAndMode_refl o : sameKindAndMode o o.
Proof. by destruct o. Qed.

Lemma sameKindAndMode_trans o1 o2 o3 :
  sameKindAndMode o1 o2 -> sameKindAndMode o2 o3 -> sameKindAndMode o1 o3.
Proof. destruct o1, o2, o3; simpl; intros H1 H2; try done; congruence. Qed.

Lemma keeps_refl allowed w : keeps allowed w w.
Proof.
  split.
  - exists []. by rewrite app_nil_r.
  - intros k o Ho. exists o. split; [done|apply sameKindAndMode_refl].
Qed.

Lemma keeps_trans allowed w1 w2 w3 :
  keeps allowed w1 w2 -> keeps allowed w2 w3 -> keeps allowed w1 w3.
Proof.
  intros [(n1 & He1 & Ha1) Hk1] [(n2 & He2 & Ha2) Hk2]. split.
  - exists (n1 ++ n2). split; [by rewrite He2, He1, app_assoc|].
    apply Forall_app. by split.
  - intros k o Ho. destruct (Hk1 k o Ho) as (o' & Ho' & Hs).
    destruct (Hk2 k o' Ho') as (o'' & Ho'' & Hs').
    exists o''. split; [done|]. by eapply sameKindAndMode_trans.
Qed.

Lemma keeps_weaken (a b : Event -> bool) w w' :
  (forall e, a e = true -> b e = true) -> keeps a w w' -> keeps b w w'.
Proof.
  intros Hab [(new & He & Ha) Hk]. split; [|done].
  exists new. split; [done|]. eapply Forall_impl; [exact Ha|]. auto.
Qed.

Lemma keeping_ret allowed {A} (a : A) : keeping allowed (ret a).
Proof. intros w. apply keeps_refl. Qed.

Lemma keeping_throw allowed {A} e : keeping allowed (@throw A e).
Proof. intros w. apply keeps_refl. Qed.

Lemma keeping_inspect allowed {A} (f : gmap string fsobj -> Promise A) :
  keeping allowed (inspect f).
Proof. intros w. apply keeps_refl. Qed.

Lemma keeping_bind allowed {A B} (c : M A) (k : A -> M B) :
  keeping allowed c -> (forall a, keeping allowed (k a)) ->
  keeping allowed (bindM c k).
Proof.
  intros Hc Hk w. unfold bindM. specialize (Hc w).
  destruct (c w) as [[a| |] w']; simpl in *; try done.
  eapply keeps_trans; [exact Hc|]. apply Hk.
Qed.

Lemma keeping_forOfM allowed {A S} (l : list A) (body : A -> S -> M S) :
  (forall x s, keeping allowed (body x s)) ->
  forall s, keeping allowed (forOfM l s body).
Proof.
  intros Hbody. induction l as [|x l IH]; intros s; simpl.
  - apply keeping_ret.
  - apply keeping_bind; [apply Hbody|]. intros s'. apply IH.
Qed.

Create HintDb keeping.
#[local] Hint Resolve keeping_ret keeping_throw keeping_inspect keeping_bind
  keeping_forOfM : keeping.

Lemma link_keeps allowed (fs fs' : gmap string fsobj) k o evs e :
  fs !! k = None ->
  Fs.link k o fs = Resolved fs' ->
  allowed e = true ->
  keeps allowed (mkWorld fs evs) (mkWorld fs' (evs ++ [e])).
Proof.
  intros Hnone Hlink He. unfold Fs.link in Hlink.
  destruct (fs !! Fs.parentOf k) as [[|names pm]|] eqn:Hpar; try discriminate.
  injection Hlink as <-. split.
  - exists [e]. split; [done|]. by repeat constructor.
  - simpl. intros k0 o0 Hk0.
    assert (k0 <> k) by (intros ->; congruence).
    rewrite lookup_insert_ne by done.
    destruct (decide (k0 = Fs.parentOf k)) as [->|Hne].
    + rewrite lookup_insert_eq. rewrite Hpar in Hk0. injection Hk0 as <-.
      by eexists.
    + rewrite lookup_insert_ne by done. exists o0.
      split; [done|apply sameKindAndMode_refl].
Qed.

Lemma Fs_mkdir_keeping p mode : keeping isMkdirEvent (Fs.mkdir p mode).
Proof.
  intros [fs evs]. unfold Fs.mkdir, Fs.change. simpl.
  destruct (Fs.lookup fs p) eqn:Hl; simpl; [apply keeps_refl|].
  destruct (Fs.link _ _ fs) as [fs'| |] eqn:Hlink; simpl;
    try apply keeps_refl.
  by eapply link_keeps.
Qed.

Lemma Fs_writeFile_keeping p data mode :
  keeping isCreationEvent (Fs.writeFile p data mode).
Proof.
  intros [fs evs]. unfold Fs.writeFile, Fs.change. simpl.
  destruct (Fs.lookup fs p) as [[data0 m0|names m0]|] eqn:Hl; simpl.
  - split.
    + exists [EvWriteFile p data mode]. split; [done|]. by repeat constructor.
    + simpl. intros k o Ho.
      destruct (decide (k = Path.resolve p)) as [->|Hne].
      * rewrite lookup_insert_eq. unfold Fs.lookup in Hl. rewrite Hl in Ho.
        injection Ho as <-. by eexists.
      * rewrite lookup_insert_ne by done. exists o.
        split; [done|apply sameKindAndMode_refl].
  - apply keeps_refl.
  - destruct (Fs.link _ _ fs) as [fs'| |] eqn:Hlink; simpl;
      try apply keeps_refl.
    by eapply link_keeps.
Qed.

Lemma SuperFSDir_mkdir_keeping d opts :
  keeping isMkdirEvent (SuperFSDir.mkdir d opts).
Proof.
  unfold SuperFSDir.mkdir, FSTools.exists_, FSTools.createDir.
  apply keeping_forOfM. intros x [].
  apply keeping_bind; [auto with keeping|].
  intros [|]; [auto with keeping|apply Fs_mkdir_keeping].
Qed.

(** X8: [mkdir] only ever makes directories: whether it resolves or
    rejects, everything it has logged is a directory creation, and every
    object that existed before is still there with its kind and mode. *)
Theorem mkdir_only_creates_directories (d : string) (opts : option Z) (w : World) :
  keeps isMkdirEvent w (snd (SuperFSDir.mkdir d opts w)).
Proof. apply SuperFSDir_mkdir_keeping. Qed.

(** The loop of [mkdir] over any list of paths: when it resolves, every
    path of the list names an object. *)
Lemma mkdir_loop_exists opts (l : list string) : forall w w',
  forOfM l tt
    (fun d _ => ex <~ FSTools.exists_ d ;;
                if ex then ret tt else FSTools.createDir d opts) w
  = (Resolved tt, w') ->
  keeps isMkdirEvent w w' /\
  Forall (fun d => is_Some (Fs.lookup (files w') d)) l.
Proof.
  induction l as [|d l IH]; intros w w'; simpl.
  - intros [= <-]. split; [apply keeps_refl|constructor].
  - unfold bindM at 1. unfold bindM at 1.
    unfold FSTools.exists_ at 1, inspect at 1, Fs.access.
    destruct (Fs.lookup (files w) d) as [o|] eqn:Hl; simpl.
    + intros Hrest. destruct (IH _ _ Hrest) as [Hk Hall].
      split; [exact Hk|]. constructor; [|exact Hall].
      destruct Hk as [_ Hk]. unfold Fs.lookup in *.
      destruct (Hk _ _ Hl) as (o' & -> & _). by eexists.
    + unfold FSTools.createDir.
      pose proof (Fs_mkdir_keeping d (default 511%Z opts) w) as Hstep.
      destruct (Fs.mkdir d (default 511%Z opts) w) as [[[]| |] w1] eqn:Hmk;
        simpl in *; try discriminate.
      intros Hrest. destruct (IH _ _ Hrest) as [Hk Hall].
      split; [by eapply keeps_trans|]. constructor; [|exact Hall].
      assert (Hd : is_Some (Fs.lookup (files w1) d)).
      { unfold Fs.mkdir, Fs.change in Hmk. rewrite Hl in Hmk.
        destruct (Fs.link _ _ (files w)) as [fs'| |] eqn:Hlink;
          try discriminate.
        injection Hmk as <-. simpl. unfold Fs.link in Hlink.
        destruct (files w !! Fs.parentOf _) as [[|names pm]|];
          try discriminate.
        injection Hlink as <-. unfold Fs.lookup.
        rewrite lookup_insert_eq. by eexists. }
      destruct Hd as [o Ho]. destruct Hk as [_ Hk]. unfold Fs.lookup in *.
      destruct (Hk _ _ Ho) as (o' & -> & _). by eexists.
Qed.

Lemma mkdir_loop_noop opts (l : list string) (w : World) :
  Forall (fun d => is_Some (Fs.lookup (files w) d)) l ->
  forOfM l tt
    (fun d _ => ex <~ FSTools.exists_ d ;;
                if ex then ret tt else FSTools.createDir d opts) w
  = (Resolved tt, w).
Proof.
  induction 1 as [|d l [o Ho] Hall IH]; simpl; [done|].
  unfold bindM at 1. unfold bindM at 1.
  unfold FSTools.exists_ at 1, inspect at 1, Fs.access. rewrite Ho. simpl.
  exact IH.
Qed.

(** X9: [mkdir] is idempotent: once it has resolved, every directory of
    the path array exists, and running it again for the same target,
    with whatever mode, resolves without changing or logging anything. *)
Theorem mkdir_idempotent (d : string) (opts opts' : option Z) (w w' : World) :
  SuperFSDir.mkdir d opts w = (Resolved tt, w') ->
  Forall (fun a => is_Some (Fs.lookup (files w') a)) (FSTools.createPathArray d)
  /\ SuperFSDir.mkdir d opts' w' = (Resolved tt, w').
Proof.
  unfold SuperFSDir.mkdir. intros H.
  apply mkdir_loop_exists in H as [_ Hall].
  split; [exact Hall|]. by apply mkdir_loop_noop.
Qed.

Lemma mkdir_idempotent_witness :
  let w' := snd (SuperFSDir.mkdir "/root/x/y" None sampleWorld) in
  Forall (fun a => is_Some (Fs.lookup (files w') a))
         (FSTools.createPathArray "/root/x/y")
  /\ SuperFSDir.mkdir "/root/x/y" (Some 448%Z) w' = (Resolved tt, w').
Proof.
  apply (mkdir_idempotent "/root/x/y" None (Some 448%Z) sampleWorld).
  vm_compute. reflexivity.
Defined.

Example mkdir_on_sample :
  eventsSince sampleWorld (snd (SuperFSDir.mkdir "/root/x/y" None sampleWorld))
  = [EvMkdir "/root/x" 511; EvMkdir "/root/x/y" 511]
  /\ fst (SuperFSDir.mkdir "/root/a.txt/y" None sampleWorld) = Rejected ENOTDIR.
Proof. vm_compute. auto. Qed.

Lemma copyEntry_keeping dest opts fl copied :
  keeping isCreationEvent (SuperFSDir.copyEntry dest opts fl copied).
Proof.
  unfold SuperFSDir.copyEntry, FSTools.exists_, FSTools.writeFile.
  destruct (relative fl) as [rel|]; [|auto with keeping].
  destruct (isDir fl).
  - apply keeping_bind; [|auto with keeping].
    intros w. eapply keeps_weaken; [|apply SuperFSDir_mkdir_keeping].
    by intros [].
  - apply keeping_bind; [auto with keeping|]. intros data.
    apply keeping_bind; [auto with keeping|]. intros targetExists.
    apply keeping_bind; [|auto with keeping].
    destruct (negb targetExists || overwrite opts);
      [apply Fs_writeFile_keeping|auto with keeping].
Qed.

(** X10: whatever its options, [copy] never removes anything: whether it
    resolves or rejects, everything it has logged is a directory creation
    or a file write, and every object that existed before, in the source
    or in the destination, is still there with its kind and mode. *)
Theorem copy_never_removes callerDir fuel this_path dest arg (w : World) :
  keeps isCreationEvent w
        (snd (SuperFSDir.copy callerDir fuel this_path dest arg w)).
Proof.
  revert w.
  change (keeping isCreationEvent
            (SuperFSDir.copy callerDir fuel this_path dest arg)).
  unfold SuperFSDir.copy, FSTools.exists_.
  apply keeping_bind; [auto with keeping|]. intros destExists.
  apply keeping_bind.
  { destruct (negb destExists); [|auto with keeping].
    intros w. eapply keeps_weaken; [|apply SuperFSDir_mkdir_keeping].
    by intros []. }
  intros _. apply keeping_bind; [auto with keeping|]. intros files.
  apply keeping_forOfM. intros fl copied. apply copyEntry_keeping.
Qed.

(** ** What [copy] writes and what it resolves with *)

Lemma writeFile_resolved_content p data mode (w w' : World) :
  Fs.writeFile p data mode w = (Resolved tt, w') ->
  Fs.readFile (files w') p = Resolved data.
Proof.
  unfold Fs.writeFile, Fs.change, Fs.readFile.
  destruct (Fs.lookup (files w) p) as [[data0 m0|names m0]|] eqn:Hl.
  - intros [= <-]. simpl. unfold Fs.lookup. by rewrite lookup_insert_eq.
  - discriminate.
  - destruct (Fs.link _ _ (files w)) as [fs'| |] eqn:Hlink; try discriminate.
    intros [= <-]. simpl. unfold Fs.link in Hlink.
    destruct (files w !! Fs.parentOf _) as [[|names pm]|]; try discriminate.
    injection Hlink as <-. unfold Fs.lookup. by rewrite lookup_insert_eq.
Qed.

(** X11: when the step of [copy] for a file entry resolves, the entry it
    leaves carries whether the destination existed and the [overwrite]
    option; if the destination did not exist or [overwrite] is set, the
    destination then reads back as the content read from the source, and
    otherwise nothing at all has changed. *)
Theorem copy_file_step dest opts (fl : Entry) rel copied (w w' : World) out :
  relative fl = Some rel ->
  isDir fl = false ->
  SuperFSDir.copyEntry dest opts fl copied w = (Resolved out, w') ->
  exists data targetExists,
    FSTools.readFile (files w) (path fl) = Resolved data /\
    FSTools.exists_ (Path.join dest rel) w = (Resolved targetExists, w) /\
    out = copied ++ [setCopyOutcome fl targetExists (overwrite opts)] /\
    if negb targetExists || overwrite opts
    then Fs.readFile (files w') (Path.join dest rel) = Resolved data
    else w' = w.
Proof.
  intros Hrel Hdir. unfold SuperFSDir.copyEntry. rewrite Hrel, Hdir.
  unfold bindM at 1. unfold inspect at 1.
  destruct (FSTools.readFile (files w) (path fl)) as [data| |]; try discriminate.
  unfold bindM at 1.
  destruct (FSTools.exists_ (Path.join dest rel) w) as [r w0] eqn:Hex.
  assert (w0 = w /\ exists b, r = Resolved b) as [-> [targetExists ->]].
  { unfold FSTools.exists_, inspect in Hex. injection Hex as <- <-.
    split; [done|]. destruct (Fs.access _ _); by eexists. }
  intros H. exists data, targetExists. split; [done|]. split; [done|].
  unfold bindM, ret, FSTools.writeFile in H.
  destruct (negb targetExists || overwrite opts).
  - destruct (Fs.writeFile _ _ _ w) as [[[]| |] w1] eqn:Hw; try discriminate.
    injection H as <- <-. split; [done|].
    by apply writeFile_resolved_content in Hw.
  - by injection H as <- <-.
Qed.

Lemma copy_file_step_witness :
  let fl := mkEntry "/root/a.txt" "a.txt" "/root" true false 420%Z
                    (Some "a.txt") None None in
  let opts := mkCopyOptions false true None None in
  exists data targetExists,
    FSTools.readFile sampleFiles "/root/a.txt" = Resolved data /\
    FSTools.exists_ (Path.join "/root/sub" "a.txt") sampleWorld
    = (Resolved targetExists, sampleWorld) /\
    fst (SuperFSDir.copyEntry "/root/sub" opts fl [] sampleWorld)
    = Resolved ([] ++ [setCopyOutcome fl targetExists (overwrite opts)]) /\
    if negb targetExists || overwrite opts
    then Fs.readFile
           (files (snd (SuperFSDir.copyEntry "/root/sub" opts fl [] sampleWorld)))
           (Path.join "/root/sub" "a.txt") = Resolved data
    else snd (SuperFSDir.copyEntry "/root/sub" opts fl [] sampleWorld) = sampleWorld.
Proof.
  intros fl opts.
  destruct (copy_file_step "/root/sub" opts fl "a.txt" [] sampleWorld
              (snd (SuperFSDir.copyEntry "/root/sub" opts fl [] sampleWorld))
              [setCopyOutcome fl false true] eq_refl eq_refl)
    as (data & ex & H1 & H2 & H3 & H4).
  - vm_compute. reflexivity.
  - exists data, ex. split; [done|]. split; [done|]. split; [|done].
    rewrite <- H3. vm_compute. reflexivity.
Defined.

(** With [overwrite] an existing destination file takes the source's
    content and keeps its own mode; without, it is left as it is. *)
Example copy_overwrites_on_sample :
  let w := mkWorld (<["/dst/a.txt" := File "old" 384%Z]>
                      (<["/dst" := Dir ["a.txt"] 493%Z]> sampleFiles)) [] in
  files (snd (SuperFSDir.copy "/lib" 3 "/root" "/dst"
                (CopyWith (mkCopyOptions false true None None)) w))
    !! "/dst/a.txt" = Some (File "A" 384)
  /\ files (snd (SuperFSDir.copy "/lib" 3 "/root" "/dst" CopyTrue w))
       !! "/dst/a.txt" = Some (File "old" 384).
Proof. vm_compute. auto. Qed.

Lemma copyEntry_resolved dest opts fl copied (w w' : World) out :
  SuperFSDir.copyEntry dest opts fl copied w = (Resolved out, w') ->
  exists o, out = copied ++ [o] /\ copiedAs opts fl o.
Proof.
  unfold SuperFSDir.copyEntry, copiedAs.
  destruct (relative fl) as [rel|]; [|discriminate].
  destruct (isDir fl).
  - unfold bindM, ret.
    destruct (SuperFSDir.mkdir _ _ w) as [[[]| |] w1]; try discriminate.
    intros [= <- <-]. by exists fl.
  - unfold bindM at 1. unfold inspect at 1.
    destruct (FSTools.readFile (files w) (path fl)) as [data| |];
      try discriminate.
    unfold bindM at 1. unfold FSTools.exists_ at 1, inspect at 1.
    set (targetExists := match Fs.access (files w) (Path.join dest rel) with
                         | None => true
                         | Some _ => false
                         end).
    assert (Hex : match Fs.access (files w) (Path.join dest rel) with
                  | None => Resolved true
                  | Some _ => Resolved false
                  end = Resolved targetExists).
    { unfold targetExists. by destruct (Fs.access _ _). }
    rewrite Hex. unfold bindM, ret.
    destruct (negb targetExists || overwrite opts).
    + destruct (FSTools.writeFile _ _ _ w) as [[[]| |] w1]; try discriminate.
      intros [= <- <-]. eexists. split; [reflexivity|]. by exists targetExists.
    + intros [= <- <-]. eexists. split; [reflexivity|]. by exists targetExists.
Qed.

Lemma copy_loop_resolved dest opts (l : list Entry) : forall copied w w' out,
  forOfM l copied (SuperFSDir.copyEntry dest opts) w = (Resolved out, w') ->
  exists annotated,
    out = copied ++ annotated /\ Forall2 (copiedAs opts) l annotated.
Proof.
  induction l as [|fl l IH]; intros copied w w' out; simpl.
  - intros [= <- <-]. exists []. split; [by rewrite app_nil_r|constructor].
  - unfold bindM at 1.
    destruct (SuperFSDir.copyEntry dest opts fl copied w) as [[out1| |] w1] eqn:H1;
      try discriminate.
    intros Hrest. apply copyEntry_resolved in H1 as (o & -> & Ho).
    apply IH in Hrest as (annotated & -> & HF).
    exists (o :: annotated). split; [by rewrite <- app_assoc|by constructor].
Qed.

(** X12: when [copy] resolves, it resolves with the entries of its full
    recursive read of the source, in the same order: each directory
    entry as the read returned it, each file entry with [fileExists] and
    [fileOverwritten] stamped, the latter being the [overwrite] option,
    and nothing else changed. *)
Theorem copy_resolves_with_read_entries
    callerDir fuel this_path dest arg (w w' : World) out :
  SuperFSDir.copy callerDir fuel this_path dest arg w = (Resolved out, w') ->
  exists w1 entries,
    keeps isMkdirEvent w w1 /\
    SuperFSDir.read callerDir fuel (files w1) SuperFSDir.readAll this_path
    = Resolved entries /\
    Forall2 (copiedAs (SuperFSDir.copyOptions arg)) entries out.
Proof.
  unfold SuperFSDir.copy. unfold bindM at 1.
  unfold FSTools.exists_ at 1, inspect at 1.
  set (r := match Fs.access (files w) dest with
            | None => Resolved true
            | Some _ => Resolved false
            end).
  assert (exists destExists, r = Resolved destExists) as [destExists ->].
  { unfold r. destruct (Fs.access _ _); by eexists. }
  unfold bindM at 1.
  assert (Hensure : keeps isMkdirEvent w
            (snd ((if negb destExists then SuperFSDir.mkdir dest None
                   else ret tt) w))).
  { destruct (negb destExists);
      [apply SuperFSDir_mkdir_keeping|apply keeps_refl]. }
  destruct ((if negb destExists then SuperFSDir.mkdir dest None else ret tt) w)
    as [[[]| |] w1]; try discriminate.
  unfold bindM at 1. unfold inspect at 1.
  destruct (SuperFSDir.read callerDir fuel (files w1) SuperFSDir.readAll this_path)
    as [entries| |] eqn:Hread; try discriminate.
  intros Hloop. apply copy_loop_resolved in Hloop as (annotated & -> & HF).
  by exists w1, entries.
Qed.

Lemma copy_resolves_with_read_entries_witness :
  exists w1 entries,
    keeps isMkdirEvent sampleWorld w1 /\
    SuperFSDir.read "/lib" 3 (files w1) SuperFSDir.readAll "/root"
    = Resolved entries /\
    Forall2 (copiedAs (SuperFSDir.copyOptions CopyTrue)) entries
      [mkEntry "/root/a.txt" "a.txt" "/root" true false 420%Z (Some "a.txt")
               (Some false) (Some false);
       mkEntry "/root/sub" "sub" "/root" false true 493%Z (Some "sub") None None;
       mkEntry "/root/sub/b.txt" "b.txt" "/root/sub" true false 420%Z
               (Some "sub/b.txt") (Some false) (Some false);
       mkEntry "/root/sub/deep" "deep" "/root/sub" false true 493%Z
               (Some "sub/deep") None None].
Proof.
  apply (copy_resolves_with_read_entries "/lib" 3 "/root" "/dst/x" CopyTrue
           sampleWorld
           (snd (SuperFSDir.copy "/lib" 3 "/root" "/dst/x" CopyTrue sampleWorld))).
  vm_compute. reflexivity.
Defined.

(** ** What [delete] never does *)







Lemma unlinkKey_spares k r (fs : gmap string fsobj) names m :
  k <> r ->
  fs !! r = Some (Dir names m) ->
  exists names', Fs.unlinkKey k fs !! r = Some (Dir names' m).
Proof.
  intros Hne Hr. unfold Fs.unlinkKey.
  assert (Hr' : base.delete k fs !! r = Some (Dir names m))
    by (by rewrite lookup_delete_ne).
  destruct (base.delete k fs !! Fs.parentOf k) as [[|pnames pm]|] eqn:Hpar;
    try by eexists.
  destruct (decide (Fs.parentOf k = r)) as [E|E].
  - rewrite E in Hpar |- *. rewrite Hr' in Hpar. injection Hpar as <- <-.
    rewrite lookup_insert_eq. by eexists.
  - rewrite lookup_insert_ne by done. by eexists.
Qed.

Lemma delete_loop_spares r m (l : list Entry) : forall w names,
  Forall (fun fl => Path.resolve (path fl) <> r) l ->
  files w !! r = Some (Dir names m) ->
  exists names',
    files (snd (forOfM l tt
                  (fun fl _ =>
                     if isDir fl then FSTools.removeDir (path fl)
                     else FSTools.removeFile (path fl)) w))
      !! r = Some (Dir names' m).
Proof.
  induction l as [|fl l IH]; intros w names Hall Hr; simpl; [by eexists|].
  apply Forall_cons in Hall as [Hfl Hall]. unfold bindM.
  pose proof (removal_files fl w) as Hstep. simpl in Hstep.
  assert (Hr1 : exists names1,
             files (snd ((if isDir fl then FSTools.removeDir (path fl)
                          else FSTools.removeFile (path fl)) w)) !! r
             = Some (Dir names1 m)).
  { destruct Hstep as [->|[Hf _]]; [by eexists|]. rewrite Hf.
    by eapply unlinkKey_spares. }
  destruct ((if isDir fl then FSTools.removeDir (path fl)
             else FSTools.removeFile (path fl)) w) as [[[]| |] w1];
    simpl in *; try exact Hr1.
  destruct Hr1 as [names1 Hr1]. by eapply IH.
Qed.

Lemma described_not_root segs e d :
  Forall (fun n => plainName n = true) segs ->
  describes ("/" +:+ String.concat "/" segs) e d ->
  Forall (fun n => plainName n = true) (fst d) -> fst d <> [] ->
  Path.resolve (path e) <> "/" +:+ String.concat "/" segs.
Proof.
  intros Hsegs (_ & Hpath & _) Hd Hne.
  rewrite Hpath, fold_join_clean by done.
  rewrite resolve_clean by (apply Forall_app; by split).
  intros E. rewrite <- (app_nil_r segs) in E at 2.
  apply clean_path_inj in E; [done|done|done|constructor].
Qed.

(** X14: on a file system that holds a well-formed tree at a normal
    absolute path, [delete] never removes the root itself: whether it
    resolves or rejects, and whatever rearrangement the engine's sort
    returns, the root is still a directory afterwards. *)
Theorem delete_spares_root
    (sort : (Entry -> Entry -> Z) -> list Entry -> list Entry)
    callerDir fuel (w : World) (root : string) (t : tree) :
  permutes sort ->
  cleanAbsolute root ->
  wellFormed t ->
  holds (files w) root t ->
  isTDir t = true ->
  depth t <= fuel ->
  exists names m,
    Fs.lookup (files (snd (SuperFSDir.delete callerDir sort fuel root w))) root
    = Some (Dir names m).
Proof.
  intros Hsort Hroot Hwf Hholds Hdir Hdepth.
  destruct (read_held_tree callerDir (files w) root t fuel)
    as (entries & Hread & Hdesc & _); try done.
  destruct Hroot as (segs & Hsegs & ->).
  destruct t as [|m children]; [discriminate|].
  destruct Hholds as [Hlookup _]. unfold Fs.lookup in *.
  rewrite (resolve_clean segs Hsegs) in *.
  assert (Hall : Forall (fun fl => Path.resolve (path fl)
                                   <> "/" +:+ String.concat "/" segs)
                        (sort SuperFSDir.dirLast entries)).
  { rewrite Forall_forall. intros fl Hfl. apply list_elem_of_In in Hfl.
    apply (Permutation_in _ (Hsort _ _)) in Hfl.
    destruct (Forall2_In_left _ _ _ _ Hdesc Hfl) as (d & Hd & Hde).
    destruct (descendants_plain _ [] d Hwf (List.Forall_nil _) Hd) as [Hp Hne].
    by eapply described_not_root. }
  destruct (delete_loop_spares _ m _ w _ Hall Hlookup) as [names' Hspared].
  exists names', m.
  unfold SuperFSDir.delete. unfold bindM at 1. unfold inspect at 1.
  rewrite Hread. unfold bindM, ret.
  by destruct (forOfM _ tt _ w) as [[[]| |] w1].
Qed.

Lemma insertionSort_permutes : permutes insertionSort.
Proof.
  intros cmp l. unfold insertionSort.
  assert (Hgen : forall l acc,
             Permutation
               (fold_left (fun sortedRev element => insertLeft cmp element sortedRev)
                          l acc) (rev l ++ acc)).
  { clear l. induction l as [|x l IH]; intros acc; simpl; [done|].
    rewrite IH, (insertLeft_Permutation cmp x acc), <- app_assoc.
    reflexivity. }
  rewrite <- Permutation_rev, Hgen, app_nil_r. symmetry. apply Permutation_rev.
Qed.

Lemma delete_spares_root_witness :
  exists names m,
    Fs.lookup
      (files (snd (SuperFSDir.delete "/lib" insertionSort 3 "/root" sampleWorld)))
      "/root" = Some (Dir names m).
Proof.
  apply (delete_spares_root insertionSort "/lib" 3 sampleWorld "/root" sampleTree).
  - exact insertionSort_permutes.
  - exists ["root"]. split; [by repeat constructor|reflexivity].
  - exact sampleTree_wellFormed.
  - vm_compute. tauto.
  - reflexivity.
  - simpl. lia.
Defined.

(** ** The recursive [mkdir] helper beyond the root's children *)

Lemma mkdirThenDone_cases d (w : World) :
  (exists w', MkdirHelper.mkdirThenDone d w = (Resolved None, w') /\
              Fs.mkdir d 511%Z w = (Resolved tt, w'))
  \/ (exists err, MkdirHelper.mkdirThenDone d w = (Resolved (Some err), w)).
Proof.
  unfold MkdirHelper.mkdirThenDone, Fs.mkdir, Fs.change.
  destruct (match Fs.lookup (files w) d with
            | Some _ => _
            | None => _
            end) as [fs'| |] eqn:E; eauto.
  exfalso. destruct (Fs.lookup (files w) d); [discriminate|].
  unfold Fs.link in E. by destruct (files w !! _) as [[|]|].
Qed.

Lemma Fs_mkdir_resolved_exists d mode (w w' : World) :
  Fs.mkdir d mode w = (Resolved tt, w') -> Fs.access (files w') d = None.
Proof.
  unfold Fs.mkdir, Fs.change, Fs.access.
  destruct (Fs.lookup (files w) d) eqn:Hl; [discriminate|].
  destruct (Fs.link _ _ (files w)) as [fs'| |] eqn:Hlink; try discriminate.
  intros [= <-]. simpl. unfold Fs.link in Hlink.
  destruct (files w !! Fs.parentOf _) as [[|names pm]|]; try discriminate.
  injection Hlink as <-. unfold Fs.lookup. by rewrite lookup_insert_eq.
Qed.

(** A run of the helper that ends without an error, for a target whose
    parent is not the root, ends with the target accessible. *)
Lemma MkdirHelper_resolved_accessible fuel (d : string) (w w' : World) :
  Path.join d "../" <> "/" ->
  MkdirHelper.mkdir fuel d w = (Resolved None, w') ->
  Fs.access (files w') d = None.
Proof.
  intros Hparent. destruct fuel as [|fuel]; [discriminate|]. simpl.
  destruct (Fs.access (files w) d) eqn:Hacc; [|by intros [= <-]].
  apply String.eqb_neq in Hparent. rewrite Hparent. unfold bindM.
  destruct (MkdirHelper.mkdir fuel (Path.join d "../") w) as [[[err|]| |] w1];
    try discriminate.
  destruct (mkdirThenDone_cases d w1) as [(w2 & -> & Hmk)|(err & ->)];
    [|discriminate].
  intros [= <-]. by apply Fs_mkdir_resolved_exists in Hmk.
Qed.

(** X15: except for a target directly below the root, when the helper
    calls [done()] without an error the target exists. *)
Theorem mkdir_helper_success_creates fuel (d : string) (w w' : World) :
  Path.join d "../" <> "/" ->
  MkdirHelper.mkdir fuel d w = (Resolved None, w') ->
  Fs.access (files w') d = None.
Proof. apply MkdirHelper_resolved_accessible. Qed.

Lemma mkdir_helper_success_creates_witness :
  Fs.access
    (files (snd (MkdirHelper.mkdir 3 "/root/new/deeper" sampleWorld)))
    "/root/new/deeper" = None.
Proof.
  apply (mkdir_helper_success_creates 3 "/root/new/deeper" sampleWorld).
  - vm_compute. discriminate.
  - vm_compute. reflexivity.
Defined.

(** X16: the helper never rejects and only ever makes directories: a
    failure is handed to [done], everything logged is a directory
    creation, and every object that existed before is still there with
    its kind and mode. *)
Theorem mkdir_helper_only_creates fuel : forall (d : string) (w : World),
  (forall err, fst (MkdirHelper.mkdir fuel d w) <> Rejected err)
  /\ keeps isMkdirEvent w (snd (MkdirHelper.mkdir fuel d w)).
Proof.
  induction fuel as [|fuel IH]; intros d w; simpl.
  - split; [done|apply keeps_refl].
  - destruct (Fs.access (files w) d); [|split; [done|apply keeps_refl]].
    destruct (String.eqb _ "/"); [split; [done|apply keeps_refl]|].
    unfold bindM. destruct (IH (Path.join d "../") w) as [Hnr Hk].
    destruct (MkdirHelper.mkdir fuel (Path.join d "../") w)
      as [[[err|]| |] w1]; simpl in *.
    + by split.
    + destruct (mkdirThenDone_cases d w1) as [(w2 & -> & Hmk)|(err & ->)];
        simpl; (split; [done|]); [|done].
      eapply keeps_trans; [exact Hk|].
      pose proof (Fs_mkdir_keeping d 511%Z w1) as Hstep.
      by rewrite Hmk in Hstep.
    + by split.
    + by split.
Qed.

(** X17: the helper is idempotent: once it has called [done()] without
    an error, calling it again for the same target calls [done()] without
    an error and changes nothing. *)
Theorem mkdir_helper_idempotent fuel fuel' (d : string) (w w' : World) :
  MkdirHelper.mkdir fuel d w = (Resolved None, w') ->
  MkdirHelper.mkdir (S fuel') d w' = (Resolved None, w').
Proof.
  intros H. destruct (String.eqb (Path.join d "../") "/") eqn:Hparent.
  - destruct fuel as [|fuel]; [discriminate|]. simpl in H |- *.
    rewrite Hparent in H.
    assert (w' = w) as ->.
    { destruct (Fs.access (files w) d); by injection H as <-. }
    rewrite Hparent. by destruct (Fs.access (files w) d).
  - apply String.eqb_neq in Hparent.
    apply MkdirHelper_resolved_accessible in H; [|done].
    simpl. by rewrite H.
Qed.

Lemma mkdir_helper_idempotent_witness :
  MkdirHelper.mkdir 1 "/root/new"
    (snd (MkdirHelper.mkdir 2 "/root/new" sampleWorld))
  = (Resolved None, snd (MkdirHelper.mkdir 2 "/root/new" sampleWorld)).
Proof.
  apply (mkdir_helper_idempotent 2 0 "/root/new" sampleWorld).
  vm_compute. reflexivity.
Defined.

(** A failure below reaches [done] unchanged: the parent of the parent
    is a file. *)
Example mkdir_helper_hands_error_to_done :
  MkdirHelper.mkdir 3 "/root/a.txt/x/y" sampleWorld
  = (Resolved (Some ENOTDIR), sampleWorld).
Proof. vm_compute. reflexivity. Qed.

(** ** Failures and edge cases of [read] *)

Section ReadEdges.

Variable callerDir : string.

Local Abbreviation read := (SuperFSDir.read callerDir).

(** X18: [read] is all or nothing: whatever the options, it resolves
    only if every name that survives the first pass can be statted, so
    one listed name that has vanished makes the whole read fail. *)
Theorem read_needs_every_survivor fuel fs opts this_path rawFiles out :
  FSTools.readDir fs this_path = Resolved rawFiles ->
  read (S fuel) fs opts this_path = Resolved out ->
  Forall (fun file =>
            exists st, FSTools.stat fs (Path.join this_path file) = Resolved st)
         (SuperFSDir.firstPass (ignore opts) rawFiles).
Proof.
  intros Hraw H. apply read_resolved_iff in H
    as (parent & raw' & pushes & _ & Hr & HF & _).
  rewrite Hraw in Hr. injection Hr as <-.
  induction HF as [|file pushed l k Hfp HF IH]; constructor; [|done].
  unfold pushedBy, SuperFSDir.readEntry in Hfp.
  destruct (FSTools.stat fs _) as [st| |]; [by exists st|done|done].
Qed.

(** X19: the edges of [read], whatever the options: a path that names
    nothing rejects with [ENOENT], a path that names a file rejects with
    [ENOTDIR] even when the parent entry is asked for, and an empty
    directory resolves with no entry but that of the directory itself
    when [addParent] is set. *)
Theorem read_edges fuel fs opts this_path :
  (Fs.lookup fs this_path = None ->
   read (S fuel) fs opts this_path = Rejected ENOENT)
  /\ (forall data m,
         Fs.lookup fs this_path = Some (File data m) ->
         read (S fuel) fs opts this_path = Rejected ENOTDIR)
  /\ (forall m,
         Fs.lookup fs this_path = Some (Dir [] m) ->
         read (S fuel) fs opts this_path
         = Resolved (if addParent opts
                     then [mkEntry this_path (Path.basename this_path)
                                   (Path.dirname this_path) false true m
                                   None None None]
                     else [])).
Proof.
  rewrite read_S. unfold parentEntries, SuperFSDir.create, Fs.lstat, Fs.stat,
    FSTools.readDir, Fs.readdir.
  split; [|split].
  - intros ->. by destruct (addParent opts).
  - intros data m ->. by destruct (addParent opts).
  - intros m ->. destruct (addParent opts); simpl;
      by destruct (ignore opts).
Qed.

End ReadEdges.

Lemma read_needs_every_survivor_witness :
  Forall (fun file =>
            exists st, FSTools.stat staleFiles (Path.join "/root" file)
                       = Resolved st)
         (SuperFSDir.firstPass (ignore (withIgnore (isNot "gone")))
                               ["a.txt"; "gone"; "sub"]).
Proof.
  exact (read_needs_every_survivor "/lib" 0 staleFiles (withIgnore (isNot "gone"))
           "/root" ["a.txt"; "gone"; "sub"] _ eq_refl eq_refl).
Defined.

Example read_edges_on_sample :
  SuperFSDir.read "/lib" 2 sampleFiles (withAddParent true defaults) "/root/a.txt"
  = Rejected ENOTDIR
  /\ SuperFSDir.read "/lib" 2 sampleFiles SuperFSDir.readAll "/root/sub/deep" = Resolved [].
Proof. vm_compute. auto. Qed.

(** ** One run of [copy] without overwriting *)

(** X20: one run of [copy] without [overwrite] leaves every file that
    existed, in the source as in the destination, with its content and
    mode, and writes only at paths that named nothing when they were
    written. *)
Theorem copy_without_overwrite_preserves_files
    callerDir fuel this_path dest arg (w : World) :
  overwrite (SuperFSDir.copyOptions arg) = false ->
  let w' := snd (SuperFSDir.copy callerDir fuel this_path dest arg w) in
  (forall k data m,
      files w !! k = Some (File data m) -> files w' !! k = Some (File data m))
  /\ (forall p data m,
         In (EvWriteFile p data m) (eventsSince w w') ->
         files w !! Path.resolve p = None).
Proof.
  intros Hov w'.
  destruct (copy_extending callerDir fuel this_path dest arg Hov w)
    as (new & He & _ & Hf & Hw).
  fold w' in He, Hf, Hw. split; [exact Hf|].
  intros p data m. rewrite (eventsSince_app _ _ _ He). intros Hin.
  by destruct (Hw _ _ _ Hin).
Qed.

Lemma copy_without_overwrite_preserves_files_witness :
  let w := mkWorld (<["/dst/a.txt" := File "old" 384%Z]>
                      (<["/dst" := Dir ["a.txt"] 493%Z]> sampleFiles)) [] in
  let w' := snd (SuperFSDir.copy "/lib" 3 "/root" "/dst" CopyTrue w) in
  (forall k data m,
      files w !! k = Some (File data m) -> files w' !! k = Some (File data m))
  /\ (forall p data m,
         In (EvWriteFile p data m) (eventsSince w w') ->
         files w !! Path.resolve p = None).
Proof.
  intros w.
  exact (copy_without_overwrite_preserves_files "/lib" 3 "/root" "/dst" CopyTrue
           w eq_refl).
Defined.
